(** * Material counter: text normalisation, pattern extraction and code association

    A shallow embedding of [main.py]: the OCR text cleaner
    ([clean_ocr_text]), the page extractor ([extract_all_codes]), the material
    code validator ([validate_material_code], [clean_material_code]) and the
    two document-level drivers ([extract_materials],
    [extract_all_codes_from_pdf]) with their native-text / OCR collaborators.

    Python strings are sequences of Unicode code points: a character is a
    code point in [N] and a string a list of them.  Regular expressions are
    embedded as syntax trees and run by a backtracking matcher that yields the
    ways to match in the order in which Python's [re] module tries them, so
    that the first one is the match Python reports. *)

From Stdlib Require Import String Ascii Bool NArith Arith Lia List.
From Stdlib Require DecimalString.
Import ListNotations.

(** ** Characters and strings *)

Definition char := N.
Abbreviation str := (list char).

(** ASCII literals of the source are written [lit "..."]. *)
Definition lit (s : string) : str :=
  map N_of_ascii (list_ascii_of_string s).

Definition chr (s : string) : char :=
  match lit s with c :: _ => c | [] => 0%N end.

Definition char_eqb (a b : char) : bool := N.eqb a b.

Fixpoint str_eqb (a b : str) : bool :=
  match a, b with
  | [], [] => true
  | x :: a', y :: b' => char_eqb x y && str_eqb a' b'
  | _, _ => false
  end.

Definition is_empty (s : str) : bool :=
  match s with [] => true | _ :: _ => false end.

(** The double quote, U+2019 (right single quotation mark), U+FB01 and
    U+FB02 (the fi and fl ligatures). *)
Definition dquote : char := 34%N.
Definition rsquo : char := 8217%N.
Definition lig_fi : char := 64257%N.
Definition lig_fl : char := 64258%N.

(** *** Character classes

    [\d], [\s] and [\w] on a [str] pattern are Unicode-aware: the decimal
    digits, the white space and the alphanumerics (plus the underscore) of
    the Unicode character database (version 14.0), as inclusive code point
    ranges.  [str.strip()] uses the same white space. *)

Definition in_ranges (tbl : list (N * N)) (c : char) : bool :=
  existsb (fun r => N.leb (fst r) c && N.leb c (snd r)) tbl.

Definition decimal_ranges : list (N * N) :=
  [(48, 57); (1632, 1641); (1776, 1785); (1984, 1993); (2406, 2415); (2534, 2543);
   (2662, 2671); (2790, 2799); (2918, 2927); (3046, 3055); (3174, 3183); (3302, 3311);
   (3430, 3439); (3558, 3567); (3664, 3673); (3792, 3801); (3872, 3881); (4160, 4169);
   (4240, 4249); (6112, 6121); (6160, 6169); (6470, 6479); (6608, 6617); (6784, 6793);
   (6800, 6809); (6992, 7001); (7088, 7097); (7232, 7241); (7248, 7257); (42528, 42537);
   (43216, 43225); (43264, 43273); (43472, 43481); (43504, 43513); (43600, 43609); (44016, 44025);
   (65296, 65305); (66720, 66729); (68912, 68921); (69734, 69743); (69872, 69881); (69942, 69951);
   (70096, 70105); (70384, 70393); (70736, 70745); (70864, 70873); (71248, 71257); (71360, 71369);
   (71472, 71481); (71904, 71913); (72016, 72025); (72784, 72793); (73040, 73049); (73120, 73129);
   (92768, 92777); (92864, 92873); (93008, 93017); (120782, 120831); (123200, 123209); (123632, 123641);
   (125264, 125273); (130032, 130041)]%N.

Definition space_ranges : list (N * N) :=
  [(9, 13); (28, 32); (133, 133); (160, 160); (5760, 5760); (8192, 8202);
   (8232, 8233); (8239, 8239); (8287, 8287); (12288, 12288)]%N.

Definition word_ranges : list (N * N) :=
  [(48, 57); (65, 90); (95, 95); (97, 122); (170, 170); (178, 179);
   (181, 181); (185, 186); (188, 190); (192, 214); (216, 246); (248, 705);
   (710, 721); (736, 740); (748, 748); (750, 750); (880, 884); (886, 887);
   (890, 893); (895, 895); (902, 902); (904, 906); (908, 908); (910, 929);
   (931, 1013); (1015, 1153); (1162, 1327); (1329, 1366); (1369, 1369); (1376, 1416);
   (1488, 1514); (1519, 1522); (1568, 1610); (1632, 1641); (1646, 1647); (1649, 1747);
   (1749, 1749); (1765, 1766); (1774, 1788); (1791, 1791); (1808, 1808); (1810, 1839);
   (1869, 1957); (1969, 1969); (1984, 2026); (2036, 2037); (2042, 2042); (2048, 2069);
   (2074, 2074); (2084, 2084); (2088, 2088); (2112, 2136); (2144, 2154); (2160, 2183);
   (2185, 2190); (2208, 2249); (2308, 2361); (2365, 2365); (2384, 2384); (2392, 2401);
   (2406, 2415); (2417, 2432); (2437, 2444); (2447, 2448); (2451, 2472); (2474, 2480);
   (2482, 2482); (2486, 2489); (2493, 2493); (2510, 2510); (2524, 2525); (2527, 2529);
   (2534, 2545); (2548, 2553); (2556, 2556); (2565, 2570); (2575, 2576); (2579, 2600);
   (2602, 2608); (2610, 2611); (2613, 2614); (2616, 2617); (2649, 2652); (2654, 2654);
   (2662, 2671); (2674, 2676); (2693, 2701); (2703, 2705); (2707, 2728); (2730, 2736);
   (2738, 2739); (2741, 2745); (2749, 2749); (2768, 2768); (2784, 2785); (2790, 2799);
   (2809, 2809); (2821, 2828); (2831, 2832); (2835, 2856); (2858, 2864); (2866, 2867);
   (2869, 2873); (2877, 2877); (2908, 2909); (2911, 2913); (2918, 2927); (2929, 2935);
   (2947, 2947); (2949, 2954); (2958, 2960); (2962, 2965); (2969, 2970); (2972, 2972);
   (2974, 2975); (2979, 2980); (2984, 2986); (2990, 3001); (3024, 3024); (3046, 3058);
   (3077, 3084); (3086, 3088); (3090, 3112); (3114, 3129); (3133, 3133); (3160, 3162);
   (3165, 3165); (3168, 3169); (3174, 3183); (3192, 3198); (3200, 3200); (3205, 3212);
   (3214, 3216); (3218, 3240); (3242, 3251); (3253, 3257); (3261, 3261); (3293, 3294);
   (3296, 3297); (3302, 3311); (3313, 3314); (3332, 3340); (3342, 3344); (3346, 3386);
   (3389, 3389); (3406, 3406); (3412, 3414); (3416, 3425); (3430, 3448); (3450, 3455);
   (3461, 3478); (3482, 3505); (3507, 3515); (3517, 3517); (3520, 3526); (3558, 3567);
   (3585, 3632); (3634, 3635); (3648, 3654); (3664, 3673); (3713, 3714); (3716, 3716);
   (3718, 3722); (3724, 3747); (3749, 3749); (3751, 3760); (3762, 3763); (3773, 3773);
   (3776, 3780); (3782, 3782); (3792, 3801); (3804, 3807); (3840, 3840); (3872, 3891);
   (3904, 3911); (3913, 3948); (3976, 3980); (4096, 4138); (4159, 4169); (4176, 4181);
   (4186, 4189); (4193, 4193); (4197, 4198); (4206, 4208); (4213, 4225); (4238, 4238);
   (4240, 4249); (4256, 4293); (4295, 4295); (4301, 4301); (4304, 4346); (4348, 4680);
   (4682, 4685); (4688, 4694); (4696, 4696); (4698, 4701); (4704, 4744); (4746, 4749);
   (4752, 4784); (4786, 4789); (4792, 4798); (4800, 4800); (4802, 4805); (4808, 4822);
   (4824, 4880); (4882, 4885); (4888, 4954); (4969, 4988); (4992, 5007); (5024, 5109);
   (5112, 5117); (5121, 5740); (5743, 5759); (5761, 5786); (5792, 5866); (5870, 5880);
   (5888, 5905); (5919, 5937); (5952, 5969); (5984, 5996); (5998, 6000); (6016, 6067);
   (6103, 6103); (6108, 6108); (6112, 6121); (6128, 6137); (6160, 6169); (6176, 6264);
   (6272, 6276); (6279, 6312); (6314, 6314); (6320, 6389); (6400, 6430); (6470, 6509);
   (6512, 6516); (6528, 6571); (6576, 6601); (6608, 6618); (6656, 6678); (6688, 6740);
   (6784, 6793); (6800, 6809); (6823, 6823); (6917, 6963); (6981, 6988); (6992, 7001);
   (7043, 7072); (7086, 7141); (7168, 7203); (7232, 7241); (7245, 7293); (7296, 7304);
   (7312, 7354); (7357, 7359); (7401, 7404); (7406, 7411); (7413, 7414); (7418, 7418);
   (7424, 7615); (7680, 7957); (7960, 7965); (7968, 8005); (8008, 8013); (8016, 8023);
   (8025, 8025); (8027, 8027); (8029, 8029); (8031, 8061); (8064, 8116); (8118, 8124);
   (8126, 8126); (8130, 8132); (8134, 8140); (8144, 8147); (8150, 8155); (8160, 8172);
   (8178, 8180); (8182, 8188); (8304, 8305); (8308, 8313); (8319, 8329); (8336, 8348);
   (8450, 8450); (8455, 8455); (8458, 8467); (8469, 8469); (8473, 8477); (8484, 8484);
   (8486, 8486); (8488, 8488); (8490, 8493); (8495, 8505); (8508, 8511); (8517, 8521);
   (8526, 8526); (8528, 8585); (9312, 9371); (9450, 9471); (10102, 10131); (11264, 11492);
   (11499, 11502); (11506, 11507); (11517, 11517); (11520, 11557); (11559, 11559); (11565, 11565);
   (11568, 11623); (11631, 11631); (11648, 11670); (11680, 11686); (11688, 11694); (11696, 11702);
   (11704, 11710); (11712, 11718); (11720, 11726); (11728, 11734); (11736, 11742); (11823, 11823);
   (12293, 12295); (12321, 12329); (12337, 12341); (12344, 12348); (12353, 12438); (12445, 12447);
   (12449, 12538); (12540, 12543); (12549, 12591); (12593, 12686); (12690, 12693); (12704, 12735);
   (12784, 12799); (12832, 12841); (12872, 12879); (12881, 12895); (12928, 12937); (12977, 12991);
   (13312, 19903); (19968, 42124); (42192, 42237); (42240, 42508); (42512, 42539); (42560, 42606);
   (42623, 42653); (42656, 42735); (42775, 42783); (42786, 42888); (42891, 42954); (42960, 42961);
   (42963, 42963); (42965, 42969); (42994, 43009); (43011, 43013); (43015, 43018); (43020, 43042);
   (43056, 43061); (43072, 43123); (43138, 43187); (43216, 43225); (43250, 43255); (43259, 43259);
   (43261, 43262); (43264, 43301); (43312, 43334); (43360, 43388); (43396, 43442); (43471, 43481);
   (43488, 43492); (43494, 43518); (43520, 43560); (43584, 43586); (43588, 43595); (43600, 43609);
   (43616, 43638); (43642, 43642); (43646, 43695); (43697, 43697); (43701, 43702); (43705, 43709);
   (43712, 43712); (43714, 43714); (43739, 43741); (43744, 43754); (43762, 43764); (43777, 43782);
   (43785, 43790); (43793, 43798); (43808, 43814); (43816, 43822); (43824, 43866); (43868, 43881);
   (43888, 44002); (44016, 44025); (44032, 55203); (55216, 55238); (55243, 55291); (63744, 64109);
   (64112, 64217); (64256, 64262); (64275, 64279); (64285, 64285); (64287, 64296); (64298, 64310);
   (64312, 64316); (64318, 64318); (64320, 64321); (64323, 64324); (64326, 64433); (64467, 64829);
   (64848, 64911); (64914, 64967); (65008, 65019); (65136, 65140); (65142, 65276); (65296, 65305);
   (65313, 65338); (65345, 65370); (65382, 65470); (65474, 65479); (65482, 65487); (65490, 65495);
   (65498, 65500); (65536, 65547); (65549, 65574); (65576, 65594); (65596, 65597); (65599, 65613);
   (65616, 65629); (65664, 65786); (65799, 65843); (65856, 65912); (65930, 65931); (66176, 66204);
   (66208, 66256); (66273, 66299); (66304, 66339); (66349, 66378); (66384, 66421); (66432, 66461);
   (66464, 66499); (66504, 66511); (66513, 66517); (66560, 66717); (66720, 66729); (66736, 66771);
   (66776, 66811); (66816, 66855); (66864, 66915); (66928, 66938); (66940, 66954); (66956, 66962);
   (66964, 66965); (66967, 66977); (66979, 66993); (66995, 67001); (67003, 67004); (67072, 67382);
   (67392, 67413); (67424, 67431); (67456, 67461); (67463, 67504); (67506, 67514); (67584, 67589);
   (67592, 67592); (67594, 67637); (67639, 67640); (67644, 67644); (67647, 67669); (67672, 67702);
   (67705, 67742); (67751, 67759); (67808, 67826); (67828, 67829); (67835, 67867); (67872, 67897);
   (67968, 68023); (68028, 68047); (68050, 68096); (68112, 68115); (68117, 68119); (68121, 68149);
   (68160, 68168); (68192, 68222); (68224, 68255); (68288, 68295); (68297, 68324); (68331, 68335);
   (68352, 68405); (68416, 68437); (68440, 68466); (68472, 68497); (68521, 68527); (68608, 68680);
   (68736, 68786); (68800, 68850); (68858, 68899); (68912, 68921); (69216, 69246); (69248, 69289);
   (69296, 69297); (69376, 69415); (69424, 69445); (69457, 69460); (69488, 69505); (69552, 69579);
   (69600, 69622); (69635, 69687); (69714, 69743); (69745, 69746); (69749, 69749); (69763, 69807);
   (69840, 69864); (69872, 69881); (69891, 69926); (69942, 69951); (69956, 69956); (69959, 69959);
   (69968, 70002); (70006, 70006); (70019, 70066); (70081, 70084); (70096, 70106); (70108, 70108);
   (70113, 70132); (70144, 70161); (70163, 70187); (70272, 70278); (70280, 70280); (70282, 70285);
   (70287, 70301); (70303, 70312); (70320, 70366); (70384, 70393); (70405, 70412); (70415, 70416);
   (70419, 70440); (70442, 70448); (70450, 70451); (70453, 70457); (70461, 70461); (70480, 70480);
   (70493, 70497); (70656, 70708); (70727, 70730); (70736, 70745); (70751, 70753); (70784, 70831);
   (70852, 70853); (70855, 70855); (70864, 70873); (71040, 71086); (71128, 71131); (71168, 71215);
   (71236, 71236); (71248, 71257); (71296, 71338); (71352, 71352); (71360, 71369); (71424, 71450);
   (71472, 71483); (71488, 71494); (71680, 71723); (71840, 71922); (71935, 71942); (71945, 71945);
   (71948, 71955); (71957, 71958); (71960, 71983); (71999, 71999); (72001, 72001); (72016, 72025);
   (72096, 72103); (72106, 72144); (72161, 72161); (72163, 72163); (72192, 72192); (72203, 72242);
   (72250, 72250); (72272, 72272); (72284, 72329); (72349, 72349); (72368, 72440); (72704, 72712);
   (72714, 72750); (72768, 72768); (72784, 72812); (72818, 72847); (72960, 72966); (72968, 72969);
   (72971, 73008); (73030, 73030); (73040, 73049); (73056, 73061); (73063, 73064); (73066, 73097);
   (73112, 73112); (73120, 73129); (73440, 73458); (73648, 73648); (73664, 73684); (73728, 74649);
   (74752, 74862); (74880, 75075); (77712, 77808); (77824, 78894); (82944, 83526); (92160, 92728);
   (92736, 92766); (92768, 92777); (92784, 92862); (92864, 92873); (92880, 92909); (92928, 92975);
   (92992, 92995); (93008, 93017); (93019, 93025); (93027, 93047); (93053, 93071); (93760, 93846);
   (93952, 94026); (94032, 94032); (94099, 94111); (94176, 94177); (94179, 94179); (94208, 100343);
   (100352, 101589); (101632, 101640); (110576, 110579); (110581, 110587); (110589, 110590); (110592, 110882);
   (110928, 110930); (110948, 110951); (110960, 111355); (113664, 113770); (113776, 113788); (113792, 113800);
   (113808, 113817); (119520, 119539); (119648, 119672); (119808, 119892); (119894, 119964); (119966, 119967);
   (119970, 119970); (119973, 119974); (119977, 119980); (119982, 119993); (119995, 119995); (119997, 120003);
   (120005, 120069); (120071, 120074); (120077, 120084); (120086, 120092); (120094, 120121); (120123, 120126);
   (120128, 120132); (120134, 120134); (120138, 120144); (120146, 120485); (120488, 120512); (120514, 120538);
   (120540, 120570); (120572, 120596); (120598, 120628); (120630, 120654); (120656, 120686); (120688, 120712);
   (120714, 120744); (120746, 120770); (120772, 120779); (120782, 120831); (122624, 122654); (123136, 123180);
   (123191, 123197); (123200, 123209); (123214, 123214); (123536, 123565); (123584, 123627); (123632, 123641);
   (124896, 124902); (124904, 124907); (124909, 124910); (124912, 124926); (124928, 125124); (125127, 125135);
   (125184, 125251); (125259, 125259); (125264, 125273); (126065, 126123); (126125, 126127); (126129, 126132);
   (126209, 126253); (126255, 126269); (126464, 126467); (126469, 126495); (126497, 126498); (126500, 126500);
   (126503, 126503); (126505, 126514); (126516, 126519); (126521, 126521); (126523, 126523); (126530, 126530);
   (126535, 126535); (126537, 126537); (126539, 126539); (126541, 126543); (126545, 126546); (126548, 126548);
   (126551, 126551); (126553, 126553); (126555, 126555); (126557, 126557); (126559, 126559); (126561, 126562);
   (126564, 126564); (126567, 126570); (126572, 126578); (126580, 126583); (126585, 126588); (126590, 126590);
   (126592, 126601); (126603, 126619); (126625, 126627); (126629, 126633); (126635, 126651); (127232, 127244);
   (130032, 130041); (131072, 173791); (173824, 177976); (177984, 178205); (178208, 183969); (183984, 191456);
   (194560, 195101); (196608, 201546)]%N.

Definition is_digit (c : char) : bool := in_ranges decimal_ranges c.
Definition is_space (c : char) : bool := in_ranges space_ranges c.
Definition is_word (c : char) : bool := in_ranges word_ranges c.

Definition one_of (s : str) (c : char) : bool := existsb (char_eqb c) s.
Definition between (lo hi : string) (c : char) : bool :=
  N.leb (chr lo) c && N.leb c (chr hi).

(** A literal character under [re.IGNORECASE]: a letter matches the
    characters whose lower case is the letter's, and the [re] module also
    takes U+0130 and U+0131 for case variants of [i], U+017F of [s] and U+212A
    of [k]; any other character matches itself only. *)
Definition lower_ascii (c : char) : char :=
  if between "A" "Z" c then (c + 32)%N else c.

Definition ci_char (l c : char) : bool :=
  let lo := lower_ascii l in
  if between "a" "z" lo then
    char_eqb c lo || char_eqb c (lo - 32)%N
    || (char_eqb lo (chr "i") && (char_eqb c 304%N || char_eqb c 305%N))
    || (char_eqb lo (chr "s") && char_eqb c 383%N)
    || (char_eqb lo (chr "k") && char_eqb c 8490%N)
  else char_eqb c l.

Definition ci (l : string) : char -> bool := ci_char (chr l).

(** [[A-Za-z0-9]] under [re.IGNORECASE]: also U+0130, U+0131, U+017F and
    U+212A, whose lower case falls in the class. *)
Definition alnum_ci (c : char) : bool :=
  between "A" "Z" c || between "a" "z" c || between "0" "9" c
  || one_of [304; 305; 383; 8490]%N c.

(** ** Regular expressions *)

Inductive regex : Type :=
| Chr (p : char -> bool)      (* one character of a class *)
| Eps                         (* the empty pattern *)
| Seq (a b : regex)           (* ab *)
| Alt (a b : regex)           (* a|b, a tried first *)
| Opt (a : regex)             (* a?, greedy *)
| Star (a : regex)            (* a*, greedy *)
| WordB                       (* \b *)
| Bol                         (* ^ *)
| Eol.                        (* $ *)

Definition Plus (a : regex) : regex := Seq a (Star a).

(** [a{1,2}], [a{1,3}] and [a{1,5}], greedy. *)
Definition Rep12 (a : regex) : regex := Seq a (Opt a).
Definition Rep13 (a : regex) : regex := Seq a (Opt (Rep12 a)).
Definition Rep15 (a : regex) : regex := Seq a (Opt (Seq a (Opt (Rep13 a)))).

Fixpoint Seqs (l : list regex) : regex :=
  match l with
  | [] => Eps
  | [r] => r
  | r :: l' => Seq r (Seqs l')
  end.

Definition Lit (p : list (char -> bool)) : regex := Seqs (map Chr p).

Definition Exact (s : string) : regex := Lit (map char_eqb (lit s)).
Definition ExactCI (s : string) : regex := Lit (map ci_char (lit s)).

(** A position of the matcher: the character just before it, if any, and the
    text that remains. *)
Definition posn := (option char * str)%type.

Definition word_opt (c : option char) : bool :=
  match c with Some x => is_word x | None => false end.

Definition at_boundary (p : posn) : bool :=
  xorb (word_opt (fst p)) (word_opt (hd_error (snd p))).

Definition at_end (p : posn) : bool :=
  match snd p with
  | [] => true
  | [c] => char_eqb c 10%N
  | _ => false
  end.

(** The greedy loop of [a*]: [step] runs the body once; an iteration must
    consume text for the loop to go on, so that [n], the length of the text
    left when the loop is entered, bounds the number of iterations. *)
Fixpoint star_loop (step : posn -> list posn) (n : nat) (p : posn)
  : list posn :=
  match n with
  | O => [p]
  | S n' =>
      flat_map
        (fun q =>
           if Nat.ltb (length (snd q)) (length (snd p))
           then star_loop step n' q else [])
        (step p) ++ [p]
  end.

(** [run r p]: the positions at which a match of [r] started at [p] can end,
    in the order the backtracking matcher reaches them. *)
Fixpoint run (r : regex) (p : posn) : list posn :=
  match r with
  | Chr f =>
      match snd p with
      | c :: t => if f c then [(Some c, t)] else []
      | [] => []
      end
  | Eps => [p]
  | Seq a b => flat_map (run b) (run a p)
  | Alt a b => run a p ++ run b p
  | Opt a => run a p ++ [p]
  | Star a => star_loop (run a) (length (snd p)) p
  | WordB => if at_boundary p then [p] else []
  | Bol => match fst p with None => [p] | Some _ => [] end
  | Eol => if at_end p then [p] else []
  end.

(** The text matched between a position and a later one. *)
Definition consumed (s rest : str) : str :=
  firstn (length s - length rest) s.

(** [re.match]: the first way to match at the start of the string. *)
Definition re_match (r : regex) (s : str) : option str :=
  match run r (None, s) with
  | (_, rest) :: _ => Some (consumed s rest)
  | [] => None
  end.

(** [re.fullmatch]: the first way to match that uses the whole string. *)
Definition re_fullmatch (r : regex) (s : str) : option str :=
  match find (fun q => is_empty (snd q)) (run r (None, s)) with
  | Some _ => Some s
  | None => None
  end.

(** [re.search]: the leftmost start at which the pattern matches, returned as
    the text before the match, the match and the text after it
    ([s[:m.start()]], [m.group()], [s[m.end():]]). *)
Fixpoint search_from (r : regex) (prev : option char) (before : str) (s : str)
  : option (str * str * str) :=
  match run r (prev, s) with
  | (_, rest) :: _ => Some (rev before, consumed s rest, rest)
  | [] =>
      match s with
      | [] => None
      | c :: t => search_from r (Some c) (c :: before) t
      end
  end.

Definition re_search (r : regex) (s : str) : option (str * str * str) :=
  search_from r None [] s.

(** [re.sub] and [re.findall], for patterns that cannot match the empty
    string (all the patterns the program substitutes or collects are such):
    scan from the left; at a match emit the replacement, computed from the
    matched text, and resume after it; elsewhere keep the character.
    [skip] counts the characters of the current match still to pass. *)
Fixpoint sub_from (r : regex) (repl : str -> str) (skip : nat)
  (prev : option char) (s : str) : str :=
  match s with
  | [] => []
  | c :: t =>
      match skip with
      | S k => sub_from r repl k (Some c) t
      | O =>
          match run r (prev, s) with
          | (_, rest) :: _ =>
              match length s - length rest with
              | S k => repl (consumed s rest) ++ sub_from r repl k (Some c) t
              | O => c :: sub_from r repl 0 (Some c) t
              end
          | [] => c :: sub_from r repl 0 (Some c) t
          end
      end
  end.

Definition re_sub_with (r : regex) (repl : str -> str) (s : str) : str :=
  sub_from r repl 0 None s.

Definition re_sub (r : regex) (repl : str) (s : str) : str :=
  re_sub_with r (fun _ => repl) s.

Fixpoint findall_from (r : regex) (skip : nat) (prev : option char) (s : str)
  : list str :=
  match s with
  | [] => []
  | c :: t =>
      match skip with
      | S k => findall_from r k (Some c) t
      | O =>
          match run r (prev, s) with
          | (_, rest) :: _ =>
              match length s - length rest with
              | S k => consumed s rest :: findall_from r k (Some c) t
              | O => findall_from r 0 (Some c) t
              end
          | [] => findall_from r 0 (Some c) t
          end
      end
  end.

Definition re_findall (r : regex) (s : str) : list str :=
  findall_from r 0 None s.

(** ** String methods *)

(** [s.replace(old, new)] for a non-empty [old]: the non-overlapping
    occurrences of [old], from the left. *)
Fixpoint starts_with (old s : str) : bool :=
  match old, s with
  | [], _ => true
  | x :: old', y :: s' => char_eqb x y && starts_with old' s'
  | _ :: _, [] => false
  end.

Fixpoint replace_from (old new : str) (skip : nat) (s : str) : str :=
  match s with
  | [] => []
  | c :: t =>
      match skip with
      | S k => replace_from old new k t
      | O =>
          if starts_with old s
          then match length old with
               | S k => new ++ replace_from old new k t
               | O => c :: replace_from old new 0 t
               end
          else c :: replace_from old new 0 t
      end
  end.

Definition str_replace (old new : str) (s : str) : str :=
  replace_from old new 0 s.

(** [s.strip()], [s.rstrip(chars)] and [s.split("\n")]. *)
Fixpoint lstrip_by (f : char -> bool) (s : str) : str :=
  match s with
  | c :: t => if f c then lstrip_by f t else s
  | [] => []
  end.

Fixpoint rstrip_by (f : char -> bool) (s : str) : str :=
  match s with
  | [] => []
  | c :: t =>
      match rstrip_by f t with
      | [] => if f c then [] else [c]
      | t' => c :: t'
      end
  end.

Definition py_strip (s : str) : str :=
  rstrip_by is_space (lstrip_by is_space s).

Definition newline : char := 10%N.

Fixpoint split_lines (s : str) : list str :=
  match s with
  | [] => [[]]
  | c :: t =>
      if char_eqb c newline then [] :: split_lines t
      else match split_lines t with
           | l :: ls => (c :: l) :: ls
           | [] => [[c]]
           end
  end.

Definition join_lines (ls : list str) : str :=
  match ls with
  | [] => []
  | l :: ls' => l ++ flat_map (fun x => newline :: x) ls'
  end.


(** ** The OCR text cleaner: [clean_ocr_text] *)

(** The [replacements] dictionary, in its insertion order. *)
Definition replacements : list (str * str) :=
  [ ([lig_fi], lit "fi");
    ([lig_fl], lit "fl");
    (lit "..", lit ".");
    (lit "cm", lit "cm");
    (lit "em", lit "cm");
    (lit "m'", lit "m");
    (lit "m" ++ [dquote], lit "m");
    (lit "L =", lit "L=");
    (lit "L= ", lit "L=");
    (lit " ,", lit ",");
    (lit " '", lit "'") ].

(** [for wrong, right in replacements.items(): text = text.replace(wrong, right)] *)
Definition apply_replacements (text : str) : str :=
  fold_left (fun t wr => str_replace (fst wr) (snd wr) t) replacements text.

(** The class of noise characters stripped by the second step: the bar, the
    exclamation mark, the double quote, the apostrophe, the semicolon, the
    tilde and the underscore. *)
Definition noise_chars : str := lit "|!" ++ [dquote] ++ lit "';~_".
Definition noise_pattern : regex := Chr (one_of noise_chars).

(** [\s+] *)
Definition spaces_pattern : regex := Plus (Chr is_space).

Definition clean_ocr_text (text : str) : str :=
  let text := apply_replacements text in
  let text := re_sub noise_pattern [] text in
  py_strip (re_sub spaces_pattern (lit " ") text).

(** ** The page extractor: [extract_all_codes] *)

(** The class of U+2019 and the apostrophe, and [\r]: the patterns of the
    two substitutions that open [extract_all_codes]. *)
Definition quote_pattern : regex := Chr (one_of [rsquo; chr "'"]).
Definition cr_pattern : regex := Chr (char_eqb 13%N).

Definition digit : regex := Chr is_digit.
Definition spaces0 : regex := Star (Chr is_space).

(** The material code pattern, compiled with [re.VERBOSE | re.IGNORECASE]:
    [\d+ Rfi (?: \d+ (?:/\d+)* )? (?:cm)? [,]? L= \d+ \.? \d* m ['']?]
    (format 1, white space being insignificant in a verbose pattern) or
    [\d+Rfi\d+/\d+cm] (format 2). *)
Definition format1 : regex :=
  Seqs [ Plus digit; ExactCI "Rfi";
         Opt (Seq (Plus digit) (Star (Seq (Exact "/") (Plus digit))));
         Opt (ExactCI "cm"); Opt (Exact ","); ExactCI "L="; Plus digit;
         Opt (Exact "."); Star digit; ExactCI "m";
         Opt (Chr (one_of (lit "''"))) ].

Definition format2 : regex :=
  Seqs [ Plus digit; ExactCI "Rfi"; Plus digit; Exact "/"; Plus digit;
         ExactCI "cm" ].

Definition material_pattern : regex := Alt format1 format2.

(** The strict circle code pattern [([A-Z]{1,2}\d{1,2}[a-z]?|\d{1,3})],
    compiled without flags. *)
Definition strict_circle_pattern : regex :=
  Alt (Seq (Rep12 (Chr (between "A" "Z")))
        (Seq (Rep12 digit) (Opt (Chr (between "a" "z")))))
      (Rep13 digit).

(** The four substitutions and the [rstrip("'")] applied to a matched
    material code. *)
Definition comma_L_pattern : regex :=
  Seqs [ spaces0; Exact ","; spaces0; Exact "L"; spaces0; Exact "="; spaces0 ].
Definition slash_pattern : regex := Seqs [ spaces0; Exact "/"; spaces0 ].
Definition cm_pattern : regex := Seqs [ spaces0; Exact "cm"; spaces0 ].
Definition rfi_pattern : regex := Seqs [ spaces0; Exact "Rfi"; spaces0 ].

Definition canonical (material_code : str) : str :=
  let clean_material := re_sub comma_L_pattern (lit ",L=") material_code in
  let clean_material := re_sub slash_pattern (lit "/") clean_material in
  let clean_material := re_sub cm_pattern (lit "cm") clean_material in
  let clean_material := re_sub rfi_pattern (lit "Rfi") clean_material in
  rstrip_by (char_eqb (chr "'")) clean_material.

(** A result row: the dictionary with keys ["Circle Code"], ["Material Code"]
    and ["Page"]; an empty circle code stands for an absent one. *)
Record record : Type := mkRecord {
  circle_code : str;
  material_code : str;
  page : str
}.

(** A [defaultdict(int)]: the keys in insertion order with their counts.
    [add_count k n c] is [c[k] += n]. *)
Definition counts := list (str * nat).

Fixpoint add_count (k : str) (n : nat) (c : counts) : counts :=
  match c with
  | [] => [(k, n)]
  | (k', m) :: c' =>
      if str_eqb k' k then (k', m + n) :: c' else (k', m) :: add_count k n c'
  end.

Fixpoint get_count (k : str) (c : counts) : nat :=
  match c with
  | [] => 0
  | (k', m) :: c' => if str_eqb k' k then m else get_count k c'
  end.

(** [sum(counts.values())] *)
Definition total (c : counts) : nat :=
  fold_right (fun kv acc => snd kv + acc) 0 c.

Definition result := (list record * counts)%type.

(** The inner [while j < len(lines)] loop over the lines that follow a
    material code: the value of [found_code] when it ends. *)
Fixpoint lookahead (following : list str) : option str :=
  match following with
  | [] => None
  | l :: following' =>
      let next_line := py_strip l in
      if is_empty next_line then lookahead following'
      else re_fullmatch strict_circle_pattern next_line
  end.

(** Appending a row and counting its circle code. *)
Definition emit (circle material pg : str) (acc : result) : result :=
  (fst acc ++ [mkRecord circle material pg], add_count circle 1 (snd acc)).

Definition emit_blank (material pg : str) (acc : result) : result :=
  (fst acc ++ [mkRecord [] material pg], snd acc).

(** The body of the outer [while i < len(lines)] loop for the line [l]
    followed by the lines [following].  Both alternatives of the material
    pattern are groups that span the whole match, so
    [mat_match.group(1) or mat_match.group(2)] is the matched text, and so is
    [group(1)] of the circle pattern. *)
Definition step_line (pg : str) (l : str) (following : list str)
  (acc : result) : result :=
  let line := py_strip l in
  if is_empty line then acc
  else
    match re_search material_pattern line with
    | Some (_, material, right_text) =>
        let clean_material := canonical material in
        match re_search strict_circle_pattern right_text with
        | Some (_, circle, _) => emit circle clean_material pg acc
        | None =>
            match lookahead following with
            | Some (c :: found) => emit (c :: found) clean_material pg acc
            | _ => emit_blank clean_material pg acc
            end
        end
    | None => acc
    end.

Fixpoint scan_lines (pg : str) (lines : list str) (acc : result) : result :=
  match lines with
  | [] => acc
  | l :: following => scan_lines pg following (step_line pg l following acc)
  end.

(** [target_circle_codes] is accepted and never read. *)
Definition extract_all_codes (text : str) (target_circle_codes : list str)
  (current_page : str) : result :=
  let text := re_sub quote_pattern (lit "'") text in
  let text := re_sub cr_pattern [] text in
  scan_lines current_page (split_lines text) ([], []).

(** The normalisation a page text has gone through when the OCR path scans
    its lines: [clean_ocr_text], then the quote and carriage return
    substitutions that open [extract_all_codes]. *)
Definition normalize (text : str) : str :=
  re_sub cr_pattern [] (re_sub quote_pattern (lit "'") (clean_ocr_text text)).

(** The same steps in the order the specification lists them: quotes and
    carriage returns first, then the table, the noise and the white space. *)
Definition normalize_listed (text : str) : str :=
  clean_ocr_text (re_sub cr_pattern [] (re_sub quote_pattern (lit "'") text)).

(** ** The strict validator: [validate_material_code], [clean_material_code] *)

(** [^\d+ Rfi \d+ /\d+cm ,L=\d+\.?\d*m$], verbose and ignoring case. *)
Definition validate_pattern : regex :=
  Seqs [ Bol; Plus digit; ExactCI "Rfi"; Plus digit; Exact "/"; Plus digit;
         ExactCI "cm"; Exact ","; ExactCI "L="; Plus digit; Opt (Exact ".");
         Star digit; ExactCI "m"; Eol ].

Definition validate_material_code (material_code : str) : bool :=
  match re_match validate_pattern material_code with
  | Some _ => true
  | None => false
  end.

(** [(?i)rfi?], [,\s*L\s*=], [([.,])(\d*m)] and
    [(?i)(\d+rfi\d+(?:/\d+)* ),]. *)
Definition rfi_loose_pattern : regex :=
  Seqs [ Chr (ci "r"); Chr (ci "f"); Opt (Chr (ci "i")) ].
Definition comma_L_eq_pattern : regex :=
  Seqs [ Exact ","; spaces0; Exact "L"; spaces0; Exact "=" ].
Definition point_length_pattern : regex :=
  Seqs [ Chr (one_of (lit ".,")); Star digit; Exact "m" ].
Definition missing_cm_pattern : regex :=
  Seqs [ Plus digit; ExactCI "rfi"; Plus digit;
         Star (Seq (Exact "/") (Plus digit)); Exact "," ].

(** ["cm" in clean.lower()]: the characters whose lower case contains [c] are
    [c] and [C], and likewise for [m], so this is the search of the literal
    ignoring case. *)
Definition has_cm (clean : str) : bool :=
  match re_search (ExactCI "cm") clean with
  | Some _ => true
  | None => false
  end.

Definition clean_material_code (material_code : str) : option str :=
  let clean := re_sub spaces_pattern [] material_code in
  let clean := re_sub rfi_loose_pattern (lit "Rfi") clean in
  let clean := re_sub comma_L_eq_pattern (lit ",L=") clean in
  (* the replacement [.\2]: a point, then the match without its first character *)
  let clean := re_sub_with point_length_pattern (fun m => lit "." ++ tl m) clean in
  let clean :=
    if has_cm clean then clean
    else (* [\1cm,]: the match without its final comma, then [cm,] *)
      re_sub_with missing_cm_pattern (fun m => removelast m ++ lit "cm,") clean in
  if validate_material_code clean then Some clean else None.

(** ** The document drivers and their collaborators *)

(** What the collaborators answer for one document.  [native_text] is the
    text layer read through [fitz]: [None] when opening the document raises,
    otherwise one entry per page, [None] where [get_text] raises.
    [ocr_text] is the OCR pipeline: [None] when [convert_from_path] raises,
    otherwise one entry per rendered page, [None] where
    [pytesseract.image_to_string] raises. *)
Record document : Type := mkDocument {
  native_text : option (list (option str));
  ocr_text : option (list (option str))
}.

(** Calls to the collaborators, in the order they are made. *)
Inductive event : Type :=
| OpenNative
| GetText (page_index : nat)
| Render (dpi : nat)
| Ocr (page_number : nat).

(** A computation that logs collaborator calls and either returns a value or
    raises. *)
Definition M (A : Type) : Type := (list event * option A)%type.

Definition ret {A} (a : A) : M A := ([], Some a).
Definition call {A} (e : event) (answer : option A) : M A := ([e], answer).

Definition bind {A B} (m : M A) (f : A -> M B) : M B :=
  match m with
  | (tr, Some a) => let (tr', b) := f a in (tr ++ tr', b)
  | (tr, None) => (tr, None)
  end.

(** [try: m except Exception: handler] *)
Definition try_except {A} (m : M A) (handler : M A) : M A :=
  match m with
  | (tr, Some a) => (tr, Some a)
  | (tr, None) => let (tr', b) := handler in (tr ++ tr', b)
  end.

Declare Scope m_scope.
Delimit Scope m_scope with M.
Notation "x <- m ;; f" := (bind m (fun x => f))
  (at level 61, m at next level, right associativity) : m_scope.
Local Open Scope m_scope.

(** [str(n)] for a page number. *)
Definition str_of_nat (n : nat) : str :=
  lit (DecimalString.NilEmpty.string_of_uint (Nat.to_uint n)).

(** [for code, count in page_counts.items(): counts[code] += count] *)
Definition merge_counts (c page_counts : counts) : counts :=
  fold_left (fun acc kv => add_count (fst kv) (snd kv) acc) page_counts c.

(** [results.extend(page_results)] followed by the loop above. *)
Definition accumulate (acc page : result) : result :=
  (fst acc ++ fst page, merge_counts (snd acc) (snd page)).

Definition empty_result : result := ([], []).

(** *** [extract_all_codes_from_pdf] *)

(** [[page.get_text() for page in doc]] *)
Fixpoint get_texts (i : nat) (pages : list (option str)) : M (list str) :=
  match pages with
  | [] => ret []
  | p :: pages' =>
      t <- call (GetText i) p ;;
      ts <- get_texts (S i) pages' ;;
      ret (t :: ts)
  end.

(** [\b([A-Za-z0-9]{1,5})\b] and [^[A-Za-z0-9]{1,5}$], ignoring case. *)
Definition generic_circle_pattern : regex :=
  Seqs [ WordB; Rep15 (Chr alnum_ci); WordB ].
Definition generic_code_pattern : regex :=
  Seqs [ Bol; Rep15 (Chr alnum_ci); Eol ].

(** [code.upper()] on the characters a found code is made of. *)
Definition upper_char (c : char) : char :=
  if between "a" "z" c then (c - 32)%N
  else if char_eqb c 305%N then chr "I"
  else if char_eqb c 383%N then chr "S"
  else c.

Fixpoint dedup (l : list str) : list str :=
  match l with
  | [] => []
  | x :: l' => if existsb (str_eqb x) l' then dedup l' else x :: dedup l'
  end.

(** The first pass: the set of generic circle codes of the whole text. *)
Definition collect_circle_codes (all_text : str) : list str :=
  let found := dedup (re_findall generic_circle_pattern all_text) in
  dedup
    (map (map upper_char)
       (filter
          (fun code =>
             match re_match generic_code_pattern code with
             | Some _ => negb (str_eqb code (lit "0"))
             | None => false
             end) found)).

(** What the two loops of [extract_all_codes_from_pdf] do with the text of
    page [page_num]: the native loop hands it to the page extractor, the OCR
    loop cleans it first. *)
Definition native_page (text : str) (page_num : nat) : result :=
  extract_all_codes text [] (str_of_nat page_num).

Definition ocr_page (text : str) (page_num : nat) : result :=
  let text := clean_ocr_text text in
  extract_all_codes text [] (str_of_nat page_num).

(** The second pass, [for page_num, page in enumerate(doc, 1)]. *)
Fixpoint native_pages (page_num : nat) (pages : list (option str))
  (acc : result) : M result :=
  match pages with
  | [] => ret acc
  | p :: pages' =>
      text <- call (GetText (page_num - 1)) p ;;
      native_pages (S page_num) pages'
        (accumulate acc (native_page text page_num))
  end.

(** The body of the [try] block: [Some res] when it returns [res], [None]
    when it runs to its end without returning. *)
Definition native_attempt (d : document) : M (option result) :=
  pages <- call OpenNative (native_text d) ;;
  texts <- get_texts 0 pages ;;
  let all_text := join_lines texts in
  let circle_codes := collect_circle_codes all_text in
  match circle_codes with
  | [] => ret (Some empty_result)
  | _ :: _ =>
      res <- native_pages 1 pages empty_result ;;
      match fst res with
      | _ :: _ => ret (Some res)
      | [] => ret None
      end
  end.

(** The OCR fallback of [extract_all_codes_from_pdf]: every page text goes
    through [clean_ocr_text] before the page extractor. *)
Fixpoint ocr_pages (page_num : nat) (images : list (option str))
  (acc : result) : M result :=
  match images with
  | [] => ret acc
  | img :: images' =>
      text <- call (Ocr page_num) img ;;
      ocr_pages (S page_num) images' (accumulate acc (ocr_page text page_num))
  end.

Definition ocr_fallback (d : document) : M result :=
  pages <- call (Render 500) (ocr_text d) ;;
  ocr_pages 1 pages empty_result.

Definition extract_all_codes_from_pdf (d : document) : M result :=
  r <- try_except (native_attempt d) (ret None) ;;
  match r with
  | Some res => ret res
  | None => ocr_fallback d
  end.

(** *** [extract_materials] *)

(** The native loop of [extract_materials]: [results] and [counts] are
    updated in place, so what was accumulated before a failure is kept when
    the exception is caught.  The loop returns the calls made and the state
    it leaves. *)
Fixpoint materials_native_pages (page_num : nat) (pages : list (option str))
  (target : list str) (acc : result) : list event * result :=
  match pages with
  | [] => ([], acc)
  | None :: _ => ([GetText page_num], acc)
  | Some text :: pages' =>
      let (tr, res) :=
        materials_native_pages (S page_num) pages' target
          (accumulate acc
             (extract_all_codes text target (str_of_nat (page_num + 1)))) in
      (GetText page_num :: tr, res)
  end.

Definition materials_native (d : document) (target : list str)
  : list event * result :=
  match native_text d with
  | None => ([OpenNative], empty_result)
  | Some pages =>
      let (tr, res) := materials_native_pages 0 pages target empty_result in
      (OpenNative :: tr, res)
  end.

Fixpoint materials_ocr_pages (page_num : nat) (images : list (option str))
  (target : list str) (acc : result) : M result :=
  match images with
  | [] => ret acc
  | img :: images' =>
      text <- call (Ocr page_num) img ;;
      materials_ocr_pages (S page_num) images' target
        (accumulate acc (extract_all_codes text target (str_of_nat page_num)))
  end.

Definition extract_materials (d : document) (target : list str) : M result :=
  let (tr, acc) := materials_native d target in
  match fst acc with
  | _ :: _ => (tr, Some acc)
  | [] =>
      let (tr', r) :=
        (pages <- call (Render 300) (ocr_text d) ;;
         materials_ocr_pages 1 pages target acc) in
      (tr ++ tr', r)
  end.

(** ** The remaining text functions *)

(** *** [extract_all_materials] *)

(** Every match of the material pattern in the whole text, canonicalised and
    collected in a set.  [m.group(1) or m.group(2)] is the matched text, which
    is never empty.  The order in which a Python set lists its elements is
    not specified: the list below stands for the set, without duplicates. *)
Definition extract_all_materials (text : str) : list str :=
  dedup (map canonical (re_findall material_pattern text)).

(** *** [preprocess_text] *)

(** [(\d+Rfi[^\n]* )-\s*\n\s*(\d)], compiled without flags. *)
Definition hyphen : char := 45%N.
Definition not_newline (c : char) : bool := negb (char_eqb c newline).

Definition hyphen_break_pattern : regex :=
  Seqs [ Plus digit; Exact "Rfi"; Star (Chr not_newline); Exact "-"; spaces0;
         Chr (char_eqb newline); spaces0; digit ].

Fixpoint take_while (f : char -> bool) (s : str) : str :=
  match s with
  | c :: t => if f c then c :: take_while f t else []
  | [] => []
  end.

(** The replacement [\1\2] of a match [m]: the second group is the last
    character of [m]; the first group has no newline and is followed by the
    hyphen, white space and a newline, so it is what precedes the last hyphen
    before the first newline of [m]. *)
Definition join_hyphen_break (m : str) : str :=
  let first_line := take_while not_newline m in
  let group1 :=
    rev (tl (lstrip_by (fun c => negb (char_eqb c hyphen)) (rev first_line))) in
  let group2 := match rev m with c :: _ => [c] | [] => [] end in
  group1 ++ group2.

Definition preprocess_text (text : str) : str :=
  let text := re_sub_with hyphen_break_pattern join_hyphen_break text in
  let text := re_sub comma_L_pattern (lit ",L=") text in
  let text := re_sub slash_pattern (lit "/") text in
  re_sub cm_pattern (lit "cm") text.

(** ** The views of the results *)

(** *** [process_all_codes] *)

(** [filtered_results] and [filtered_counts] of [process_all_codes]: the rows
    with a circle code, and their count per code, rebuilt row by row. *)
Definition with_circle_code (results : list record) : list record :=
  filter (fun item => negb (is_empty (circle_code item))) results.

Definition count_rows (rows : list record) : counts :=
  fold_left (fun c item => add_count (circle_code item) 1 c) rows [].

Definition process_all_codes_view (results : list record) : result :=
  let filtered_results := with_circle_code results in
  (filtered_results, count_rows filtered_results).

(** *** [process_pdf] *)

(** [in] on strings, [s.split(sep)] and [s.split(sep, 1)] for a non-empty
    separator. *)
Fixpoint contains (sub s : str) : bool :=
  starts_with sub s
  || match s with
     | [] => false
     | _ :: t => contains sub t
     end.

(** The text before the first occurrence of [sep] and the text after it. *)
Fixpoint find_sub (sep s : str) : option (str * str) :=
  if starts_with sep s then Some ([], skipn (length sep) s)
  else match s with
       | [] => None
       | c :: t =>
           match find_sub sep t with
           | Some (a, b) => Some (c :: a, b)
           | None => None
           end
       end.

Fixpoint split_upto (n : nat) (sep s : str) : list str :=
  match n with
  | O => [s]
  | S n' =>
      match find_sub sep s with
      | Some (a, b) => a :: split_upto n' sep b
      | None => [s]
      end
  end.

(** A text of length [n] has at most [n] occurrences of the separator. *)
Definition py_split (sep s : str) : list str := split_upto (length s) sep s.
Definition py_split1 (sep s : str) : list str := split_upto 1 sep s.

(** [[code.strip() for code in circle_codes_input.split(",") if code.strip()]]
    on the stripped entry. *)
Definition parse_circle_codes (entry : str) : list str :=
  let circle_codes_input := py_strip entry in
  map py_strip
    (filter (fun code => negb (is_empty (py_strip code)))
       (py_split (lit ",") circle_codes_input)).

Section Filtering.

(** [str.upper], whose case table is not part of the program. *)
Variable py_upper : str -> str.

Definition upper_codes (circle_codes : list str) : list str :=
  map py_upper circle_codes.

(** [filtered_results] of [process_pdf]. *)
Definition filter_results (all_results : list record)
  (circle_codes_upper : list str) : list record :=
  filter
    (fun item =>
       negb (is_empty (circle_code item))
       && existsb (str_eqb (py_upper (circle_code item))) circle_codes_upper)
    all_results.

(** [sum(1 for item in filtered_results if item['Circle Code'].upper() == code_upper)] *)
Definition count_for (filtered_results : list record) (code_upper : str) : nat :=
  length
    (filter (fun item => str_eqb (py_upper (circle_code item)) code_upper)
       filtered_results).

End Filtering.

(** *** [process_all_materials] and [save_results] *)

(** The line shown for a row: the circle code and a colon when there is a
    code, the material code, the page. *)
Definition format_row (item : record) : str :=
  let code_display :=
    if is_empty (circle_code item) then [] else circle_code item ++ lit ": " in
  code_display ++ material_code item ++ lit " (Page " ++ page item ++ lit ")".

(** What [process_all_materials] writes in the results box when there are
    rows. *)
Definition display_all_materials (results : list record) : str :=
  lit "ALL MATERIALS (WITH OR WITHOUT CIRCLE CODES):" ++ [newline; newline]
  ++ repeat hyphen 50 ++ [newline]
  ++ flat_map (fun item => format_row item ++ [newline]) results
  ++ [newline] ++ repeat (chr "=") 50 ++ [newline]
  ++ lit "TOTAL MATERIALS FOUND: " ++ str_of_nat (length results) ++ [newline].

(** The body of the loop of [save_results] over the lines of the box: the row
    read from a line, if any. *)
Definition parse_line (line : str) : option record :=
  if contains (lit ": ") line && contains (lit "Page") line then
    let parts := py_split1 (lit ": ") line in
    let circle_code := py_strip (nth 0 parts []) in
    let rest := py_split (lit "(Page ") (nth 1 parts []) in
    let material_code := py_strip (nth 0 rest []) in
    let page :=
      if Nat.ltb 1 (length rest)
      then py_strip (str_replace (lit ")") [] (nth 1 rest []))
      else [] in
    let circle_code :=
      if is_empty circle_code || str_eqb circle_code (lit "-")
      then [] else circle_code in
    Some (mkRecord circle_code material_code page)
  else if contains (lit "(Page") line && negb (contains (lit ":") line) then
    let material_code := py_strip (nth 0 (py_split (lit "(Page") line) []) in
    let page :=
      if contains (lit "(Page") line
      then py_strip
             (str_replace (lit ")") [] (nth 1 (py_split (lit "(Page") line) []))
      else [] in
    Some (mkRecord [] material_code page)
  else None.

(** The rows [save_results] reads back from the content of the box. *)
Definition saved_rows (content : str) : list record :=
  flat_map
    (fun line => match parse_line line with Some r => [r] | None => [] end)
    (split_lines content).

(** ** Sample inputs *)

(** A scanned document: a text layer with one empty page, and the OCR text
    of the page image. *)
Definition scanned_document : document :=
  mkDocument (Some [Some []]) (Some [Some (lit "5Rfi12/8cm,L=3.5m' T1")]).

(** A document with a text layer of two pages. *)
Definition text_document : document :=
  mkDocument
    (Some [Some (lit "Section 12");
           Some (lit "5Rfi12/8cm,L=3.5m'" ++ [newline] ++ lit " UT7a ")])
    (Some [Some (lit "Section 12"); Some (lit "5Rfi12/8cm,L=3.5m' UT7a")]).

(** Two material codes on consecutive lines. *)
Definition two_lines : str :=
  lit "1Rfi2/3cm" ++ [newline] ++ lit "4Rfi5/6cm".

(** * The vocabulary of the properties *)

(** ** Languages *)

(** A language is a set of texts; the operations below build the language of
    a pattern from those of its parts. *)
Definition lang := str -> Prop.

Definition one (f : char -> bool) : lang :=
  fun s => exists c, s = [c] /\ f c = true.
Definition nothing : lang := fun s => s = [].
Definition cat (A B : lang) : lang :=
  fun s => exists x y, s = x ++ y /\ A x /\ B y.
Definition alt (A B : lang) : lang := fun s => A s \/ B s.
Definition opt (A : lang) : lang := fun s => s = [] \/ A s.

Inductive many (A : lang) : lang :=
| many_nil : many A []
| many_cons x y : A x -> many A y -> many A (x ++ y).

Fixpoint cats (l : list lang) : lang :=
  match l with
  | [] => nothing
  | A :: l' => cat A (cats l')
  end.

Definition lang_equiv (A B : lang) : Prop := forall s, A s <-> B s.

(** The texts a pattern can match, the assertions [\b], [^] and [$] being
    read as the empty text whatever surrounds it. *)
Fixpoint den (r : regex) : lang :=
  match r with
  | Chr f => one f
  | Eps => nothing
  | Seq a b => cat (den a) (den b)
  | Alt a b => alt (den a) (den b)
  | Opt a => opt (den a)
  | Star a => many (den a)
  | WordB | Bol | Eol => nothing
  end.

(** Patterns without assertions, for which [den] is exact. *)
Fixpoint plain (r : regex) : bool :=
  match r with
  | Chr _ | Eps => true
  | Seq a b | Alt a b => plain a && plain b
  | Opt a | Star a => plain a
  | WordB | Bol | Eol => false
  end.

(** Patterns that may match the empty text. *)
Fixpoint nullable (r : regex) : bool :=
  match r with
  | Chr _ => false
  | Seq a b => nullable a && nullable b
  | Alt a b => nullable a || nullable b
  | Eps | Opt _ | Star _ | WordB | Bol | Eol => true
  end.

(** Every character class of the pattern lies within [P]. *)
Fixpoint classes (P : char -> Prop) (r : regex) : Prop :=
  match r with
  | Chr f => forall c, f c = true -> P c
  | Seq a b | Alt a b => classes P a /\ classes P b
  | Opt a | Star a => classes P a
  | Eps | WordB | Bol | Eol => True
  end.

(** The character before the position reached after the text [a]. *)
Definition prev_of (prev : option char) (a : str) : option char :=
  fold_left (fun _ c => Some c) a prev.

(** ** Grammars *)

(** The building blocks the grammars are written with: integers, digit
    runs, keywords read without regard to case, and exact symbols. *)
Definition digit_char (c : char) : Prop := is_digit c = true.
Definition int_ : lang := fun s => s <> [] /\ Forall digit_char s.
Definition digits : lang := fun s => Forall digit_char s.
Definition word (w : string) : lang :=
  fun s => Forall2 (fun l c => ci_char l c = true) (lit w) s.
Definition sym (w : string) : lang := fun s => s = lit w.

(** The material code grammar of the specification.  Form A: integer, [Rfi],
    optionally an integer with any number of [/integer], optionally [cm],
    optionally a comma, [L=], a number (an integer, an optional point,
    optional fraction digits), [m], optionally an apostrophe.  Form B:
    integer, [Rfi], integer, a slash, integer, [cm].  Keywords in any case. *)
Definition FormA_head : list lang :=
  [ int_; word "Rfi"; opt (cat int_ (many (cat (sym "/") int_)));
    opt (word "cm"); opt (sym ","); word "L="; int_; opt (sym ".");
    digits ].

Definition FormA : lang := cats (FormA_head ++ [ word "m"; opt (sym "'") ]).

Definition FormB_head : list lang :=
  [ int_; word "Rfi"; int_; sym "/"; int_ ].

Definition FormB : lang := cats (FormB_head ++ [ word "cm" ]).

(** What the validator accepts, as a grammar: integer, [Rfi], integer, a
    slash, integer, [cm], a comma, [L=], an integer, an optional point,
    optional further digits, [m]; keywords in any case. *)
Definition validated_form : lang :=
  cats [ int_; word "Rfi"; int_; sym "/"; int_; word "cm"; sym ",";
         word "L="; int_; opt (sym "."); digits; word "m" ].

(** The validator's pattern between its two anchors. *)
Definition validate_core : list regex :=
  [ Plus digit; ExactCI "Rfi"; Plus digit; Exact "/"; Plus digit;
    ExactCI "cm"; Exact ","; ExactCI "L="; Plus digit; Opt (Exact ".");
    Star digit; ExactCI "m" ].

(** The pattern the specification gives for the validator,
    [^\d+Rfi\d+/\d+cm,L=\d+(\.\d+)?m$], read as it is written and read
    without regard to case. *)
Definition specified_pattern : regex :=
  Seqs [ Bol; Plus digit; Exact "Rfi"; Plus digit; Exact "/"; Plus digit;
         Exact "cm"; Exact ",L="; Plus digit;
         Opt (Seq (Exact ".") (Plus digit)); Exact "m"; Eol ].

Definition specified_pattern_ci : regex :=
  Seqs [ Bol; Plus digit; ExactCI "Rfi"; Plus digit; Exact "/"; Plus digit;
         ExactCI "cm"; ExactCI ",L="; Plus digit;
         Opt (Seq (Exact ".") (Plus digit)); ExactCI "m"; Eol ].

(** ** Rows and count tables *)

(** The rows that carry a circle code, and those that carry the code [k]. *)
Definition present (r : record) : bool := negb (is_empty (circle_code r)).
Definition count_present (rs : list record) : nat :=
  length (filter present rs).
Definition count_code (k : str) (rs : list record) : nat :=
  length (filter (fun r => str_eqb (circle_code r) k) rs).

Definition keys (c : counts) : list str := map fst c.

(** A count table is consistent with the rows it was built with when its
    counts add up to the number of rows with a circle code, each code's count
    is the number of rows that carry it, and the empty code is no key. *)
Record consistent (res : result) : Prop := mkConsistent {
  cons_total : total (snd res) = count_present (fst res);
  cons_code : forall k, k <> [] ->
      get_count k (snd res) = count_code k (fst res);
  cons_blank : ~ In [] (keys (snd res));
  cons_keys : NoDup (keys (snd res))
}.

(** ** Lines *)

(** A blank line is one that [strip()] empties. *)
Definition blank (l : str) : Prop := py_strip l = [].

(** The lines the page extractor scans. *)
Definition page_lines (text : str) : list str :=
  split_lines (re_sub cr_pattern [] (re_sub quote_pattern (lit "'") text)).

(** A row comes from a line when its material code is the canonical form of
    a part of the trimmed line that the material pattern matches. *)
Definition from_line (lines : list str) (r : record) : Prop :=
  exists l pre raw post,
    In l lines /\ py_strip l = pre ++ raw ++ post /\
    den material_pattern raw /\ material_code r = canonical raw.

(** A row is grammatical when its material code is a Form A or Form B text
    without white space and without a trailing apostrophe. *)
Definition not_space (c : char) : Prop := is_space c = false.
Definition apostrophe (c : char) : bool := char_eqb (chr "'") c.

Definition grammatical (r : record) : Prop :=
  (FormA (material_code r) \/ FormB (material_code r)) /\
  Forall not_space (material_code r) /\
  rstrip_by apostrophe (material_code r) = material_code r.

(** ** White space and quotes *)

(** The code points of a range table. *)
Definition points (tbl : list (N * N)) : list char :=
  flat_map
    (fun r =>
       map N.of_nat
         (seq (N.to_nat (fst r)) (S (N.to_nat (snd r) - N.to_nat (fst r)))))
    tbl.

(** White space in a text is in order when every white space character is a
    plain space and no two are adjacent; [after_space] tells whether a space
    precedes the text. *)
Fixpoint spaced (after_space : bool) (s : str) : Prop :=
  match s with
  | [] => True
  | c :: t =>
      if is_space c
      then c = 32%N /\ after_space = false /\ spaced true t
      else spaced false t
  end.

Definition starts_clean (s : str) : Prop :=
  match s with
  | c :: _ => is_space c = false
  | [] => True
  end.

(** A text is tidy when its white space is in order and it neither starts
    nor ends with a space. *)
Definition tidy (s : str) : Prop :=
  spaced true s /\ rstrip_by is_space s = s.

(** The last step of [clean_ocr_text]. *)
Definition collapse (text : str) : str :=
  py_strip (re_sub spaces_pattern (lit " ") text).

(** What the quote substitution of [extract_all_codes] does to a character. *)
Definition unquote (c : char) : char :=
  if one_of [rsquo; chr "'"] c then chr "'" else c.

(** The number of times a character stands in a text. *)
Definition occurrences (x : char) (s : str) : nat :=
  length (filter (char_eqb x) s).

(** ** Collaborator calls *)

Definition is_ocr_call (e : event) : bool :=
  match e with
  | Render _ | Ocr _ => true
  | OpenNative | GetText _ => false
  end.

(** The number of calls to the rendering and OCR collaborators. *)
Definition ocr_calls (tr : list event) : nat :=
  length (filter is_ocr_call tr).

(** ** Further vocabulary *)

(** A count table is the recount of its rows when it lists the circle codes
    of the rows in the order of their first occurrence, each with the number
    of rows that carry it. *)
Definition recounted (res : result) : Prop :=
  snd res = count_rows (with_circle_code (fst res)).

(** The rows of consecutive pages, numbered from [page_num], under a page
    extraction. *)
Fixpoint pages_rows (extract : str -> nat -> result) (page_num : nat)
  (texts : list str) : list record :=
  match texts with
  | [] => []
  | t :: texts' => fst (extract t page_num) ++ pages_rows extract (S page_num) texts'
  end.

(** A material code of the grammar, in canonical form. *)
Definition grammatical_code (m : str) : Prop :=
  (FormA m \/ FormB m) /\ Forall not_space m /\ rstrip_by apostrophe m = m.

(** [m] is a part of the text [s]. *)
Definition part_of (m s : str) : Prop := exists pre post, s = pre ++ m ++ post.

(** The characters of a field that the results box shows and reads back
    unchanged: no white space, no colon, no parenthesis. *)
Definition field_char (c : char) : Prop :=
  is_space c = false /\ ~ In c (lit ":()").

(** A row that can be shown and read back. *)
Definition printable (r : record) : Prop :=
  Forall field_char (circle_code r) /\ circle_code r <> lit "-" /\
  Forall field_char (material_code r) /\ Forall field_char (page r).

(** A circle code as the user can enter it in a comma separated list. *)
Definition entered_code (c : str) : Prop :=
  c <> [] /\ py_strip c = c /\ ~ In (chr ",") c.

(** [",".join(codes)] *)
Definition join_commas (codes : list str) : str :=
  match codes with
  | [] => []
  | c :: codes' => c ++ flat_map (fun x => chr "," :: x) codes'
  end.

(** A character of a circle code or a material code: a field character
    other than the hyphen. *)
Definition code_char (c : char) : Prop := field_char c /\ c <> hyphen.



(** The result of consecutive pages, numbered from [page_num], accumulated
    onto [acc]. *)
Fixpoint pages_result (extract : str -> nat -> result) (page_num : nat)
  (texts : list str) (acc : result) : result :=
  match texts with
  | [] => acc
  | t :: texts' =>
      pages_result extract (S page_num) texts' (accumulate acc (extract t page_num))
  end.

(** A text without a decimal digit. *)
Definition digit_free (s : str) : Prop := Forall (fun c => is_digit c = false) s.

(** * Properties *)

(** ** The language of a pattern *)

Lemma consumed_app (m rest : str) : consumed (m ++ rest) rest = m.
Proof.
  unfold consumed. rewrite length_app.
  replace (length m + length rest - length rest) with (length m) by lia.
  rewrite firstn_app, firstn_all, Nat.sub_diag. simpl. apply app_nil_r.
Qed.

Lemma star_loop_sound (step : posn -> list posn) (A : lang) :
  (forall p q, In q (step p) -> exists m, snd p = m ++ snd q /\ A m) ->
  forall n p q, In q (star_loop step n p) ->
    exists m, snd p = m ++ snd q /\ many A m.
Proof.
  intros Hstep. induction n as [|n IH]; simpl; intros p q Hin.
  - destruct Hin as [<-|[]]. exists []. split; [reflexivity|constructor].
  - apply in_app_or in Hin as [Hin|[<-|[]]].
    + apply in_flat_map in Hin as (q1 & Hq1 & Hin).
      destruct (Nat.ltb (length (snd q1)) (length (snd p))); [|contradiction].
      apply Hstep in Hq1 as (m1 & E1 & A1).
      apply IH in Hin as (m2 & E2 & A2).
      exists (m1 ++ m2). rewrite E1, E2, app_assoc.
      split; [reflexivity|constructor; assumption].
    + exists []. split; [reflexivity|constructor].
Qed.

(** Every way the matcher finds is a text of the pattern's language followed
    by the text left. *)
Lemma run_sound (r : regex) :
  forall p q, In q (run r p) -> exists m, snd p = m ++ snd q /\ den r m.
Proof.
  induction r as [f| |a IHa b IHb|a IHa b IHb|a IHa|a IHa| | |];
    simpl; intros p q Hin.
  - destruct p as [pv [|c t]]; simpl in *; [contradiction|].
    destruct (f c) eqn:E; [|contradiction].
    destruct Hin as [<-|[]]. exists [c]. split; [reflexivity|].
    exists c. split; [reflexivity|assumption].
  - destruct Hin as [<-|[]]. exists []. split; reflexivity.
  - apply in_flat_map in Hin as (q1 & H1 & H2).
    apply IHa in H1 as (m1 & E1 & D1). apply IHb in H2 as (m2 & E2 & D2).
    exists (m1 ++ m2). rewrite E1, E2, app_assoc. split; [reflexivity|].
    exists m1, m2. auto.
  - apply in_app_or in Hin as [Hin|Hin].
    + apply IHa in Hin as (m & E & D). exists m. split; [assumption|left; assumption].
    + apply IHb in Hin as (m & E & D). exists m. split; [assumption|right; assumption].
  - apply in_app_or in Hin as [Hin|[<-|[]]].
    + apply IHa in Hin as (m & E & D). exists m. split; [assumption|right; assumption].
    + exists []. split; [reflexivity|left; reflexivity].
  - eapply star_loop_sound; eauto.
  - destruct (at_boundary p); [|contradiction]. destruct Hin as [<-|[]].
    exists []. split; reflexivity.
  - destruct (fst p); [contradiction|]. destruct Hin as [<-|[]].
    exists []. split; reflexivity.
  - destruct (at_end p); [|contradiction]. destruct Hin as [<-|[]].
    exists []. split; reflexivity.
Qed.

Lemma star_loop_complete (step : posn -> list posn) (A : lang) :
  (forall m, A m -> forall pv rest,
      exists pv', In (pv', rest) (step (pv, m ++ rest))) ->
  forall m, many A m -> forall n pv rest, length (m ++ rest) <= n ->
    exists pv', In (pv', rest) (star_loop step n (pv, m ++ rest)).
Proof.
  intros Hstep m Hm.
  induction Hm as [|x y Hx Hy IH]; intros n pv rest Hlen.
  - exists pv. destruct n; simpl; [left; reflexivity|].
    apply in_or_app. right. left. reflexivity.
  - destruct x as [|c x].
    + simpl. apply IH. exact Hlen.
    + destruct n as [|n]; [simpl in Hlen; lia|].
      rewrite <- app_assoc.
      destruct (Hstep _ Hx pv (y ++ rest)) as (pv1 & H1).
      destruct (IH n pv1 rest) as (pv2 & H2).
      { rewrite <- app_assoc in Hlen. simpl in Hlen.
        rewrite !length_app in *. lia. }
      exists pv2. simpl star_loop. apply in_or_app. left.
      apply in_flat_map. exists (pv1, y ++ rest). split; [exact H1|].
      match goal with
      | |- In _ (if ?b then _ else _) => replace b with true; [exact H2|]
      end.
      symmetry. apply Nat.ltb_lt. simpl. rewrite !length_app. lia.
Qed.

(** A pattern without assertions finds every text of its language, whatever
    precedes and follows it. *)
Lemma run_complete (r : regex) :
  plain r = true ->
  forall m, den r m -> forall pv rest,
    exists pv', In (pv', rest) (run r (pv, m ++ rest)).
Proof.
  induction r as [f| |a IHa b IHb|a IHa b IHb|a IHa|a IHa| | |];
    simpl; intros Hp m Hm pv rest; try discriminate.
  - destruct Hm as (c & -> & Hc). simpl. rewrite Hc. eexists. left. reflexivity.
  - rewrite Hm. exists pv. left. reflexivity.
  - apply andb_prop in Hp as [Ha Hb].
    destruct Hm as (x & y & -> & Hx & Hy).
    destruct (IHa Ha x Hx pv (y ++ rest)) as (pv1 & H1).
    destruct (IHb Hb y Hy pv1 rest) as (pv2 & H2).
    exists pv2. apply in_flat_map. exists (pv1, y ++ rest).
    rewrite <- app_assoc. auto.
  - apply andb_prop in Hp as [Ha Hb]. destruct Hm as [Hm|Hm].
    + destruct (IHa Ha m Hm pv rest) as (pv1 & H1). exists pv1.
      apply in_or_app. left. exact H1.
    + destruct (IHb Hb m Hm pv rest) as (pv1 & H1). exists pv1.
      apply in_or_app. right. exact H1.
  - destruct Hm as [->|Hm].
    + exists pv. apply in_or_app. right. left. reflexivity.
    + destruct (IHa Hp m Hm pv rest) as (pv1 & H1). exists pv1.
      apply in_or_app. left. exact H1.
  - apply star_loop_complete with (A := den a); auto.
Qed.

(** ** [re.search], [re.match] and [re.fullmatch] *)

Section Searching.

Variable r : regex.

Lemma run_head (pv : option char) (s : str) (q : posn) (l : list posn) :
  run r (pv, s) = q :: l ->
  exists m, s = m ++ snd q /\ den r m /\ consumed s (snd q) = m.
Proof.
  intros E.
  destruct (run_sound r (pv, s) q) as (m & Hs & Hm).
  { rewrite E. left. reflexivity. }
  simpl in Hs. exists m. split; [assumption|]. split; [assumption|].
  rewrite Hs. apply consumed_app.
Qed.

Lemma search_from_eq (prev : option char) (before s : str) :
  search_from r prev before s =
  match run r (prev, s) with
  | (_, rest) :: _ => Some (rev before, consumed s rest, rest)
  | [] =>
      match s with
      | [] => None
      | c :: t => search_from r (Some c) (c :: before) t
      end
  end.
Proof. destruct s; reflexivity. Qed.

(** [re.search] reports the first way to match at the leftmost position where
    there is one. *)
Lemma search_from_some :
  forall s prev before pre m post,
    search_from r prev before s = Some (pre, m, post) ->
    exists skipped,
      pre = rev before ++ skipped /\ s = skipped ++ m ++ post /\ den r m /\
      (exists q l, run r (prev_of prev skipped, m ++ post) = (q, post) :: l) /\
      (forall a b, skipped = a ++ b -> b <> [] ->
         run r (prev_of prev a, b ++ m ++ post) = []).
Proof.
  assert (Found : forall s prev before pre m post q rest l,
    run r (prev, s) = (q, rest) :: l ->
    Some (rev before, consumed s rest, rest) = Some (pre, m, post) ->
    exists skipped,
      pre = rev before ++ skipped /\ s = skipped ++ m ++ post /\ den r m /\
      (exists q l, run r (prev_of prev skipped, m ++ post) = (q, post) :: l) /\
      (forall a b, skipped = a ++ b -> b <> [] ->
         run r (prev_of prev a, b ++ m ++ post) = [])).
  { intros s prev before pre m post q rest l E H. injection H as <- <- <-.
    destruct (run_head _ _ _ _ E) as (m & Hs & Hm & Hc). simpl snd in *.
    exists []. rewrite Hc, app_nil_r. simpl app.
    split; [reflexivity|]. split; [exact Hs|]. split; [exact Hm|]. split.
    - exists q, l. simpl. rewrite <- Hs. exact E.
    - intros a b Hab Hb. destruct a; destruct b; try discriminate. congruence. }
  induction s as [|c t IH]; intros prev before pre m post H;
    rewrite search_from_eq in H;
    destruct (run r (prev, _)) as [|[q rest] l] eqn:E;
    try discriminate; try (eapply Found; eassumption).
  apply IH in H as (sk & -> & -> & Hm & Hrun & Hleft).
  exists (c :: sk). simpl. rewrite <- app_assoc. simpl.
  repeat split; auto.
  intros [|c' a] b Hab Hb; simpl in Hab.
  - subst b. simpl. exact E.
  - injection Hab as <- ->. simpl. apply Hleft; auto.
Qed.

Lemma search_from_none :
  forall s prev before,
    search_from r prev before s = None ->
    forall a b, s = a ++ b -> run r (prev_of prev a, b) = [].
Proof.
  induction s as [|c t IH]; intros prev before H;
    rewrite search_from_eq in H;
    destruct (run r (prev, _)) as [|[q rest] l] eqn:E; try discriminate.
  - intros [|] b Hab; [|discriminate]. simpl in *. subst b. exact E.
  - intros [|c' a] b Hab; simpl in *.
    + subst b. exact E.
    + injection Hab as <- ->. eapply IH; eauto.
Qed.

Lemma re_search_some (s pre m post : str) :
  re_search r s = Some (pre, m, post) ->
  s = pre ++ m ++ post /\ den r m /\
  (exists q l, run r (prev_of None pre, m ++ post) = (q, post) :: l) /\
  (forall a b, pre = a ++ b -> b <> [] ->
     run r (prev_of None a, b ++ m ++ post) = []).
Proof.
  intros H. apply search_from_some in H as (sk & -> & -> & H).
  simpl. exact (conj eq_refl H).
Qed.

Lemma re_search_none (s : str) :
  re_search r s = None ->
  forall a b, s = a ++ b -> run r (prev_of None a, b) = [].
Proof. intros H. eapply search_from_none; eauto. Qed.

Lemma re_fullmatch_some (s x : str) :
  re_fullmatch r s = Some x -> x = s /\ den r s.
Proof.
  unfold re_fullmatch.
  destruct (find _ _) as [q|] eqn:E; [|discriminate].
  intros H. injection H as <-. split; [reflexivity|].
  apply find_some in E as [Hin He].
  apply run_sound in Hin as (m & Hs & Hm). simpl in Hs.
  destruct (snd q); [|discriminate]. rewrite app_nil_r in Hs. congruence.
Qed.

Lemma re_fullmatch_complete (s : str) :
  plain r = true -> den r s -> re_fullmatch r s = Some s.
Proof.
  intros Hp Hs. unfold re_fullmatch.
  destruct (find _ _) as [q|] eqn:E; [reflexivity|].
  destruct (run_complete r Hp s Hs None []) as (pv & Hin).
  rewrite app_nil_r in Hin.
  apply (find_none _ _ E) in Hin. discriminate.
Qed.

End Searching.

(** ** Strings and count tables *)

Lemma char_eqb_eq (a b : char) : char_eqb a b = true <-> a = b.
Proof. apply N.eqb_eq. Qed.

Lemma str_eqb_eq (a b : str) : str_eqb a b = true <-> a = b.
Proof.
  revert b. induction a as [|x a IH]; intros [|y b]; simpl;
    try (split; [discriminate|discriminate]); try tauto.
  rewrite andb_true_iff, char_eqb_eq, IH. split.
  - intros [-> ->]. reflexivity.
  - intros H. injection H as -> ->. auto.
Qed.

Lemma str_eqb_refl (a : str) : str_eqb a a = true.
Proof. apply str_eqb_eq. reflexivity. Qed.

Lemma str_eqb_neq (a b : str) : str_eqb a b = false <-> a <> b.
Proof.
  rewrite <- str_eqb_eq. destruct (str_eqb a b); split; congruence.
Qed.

Lemma total_add_count (k : str) (n : nat) (c : counts) :
  total (add_count k n c) = total c + n.
Proof.
  induction c as [|[k' m] c IH]; simpl; [lia|].
  destruct (str_eqb k' k); simpl; lia.
Qed.

Lemma get_count_add_count (k k0 : str) (n : nat) (c : counts) :
  get_count k (add_count k0 n c) =
  get_count k c + (if str_eqb k0 k then n else 0).
Proof.
  induction c as [|[k' m] c IH]; simpl.
  - destruct (str_eqb k0 k); reflexivity.
  - destruct (str_eqb k' k0) eqn:E0; simpl.
    + apply str_eqb_eq in E0. subst k'.
      destruct (str_eqb k0 k); lia.
    + destruct (str_eqb k' k) eqn:E1; [|exact IH].
      apply str_eqb_eq in E1. subst k'.
      replace (str_eqb k0 k) with false; [lia|].
      symmetry. apply str_eqb_neq. intros ->.
      rewrite str_eqb_refl in E0. discriminate.
Qed.

Lemma keys_add_count (k k0 : str) (n : nat) (c : counts) :
  In k (keys (add_count k0 n c)) <-> k = k0 \/ In k (keys c).
Proof.
  induction c as [|[k' m] c IH]; simpl.
  - intuition.
  - destruct (str_eqb k' k0) eqn:E0; simpl.
    + apply str_eqb_eq in E0. subst k'. intuition.
    + rewrite IH. intuition.
Qed.

Lemma NoDup_add_count (k0 : str) (n : nat) (c : counts) :
  NoDup (keys c) -> NoDup (keys (add_count k0 n c)).
Proof.
  induction c as [|[k' m] c IH]; simpl; intros H.
  - constructor; [intros []|constructor].
  - inversion H as [|? ? Hnin Hnd]; subst.
    destruct (str_eqb k' k0) eqn:E0; simpl.
    + constructor; assumption.
    + constructor; [|apply IH; assumption].
      intros Hin. apply keys_add_count in Hin as [->|Hin]; [|contradiction].
      rewrite str_eqb_refl in E0. discriminate.
Qed.

Lemma get_count_absent (k : str) (c : counts) :
  ~ In k (keys c) -> get_count k c = 0.
Proof.
  induction c as [|[k' m] c IH]; simpl; intros H; [reflexivity|].
  destruct (str_eqb k' k) eqn:E; [|apply IH; tauto].
  apply str_eqb_eq in E. tauto.
Qed.

Lemma total_merge_counts (pc c : counts) :
  total (merge_counts c pc) = total c + total pc.
Proof.
  unfold merge_counts. revert c.
  induction pc as [|[k n] pc IH]; intros c; simpl; [lia|].
  rewrite IH, total_add_count. lia.
Qed.

Lemma get_count_merge_counts (k : str) (pc c : counts) :
  NoDup (keys pc) ->
  get_count k (merge_counts c pc) = get_count k c + get_count k pc.
Proof.
  unfold merge_counts. revert c.
  induction pc as [|[k' n] pc IH]; intros c Hnd; simpl; [lia|].
  inversion Hnd as [|? ? Hnin Hnd']; subst.
  rewrite IH by assumption. rewrite get_count_add_count.
  destruct (str_eqb k' k) eqn:E; [|lia].
  apply str_eqb_eq in E. subst k'.
  rewrite (get_count_absent k pc Hnin). lia.
Qed.

Lemma keys_merge_counts (k : str) (pc c : counts) :
  In k (keys (merge_counts c pc)) <-> In k (keys c) \/ In k (keys pc).
Proof.
  unfold merge_counts. revert c.
  induction pc as [|[k' n] pc IH]; intros c; simpl; [tauto|].
  rewrite IH, keys_add_count. intuition.
Qed.

Lemma NoDup_merge_counts (pc c : counts) :
  NoDup (keys c) -> NoDup (keys (merge_counts c pc)).
Proof.
  unfold merge_counts. revert c.
  induction pc as [|[k' n] pc IH]; intros c H; simpl; [assumption|].
  apply IH. apply NoDup_add_count. assumption.
Qed.

Lemma count_present_app (a b : list record) :
  count_present (a ++ b) = count_present a + count_present b.
Proof. unfold count_present. rewrite filter_app, length_app. reflexivity. Qed.

Lemma count_code_app (k : str) (a b : list record) :
  count_code k (a ++ b) = count_code k a + count_code k b.
Proof. unfold count_code. rewrite filter_app, length_app. reflexivity. Qed.

Lemma consistent_empty : consistent empty_result.
Proof.
  split; simpl; auto; try (intros []); constructor.
Qed.

Lemma consistent_emit (circle material pg : str) (acc : result) :
  circle <> [] -> consistent acc -> consistent (emit circle material pg acc).
Proof.
  intros Hne [Ht Hc Hb Hk]. split; unfold emit; simpl.
  - rewrite total_add_count, count_present_app, Ht.
    unfold count_present, present. simpl.
    destruct circle; [congruence|]. reflexivity.
  - intros k Hk0. rewrite get_count_add_count, count_code_app, Hc by assumption.
    unfold count_code. simpl. destruct (str_eqb circle k); reflexivity.
  - intros Hin. apply keys_add_count in Hin as [E|Hin]; [congruence|tauto].
  - apply NoDup_add_count. assumption.
Qed.

Lemma consistent_emit_blank (material pg : str) (acc : result) :
  consistent acc -> consistent (emit_blank material pg acc).
Proof.
  intros [Ht Hc Hb Hk]. split; unfold emit_blank; simpl; auto.
  - rewrite count_present_app, Ht. unfold count_present. simpl. lia.
  - intros k Hk0. rewrite count_code_app, Hc by assumption.
    unfold count_code. simpl. destruct k; [congruence|]. simpl. lia.
Qed.

Lemma consistent_accumulate (acc pg : result) :
  consistent acc -> consistent pg -> consistent (accumulate acc pg).
Proof.
  intros [Ht Hc Hb Hk] [Ht' Hc' Hb' Hk']. split; unfold accumulate; simpl.
  - rewrite total_merge_counts, count_present_app. lia.
  - intros k Hk0. rewrite get_count_merge_counts, count_code_app by assumption.
    rewrite Hc, Hc' by assumption. reflexivity.
  - intros Hin. apply keys_merge_counts in Hin. tauto.
  - apply NoDup_merge_counts. assumption.
Qed.

(** ** Patterns that cannot match the empty text *)

Lemma den_nonempty (r : regex) :
  nullable r = false -> forall m, den r m -> m <> [].
Proof.
  induction r as [f| |a IHa b IHb|a IHa b IHb|a IHa|a IHa| | |];
    simpl; intros Hn m Hm; try discriminate.
  - destruct Hm as (c & -> & _). discriminate.
  - destruct Hm as (x & y & -> & Hx & Hy).
    apply andb_false_iff in Hn as [Hn|Hn].
    + specialize (IHa Hn x Hx). destruct x; [congruence|discriminate].
    + specialize (IHb Hn y Hy). destruct y; [congruence|].
      destruct x; discriminate.
  - apply orb_false_iff in Hn as [Ha Hb].
    destruct Hm as [Hm|Hm]; [apply (IHa Ha m Hm)|apply (IHb Hb m Hm)].
Qed.

(** The patterns the program hands to [re.sub] and [re.findall] never match
    the empty text. *)
Lemma substituted_patterns_consume :
  forallb (fun r => negb (nullable r))
    [ noise_pattern; spaces_pattern; quote_pattern; cr_pattern;
      comma_L_pattern; slash_pattern; cm_pattern; rfi_pattern;
      rfi_loose_pattern; comma_L_eq_pattern; point_length_pattern;
      missing_cm_pattern; generic_circle_pattern ] = true.
Proof. reflexivity. Qed.

Lemma circle_nonempty (s pre c post : str) :
  re_search strict_circle_pattern s = Some (pre, c, post) -> c <> [].
Proof.
  intros H. apply re_search_some in H as (_ & Hc & _).
  revert Hc. apply den_nonempty. reflexivity.
Qed.

(** ** Count consistency of the page extractor *)

Lemma consistent_step_line (pg l : str) (following : list str) (acc : result) :
  consistent acc -> consistent (step_line pg l following acc).
Proof.
  intros Hacc. unfold step_line.
  destruct (is_empty (py_strip l)); [assumption|].
  destruct (re_search material_pattern _) as [[[pre m] right_text]|];
    [|assumption].
  destruct (re_search strict_circle_pattern _) as [[[sk c] post]|] eqn:E.
  - apply consistent_emit; [|assumption]. eapply circle_nonempty; eassumption.
  - destruct (lookahead following) as [[|c found]|].
    + apply consistent_emit_blank; assumption.
    + apply consistent_emit; [discriminate|assumption].
    + apply consistent_emit_blank; assumption.
Qed.

Lemma consistent_scan_lines (pg : str) (lines : list str) :
  forall acc, consistent acc -> consistent (scan_lines pg lines acc).
Proof.
  induction lines as [|l following IH]; simpl; intros acc Hacc; [assumption|].
  apply IH. apply consistent_step_line. assumption.
Qed.

Lemma consistent_extract_all_codes (text : str) (target : list str) (pg : str) :
  consistent (extract_all_codes text target pg).
Proof. apply consistent_scan_lines. apply consistent_empty. Qed.

(** ** Reasoning about collaborator calls *)

Lemma bind_some {A B} (m : M A) (f : A -> M B) (tr : list event) (b : B) :
  bind m f = (tr, Some b) ->
  exists tr1 a tr2,
    m = (tr1, Some a) /\ f a = (tr2, Some b) /\ tr = tr1 ++ tr2.
Proof.
  destruct m as [tr1 [a|]]; simpl; [|discriminate].
  destruct (f a) as [tr2 b'] eqn:E. intros H. injection H as <- ->.
  exists tr1, a, tr2. auto.
Qed.

Lemma call_some {A} (e : event) (answer : option A) (tr : list event) (a : A) :
  call e answer = (tr, Some a) -> answer = Some a /\ tr = [e].
Proof. unfold call. intros H. injection H as <- ->. auto. Qed.

Lemma consistent_native_pages (pages : list (option str)) :
  forall n acc tr res,
    native_pages n pages acc = (tr, Some res) ->
    consistent acc -> consistent res.
Proof.
  induction pages as [|p pages IH]; intros n acc tr res H Hacc;
    cbn [native_pages] in H.
  - injection H as _ <-. assumption.
  - apply bind_some in H as (tr1 & text & tr2 & _ & H & _).
    eapply IH; [exact H|].
    apply consistent_accumulate; [assumption|apply consistent_extract_all_codes].
Qed.

Lemma consistent_ocr_pages (images : list (option str)) :
  forall n acc tr res,
    ocr_pages n images acc = (tr, Some res) ->
    consistent acc -> consistent res.
Proof.
  induction images as [|p images IH]; intros n acc tr res H Hacc;
    cbn [ocr_pages] in H.
  - injection H as _ <-. assumption.
  - apply bind_some in H as (tr1 & text & tr2 & _ & H & _).
    eapply IH; [exact H|].
    apply consistent_accumulate; [assumption|apply consistent_extract_all_codes].
Qed.

Lemma consistent_materials_ocr_pages (images : list (option str)) (target : list str) :
  forall n acc tr res,
    materials_ocr_pages n images target acc = (tr, Some res) ->
    consistent acc -> consistent res.
Proof.
  induction images as [|p images IH]; intros n acc tr res H Hacc;
    cbn [materials_ocr_pages] in H.
  - injection H as _ <-. assumption.
  - apply bind_some in H as (tr1 & text & tr2 & _ & H & _).
    eapply IH; [exact H|].
    apply consistent_accumulate; [assumption|apply consistent_extract_all_codes].
Qed.

Lemma consistent_materials_native_pages (pages : list (option str)) (target : list str) :
  forall n acc,
    consistent acc ->
    consistent (snd (materials_native_pages n pages target acc)).
Proof.
  induction pages as [|[text|] pages IH]; simpl; intros n acc Hacc;
    try assumption.
  specialize (IH (S n) (accumulate acc
    (extract_all_codes text target (str_of_nat (n + 1))))).
  destruct (materials_native_pages _ _ _ _) as [tr res]. simpl in *.
  apply IH. apply consistent_accumulate;
    [assumption|apply consistent_extract_all_codes].
Qed.

Lemma consistent_extract_all_codes_from_pdf (d : document) (tr : list event) (res : result) :
  extract_all_codes_from_pdf d = (tr, Some res) -> consistent res.
Proof.
  unfold extract_all_codes_from_pdf. intros H.
  apply bind_some in H as (tr1 & r & tr2 & Hnat & H & _).
  destruct r as [res0|].
  - injection H as _ ->.
    unfold try_except in Hnat.
    destruct (native_attempt d) as [tr0 [o|]] eqn:E;
      [|simpl in Hnat; discriminate].
    injection Hnat as _ ->. unfold native_attempt in E.
    apply bind_some in E as (? & pages & ? & _ & E & _).
    apply bind_some in E as (? & texts & ? & _ & E & _).
    destruct (collect_circle_codes _).
    + injection E as _ <-. apply consistent_empty.
    + apply bind_some in E as (? & res1 & ? & Hn & E & _).
      apply consistent_native_pages in Hn; [|apply consistent_empty].
      destruct (fst res1); injection E as _ E; congruence.
  - unfold ocr_fallback in H.
    apply bind_some in H as (? & pages & ? & _ & H & _).
    eapply consistent_ocr_pages; [exact H|apply consistent_empty].
Qed.

Lemma consistent_extract_materials (d : document) (target : list str) (tr : list event) (res : result) :
  extract_materials d target = (tr, Some res) -> consistent res.
Proof.
  unfold extract_materials.
  assert (Hnat : consistent (snd (materials_native d target))).
  { unfold materials_native. destruct (native_text d) as [pages|];
      [|apply consistent_empty].
    pose proof (consistent_materials_native_pages pages target 0
                  empty_result consistent_empty) as H.
    destruct (materials_native_pages _ _ _ _). exact H. }
  destruct (materials_native d target) as [tr0 acc]. simpl in Hnat.
  destruct (fst acc).
  - destruct (bind _ _) as [tr' r] eqn:E. intros H. injection H as _ ->.
    apply bind_some in E as (? & pages & ? & _ & E & _).
    eapply consistent_materials_ocr_pages; eassumption.
  - intros H. injection H as _ <-. assumption.
Qed.

(** C5. In every result of the page extractor, and in every result either
    document driver returns, the counts add up to the number of rows with a
    circle code; each code's count is the number of rows that carry it, so a
    row with a code counts once and a row without one (the empty key never
    enters the table) not at all. *)
Theorem count_table_consistency :
  (forall text target pg, consistent (extract_all_codes text target pg)) /\
  (forall d tr res,
      extract_all_codes_from_pdf d = (tr, Some res) -> consistent res) /\
  (forall d target tr res,
      extract_materials d target = (tr, Some res) -> consistent res).
Proof.
  split; [exact consistent_extract_all_codes|].
  split; [exact consistent_extract_all_codes_from_pdf|].
  exact consistent_extract_materials.
Qed.

(** ** Association of a circle code with a material code *)

Lemma material_not_in_blank (pre m post : str) :
  re_search material_pattern [] = Some (pre, m, post) -> False.
Proof. vm_compute. discriminate. Qed.

Lemma step_line_matched (pg l : str) (following : list str) (acc : result)
  (pre m right_text : str) :
  re_search material_pattern (py_strip l) = Some (pre, m, right_text) ->
  step_line pg l following acc =
  match re_search strict_circle_pattern right_text with
  | Some (_, circle, _) => emit circle (canonical m) pg acc
  | None =>
      match lookahead following with
      | Some (c :: found) => emit (c :: found) (canonical m) pg acc
      | _ => emit_blank (canonical m) pg acc
      end
  end.
Proof.
  intros H. unfold step_line. destruct (py_strip l) as [|c t] eqn:E.
  - destruct (material_not_in_blank _ _ _ H).
  - simpl is_empty. cbv iota. rewrite H. reflexivity.
Qed.

Lemma lookahead_blank (following : list str) :
  Forall blank following -> lookahead following = None.
Proof.
  induction 1 as [|l ls Hl _ IH]; simpl; [reflexivity|].
  rewrite Hl. exact IH.
Qed.

Lemma lookahead_first (blanks : list str) (cand : str) (rest : list str) :
  Forall blank blanks -> ~ blank cand ->
  lookahead (blanks ++ cand :: rest) =
  re_fullmatch strict_circle_pattern (py_strip cand).
Proof.
  intros Hb Hc. induction Hb as [|l ls Hl _ IH]; simpl.
  - unfold blank in Hc. destruct (py_strip cand); [congruence|reflexivity].
  - rewrite Hl. exact IH.
Qed.

(** C2. When the remainder of a line after its material code contains a
    match of the strict circle pattern, the row gets the leftmost such match
    (no match starts at an earlier offset of the remainder, and at that
    offset it is the first way the pattern matches), whatever the lines that
    follow are; the line of scenario 1 yields the row with circle code T1. *)
Theorem same_line_circle_code :
  (forall pg l following acc pre m right_text skipped circle post,
      re_search material_pattern (py_strip l) = Some (pre, m, right_text) ->
      re_search strict_circle_pattern right_text
        = Some (skipped, circle, post) ->
      step_line pg l following acc = emit circle (canonical m) pg acc /\
      py_strip l = pre ++ m ++ right_text /\
      right_text = skipped ++ circle ++ post /\
      (exists q rest,
          run strict_circle_pattern (prev_of None skipped, circle ++ post)
          = (q, post) :: rest) /\
      (forall a b, skipped = a ++ b -> b <> [] ->
         run strict_circle_pattern (prev_of None a, b ++ circle ++ post) = []))
  /\
  (forall pg,
      extract_all_codes (lit "5Rfi12/8cm,L=3.5m' T1") [] pg =
      ([mkRecord (lit "T1") (lit "5Rfi12/8cm,L=3.5m") pg], [(lit "T1", 1)])).
Proof.
  split.
  - intros pg l following acc pre m right_text skipped circle post Hm Hc.
    split.
    + rewrite (step_line_matched pg l following acc _ _ _ Hm), Hc. reflexivity.
    + apply re_search_some in Hm as (Hl & _).
      apply re_search_some in Hc as (Hr & _ & Hfirst & Hleft).
      auto.
  - intros pg. vm_compute. reflexivity.
Qed.

(** C3. When the remainder of the line has no match of the strict circle
    pattern, only the first non-blank line that follows is tested: the row
    gets that line, trimmed, as its circle code when the whole of it is in the
    language of the pattern, and no circle code otherwise, whatever comes
    after that line; with only blank lines left the row has no circle code.
    Scenarios 2 and 3 follow. *)
Theorem next_line_circle_code :
  (forall pg l following acc pre m right_text,
      re_search material_pattern (py_strip l) = Some (pre, m, right_text) ->
      re_search strict_circle_pattern right_text = None ->
      (Forall blank following ->
       step_line pg l following acc = emit_blank (canonical m) pg acc) /\
      (forall blanks cand rest,
          following = blanks ++ cand :: rest ->
          Forall blank blanks -> ~ blank cand ->
          (den strict_circle_pattern (py_strip cand) ->
           step_line pg l following acc
           = emit (py_strip cand) (canonical m) pg acc) /\
          (~ den strict_circle_pattern (py_strip cand) ->
           step_line pg l following acc
           = emit_blank (canonical m) pg acc)))
  /\
  (forall pg,
      extract_all_codes
        (lit "5Rfi12/8cm,L=3.5m'" ++ [newline] ++ lit "  " ++ [newline]
           ++ lit "UT7a") [] pg =
      ([mkRecord (lit "UT7a") (lit "5Rfi12/8cm,L=3.5m") pg],
       [(lit "UT7a", 1)]))
  /\
  (forall pg,
      extract_all_codes
        (lit "5Rfi12/8cm,L=3.5m'" ++ [newline] ++ lit "UT7a extra text"
           ++ [newline] ++ lit "T1") [] pg =
      ([mkRecord [] (lit "5Rfi12/8cm,L=3.5m") pg], [])).
Proof.
  split; [|split; intros pg; vm_compute; reflexivity].
  intros pg l following acc pre m right_text Hm Hc.
  rewrite (step_line_matched pg l following acc _ _ _ Hm), Hc.
  split.
  - intros Hb. rewrite (lookahead_blank _ Hb). reflexivity.
  - intros blanks cand rest -> Hb Hcand.
    rewrite (lookahead_first _ _ rest Hb Hcand).
    split; intros Hd.
    + rewrite (re_fullmatch_complete strict_circle_pattern _ eq_refl Hd).
      unfold blank in Hcand. destruct (py_strip cand); [congruence|reflexivity].
    + destruct (re_fullmatch strict_circle_pattern (py_strip cand)) as [x|] eqn:E;
        [|reflexivity].
      apply re_fullmatch_some in E as [_ E]. contradiction.
Qed.

(** C10. If the remainder of the line after the material code holds a
    decimal digit anywhere, the same-line search succeeds and the row has a
    circle code; the leading digit of a second material code on the line is
    taken this way. *)
Theorem digit_in_remainder_is_a_circle_code :
  (forall pg l following acc pre m right_text,
      re_search material_pattern (py_strip l) = Some (pre, m, right_text) ->
      (exists c, In c right_text /\ is_digit c = true) ->
      exists circle,
        circle <> [] /\
        step_line pg l following acc = emit circle (canonical m) pg acc)
  /\
  (forall pg,
      extract_all_codes (lit "1Rfi2/3cm 4Rfi5/6cm") [] pg =
      ([mkRecord (lit "4") (lit "1Rfi2/3cm") pg], [(lit "4", 1)])).
Proof.
  split; [|intros pg; vm_compute; reflexivity].
  intros pg l following acc pre m right_text Hm (c & Hin & Hc).
  rewrite (step_line_matched pg l following acc _ _ _ Hm).
  destruct (re_search strict_circle_pattern right_text)
    as [[[skipped circle] post]|] eqn:E.
  - exists circle. split; [|reflexivity]. eapply circle_nonempty; eassumption.
  - exfalso. apply in_split in Hin as (a & b & ->).
    pose proof (re_search_none _ _ E a (c :: b) eq_refl) as Hnone.
    assert (Hd : den strict_circle_pattern [c]).
    { right. exists [c], []. split; [reflexivity|].
      split; [exists c; auto|left; reflexivity]. }
    destruct (run_complete strict_circle_pattern eq_refl [c] Hd
                (prev_of None a) b) as (pv & Hrun).
    change ([c] ++ b) with (c :: b) in Hrun.
    rewrite Hnone in Hrun. destruct Hrun.
Qed.

(** ** [re.sub] *)

Section Substitution.

Variable r : regex.
Variable repl : str -> str.

Lemma sub_from_skip :
  forall s k prev,
    sub_from r repl k prev s =
    sub_from r repl 0 (prev_of prev (firstn k s)) (skipn k s).
Proof.
  induction s as [|c t IH]; intros k prev.
  - destruct k; reflexivity.
  - destruct k as [|k]; [reflexivity|].
    simpl. apply IH.
Qed.

(** At a position where the pattern matches a non-empty text the replacement
    is emitted and the scan resumes after the match. *)
Lemma sub_from_match (prev : option char) (m rest : str) (q : option char)
  (l : list posn) :
  run r (prev, m ++ rest) = (q, rest) :: l -> m <> [] ->
  sub_from r repl 0 prev (m ++ rest) =
  repl m ++ sub_from r repl 0 (prev_of prev m) rest.
Proof.
  intros E Hm. destruct m as [|c m]; [congruence|].
  cbn [app] in E |- *. cbn [sub_from]. rewrite E.
  replace (length (c :: m ++ rest) - length rest) with (S (length m))
    by (cbn [length]; rewrite length_app; lia).
  change (c :: m ++ rest) with ((c :: m) ++ rest). rewrite consumed_app.
  rewrite (sub_from_skip (m ++ rest) (length m)). f_equal.
  rewrite firstn_app, firstn_all, Nat.sub_diag, app_nil_r.
  rewrite skipn_app, skipn_all, Nat.sub_diag. reflexivity.
Qed.

Lemma sub_from_no_match (prev : option char) (c : char) (t : str) :
  run r (prev, c :: t) = [] ->
  sub_from r repl 0 prev (c :: t) = c :: sub_from r repl 0 (Some c) t.
Proof. intros E. cbn [sub_from]. rewrite E. reflexivity. Qed.

(** Every character of the output comes from the input or from a
    replacement. *)
Lemma sub_from_chars (x : char) :
  forall s k prev,
    In x (sub_from r repl k prev s) -> In x s \/ exists m, In x (repl m).
Proof.
  induction s as [|c t IH]; intros k prev; cbn [sub_from]; [tauto|].
  assert (Keep : In x (c :: sub_from r repl 0 (Some c) t) ->
                 In x (c :: t) \/ exists m, In x (repl m)).
  { intros [->|H]; [left; left; reflexivity|].
    apply IH in H as [H|H]; [left; right; assumption|right; assumption]. }
  destruct k as [|k].
  - destruct (run r (prev, c :: t)) as [|[q rest] l]; [exact Keep|].
    destruct (length (c :: t) - length rest) as [|k]; [exact Keep|].
    intros H. apply in_app_or in H as [H|H]; [right; eauto|].
    apply IH in H as [H|H]; [left; right; assumption|right; assumption].
  - intros H. apply IH in H as [H|H]; [left; right; assumption|right; assumption].
Qed.

End Substitution.

(** Substituting for single characters of a class. *)
Lemma sub_from_class (f : char -> bool) (repl : str -> str) :
  forall s prev,
    sub_from (Chr f) repl 0 prev s =
    flat_map (fun c => if f c then repl [c] else [c]) s.
Proof.
  induction s as [|c t IH]; intros prev; [reflexivity|].
  cbn [flat_map]. destruct (f c) eqn:E.
  - pose proof (sub_from_match (Chr f) repl prev [c] t (Some c) []) as H.
    cbn [app] in H. rewrite H.
    + simpl. rewrite IH. reflexivity.
    + simpl. rewrite E. reflexivity.
    + discriminate.
  - rewrite sub_from_no_match; [|simpl; rewrite E; reflexivity].
    rewrite IH. reflexivity.
Qed.

Lemma re_sub_class_delete (f : char -> bool) (s : str) :
  re_sub (Chr f) [] s = filter (fun c => negb (f c)) s.
Proof.
  unfold re_sub, re_sub_with. rewrite sub_from_class.
  induction s as [|c t IH]; simpl; [reflexivity|].
  destruct (f c); simpl; rewrite IH; reflexivity.
Qed.

Lemma re_sub_class_map (f : char -> bool) (x : char) (s : str) :
  re_sub (Chr f) [x] s = map (fun c => if f c then x else c) s.
Proof.
  unfold re_sub, re_sub_with. rewrite sub_from_class.
  induction s as [|c t IH]; simpl; [reflexivity|].
  destruct (f c); simpl; rewrite IH; reflexivity.
Qed.

(** ** Runs of a character class, and the collapse of white space *)

Lemma length_lstrip_by (f : char -> bool) (s : str) :
  length (lstrip_by f s) <= length s.
Proof.
  induction s as [|c t IH]; simpl; [lia|]. destruct (f c); simpl; lia.
Qed.

Lemma star_class_head (f : char -> bool) (step : posn -> list posn) :
  (forall prev s,
      step (prev, s) =
      match s with
      | c :: t => if f c then [(Some c, t)] else []
      | [] => []
      end) ->
  forall n prev s, length s <= n ->
    exists q l, star_loop step n (prev, s) = (q, lstrip_by f s) :: l.
Proof.
  intros Hstep. induction n as [|n IH]; intros prev s Hlen.
  - destruct s; [|simpl in Hlen; lia]. simpl. eauto.
  - cbn [star_loop]. rewrite Hstep.
    destruct s as [|c t]; [simpl; eauto|].
    cbn [lstrip_by]. destruct (f c) eqn:E.
    + cbn [flat_map snd].
      replace (Nat.ltb (length t) (length (c :: t))) with true
        by (symmetry; apply Nat.ltb_lt; simpl; lia).
      destruct (IH (Some c) t) as (q & l & ->); [simpl in Hlen; lia|].
      simpl. eauto.
    + simpl. eauto.
Qed.

Lemma run_plus_class (f : char -> bool) (prev : option char) (c : char) (t : str) :
  f c = true ->
  exists q l, run (Plus (Chr f)) (prev, c :: t) = (q, lstrip_by f t) :: l.
Proof.
  intros E. unfold Plus.
  change (run (Seq (Chr f) (Star (Chr f))) (prev, c :: t))
    with (flat_map (run (Star (Chr f)))
            (if f c then [(Some c, t)] else [])).
  rewrite E. cbn [flat_map].
  change (run (Star (Chr f)) (Some c, t))
    with (star_loop (run (Chr f)) (length t) (Some c, t)).
  destruct (star_class_head f (run (Chr f)) (fun _ _ => eq_refl)
              (length t) (Some c) t (le_n _)) as (q & l & ->).
  simpl. eauto.
Qed.

Lemma run_plus_class_none (f : char -> bool) (prev : option char) (c : char) (t : str) :
  f c = false -> run (Plus (Chr f)) (prev, c :: t) = [].
Proof.
  intros E. unfold Plus.
  change (run (Seq (Chr f) (Star (Chr f))) (prev, c :: t))
    with (flat_map (run (Star (Chr f)))
            (if f c then [(Some c, t)] else [])).
  rewrite E. reflexivity.
Qed.

Section Collapse.

Variable rep : str.

Let squeeze (prev : option char) (s : str) : str :=
  sub_from spaces_pattern (fun _ => rep) 0 prev s.

Lemma squeeze_space (prev : option char) (c : char) (t : str) :
  is_space c = true ->
  exists prev',
    squeeze prev (c :: t) = rep ++ squeeze prev' (lstrip_by is_space t).
Proof.
  intros E. unfold squeeze, spaces_pattern.
  destruct (run_plus_class is_space prev c t E) as (q & l & Hrun).
  destruct (run_head _ _ _ _ _ Hrun) as (m & Hs & _). simpl snd in Hs.
  assert (Hm : m <> []).
  { intros ->. simpl in Hs. pose proof (length_lstrip_by is_space t) as Hl.
    rewrite <- Hs in Hl. simpl in Hl. lia. }
  rewrite Hs in Hrun |- *. exists (prev_of prev m).
  exact (sub_from_match _ _ prev m _ q l Hrun Hm).
Qed.

Lemma squeeze_other (prev : option char) (c : char) (t : str) :
  is_space c = false -> squeeze prev (c :: t) = c :: squeeze (Some c) t.
Proof.
  intros E. unfold squeeze. apply sub_from_no_match.
  apply run_plus_class_none. exact E.
Qed.

End Collapse.

Lemma starts_clean_lstrip (s : str) : starts_clean (lstrip_by is_space s).
Proof.
  induction s as [|c t IH]; simpl; [exact I|].
  destruct (is_space c) eqn:E; [exact IH|exact E].
Qed.

Lemma lstrip_starts_clean (s : str) :
  starts_clean s -> lstrip_by is_space s = s.
Proof. destruct s as [|c t]; simpl; [reflexivity|]. intros ->. reflexivity. Qed.

Lemma spaced_starts_clean (s : str) : spaced true s -> starts_clean s.
Proof.
  destruct s as [|c t]; simpl; [trivial|].
  destruct (is_space c); [intros (_ & H & _); discriminate|reflexivity].
Qed.

Lemma spaced_clean_start (b : bool) (s : str) :
  starts_clean s -> spaced b s -> spaced true s.
Proof.
  destruct s as [|c t]; simpl; [trivial|]. intros ->. trivial.
Qed.

Lemma spaced_weaken (b : bool) (s : str) : spaced true s -> spaced b s.
Proof.
  destruct s as [|c t]; simpl; [trivial|].
  destruct (is_space c); [intros (_ & H & _); discriminate|trivial].
Qed.

(** The output of [re.sub(r"\s+", " ", text)] has its white space in order. *)
Lemma squeeze_spaced :
  forall n s prev, length s <= n ->
    let out := sub_from spaces_pattern (fun _ => lit " ") 0 prev s in
    spaced false out /\ (starts_clean s -> spaced true out).
Proof.
  induction n as [|n IH]; intros s prev Hlen.
  - destruct s; [|simpl in Hlen; lia]. simpl. auto.
  - destruct s as [|c t]; [simpl; auto|]. simpl in Hlen.
    destruct (is_space c) eqn:E.
    + destruct (squeeze_space (lit " ") prev c t E) as (prev' & ->).
      destruct (IH (lstrip_by is_space t) prev') as [_ Hclean].
      { pose proof (length_lstrip_by is_space t). lia. }
      specialize (Hclean (starts_clean_lstrip t)).
      split.
      * simpl. auto.
      * simpl. rewrite E. discriminate.
    + rewrite (squeeze_other (lit " ") prev c t E).
      destruct (IH t (Some c)) as [Hsp _]; [lia|].
      simpl. rewrite E. auto.
Qed.

(** On a text whose white space is in order the substitution changes
    nothing. *)
Lemma squeeze_fixed :
  forall s b prev, spaced b s ->
    sub_from spaces_pattern (fun _ => lit " ") 0 prev s = s.
Proof.
  induction s as [|c t IH]; intros b prev Hs; [reflexivity|].
  simpl in Hs. destruct (is_space c) eqn:E.
  - destruct Hs as (-> & _ & Ht).
    destruct (squeeze_space (lit " ") prev 32%N t E) as (prev' & ->).
    rewrite (lstrip_starts_clean t (spaced_starts_clean t Ht)).
    rewrite (IH true prev' Ht). reflexivity.
  - rewrite (squeeze_other (lit " ") prev c t E), (IH false (Some c) Hs).
    reflexivity.
Qed.

Lemma rstrip_by_idem (f : char -> bool) (s : str) :
  rstrip_by f (rstrip_by f s) = rstrip_by f s.
Proof.
  induction s as [|c t IH]; simpl; [reflexivity|].
  destruct (rstrip_by f t) as [|c' t'] eqn:E.
  - destruct (f c) eqn:Ec; simpl; [reflexivity|]. rewrite Ec. reflexivity.
  - simpl in IH |- *. destruct (match rstrip_by f t' with
                                | [] => if f c' then [] else [c']
                                | c0 :: l => c' :: c0 :: l end) eqn:E';
      [discriminate|]. rewrite IH. reflexivity.
Qed.

Lemma rstrip_by_spaced (s : str) :
  forall b, spaced b s -> spaced b (rstrip_by is_space s).
Proof.
  induction s as [|c t IH]; intros b Hs; simpl; [exact I|].
  simpl in Hs.
  destruct (rstrip_by is_space t) as [|c' t'] eqn:E.
  - destruct (is_space c) eqn:Ec; simpl; [exact I|]. rewrite Ec. exact I.
  - simpl. destruct (is_space c).
    + destruct Hs as (H1 & H2 & H3). repeat split; auto.
      apply (IH true H3).
    + apply (IH false Hs).
Qed.

Lemma py_strip_tidy (s : str) : spaced false s -> tidy (py_strip s).
Proof.
  intros Hs. unfold py_strip, tidy. split.
  - apply rstrip_by_spaced.
    apply spaced_clean_start with (b := false);
      [apply starts_clean_lstrip|].
    destruct s as [|c t]; simpl in *; [exact I|].
    destruct (is_space c) eqn:E.
    + destruct Hs as (_ & _ & Ht).
      rewrite (lstrip_starts_clean t (spaced_starts_clean t Ht)).
      apply spaced_weaken. exact Ht.
    + simpl. rewrite E. exact Hs.
  - apply rstrip_by_idem.
Qed.

Lemma py_strip_fixed (s : str) : tidy s -> py_strip s = s.
Proof.
  intros [Hs Hr]. unfold py_strip.
  rewrite (lstrip_starts_clean s (spaced_starts_clean s Hs)). exact Hr.
Qed.

Lemma collapse_tidy (text : str) : tidy (collapse text).
Proof.
  apply py_strip_tidy.
  apply (squeeze_spaced (length text) text None (le_n _)).
Qed.

Lemma collapse_fixed (text : str) : tidy text -> collapse text = text.
Proof.
  intros H. unfold collapse, re_sub, re_sub_with.
  rewrite (squeeze_fixed text true None (proj1 H)).
  apply py_strip_fixed. exact H.
Qed.

(** ** The text cleaner *)

Lemma in_lstrip_by (f : char -> bool) (x : char) (s : str) :
  In x (lstrip_by f s) -> In x s.
Proof.
  induction s as [|c t IH]; simpl; [tauto|].
  destruct (f c); [right; auto|trivial].
Qed.

Lemma in_rstrip_by (f : char -> bool) (x : char) (s : str) :
  In x (rstrip_by f s) -> In x s.
Proof.
  induction s as [|c t IH]; simpl; [tauto|].
  destruct (rstrip_by f t) as [|c' t'].
  - destruct (f c); simpl; tauto.
  - intros [->|H]; [left; reflexivity|right; apply IH; exact H].
Qed.

Lemma in_py_strip (x : char) (s : str) : In x (py_strip s) -> In x s.
Proof.
  unfold py_strip. intros H. apply in_rstrip_by, in_lstrip_by in H. exact H.
Qed.

Lemma filter_fixed {A} (f : A -> bool) (l : list A) :
  (forall x, In x l -> f x = true) -> filter f l = l.
Proof.
  induction l as [|a l IH]; simpl; intros H; [reflexivity|].
  rewrite (H a (or_introl eq_refl)), IH; auto.
Qed.

Lemma map_fixed {A} (f : A -> A) (l : list A) :
  (forall x, In x l -> f x = x) -> map f l = l.
Proof.
  induction l as [|a l IH]; simpl; intros H; [reflexivity|].
  rewrite (H a (or_introl eq_refl)), IH; auto.
Qed.

Lemma one_of_spec (s : str) (c : char) : one_of s c = true <-> In c s.
Proof.
  unfold one_of. rewrite existsb_exists. split.
  - intros (x & Hin & E). apply char_eqb_eq in E. subst. exact Hin.
  - intros H. exists c. split; [exact H|apply N.eqb_refl].
Qed.

Lemma not_one_of (s : str) (c : char) : one_of s c = false -> ~ In c s.
Proof. intros E H. apply one_of_spec in H. congruence. Qed.

Lemma spaced_space (s : str) :
  forall b c, spaced b s -> In c s -> is_space c = true -> c = 32%N.
Proof.
  induction s as [|a t IH]; intros b c Hs Hin Hc; [destruct Hin|].
  simpl in Hs. destruct Hin as [->|Hin].
  - rewrite Hc in Hs. tauto.
  - destruct (is_space a); [apply (IH true c)|apply (IH false c)]; tauto.
Qed.

Lemma clean_ocr_text_tidy (text : str) : tidy (clean_ocr_text text).
Proof. apply collapse_tidy. Qed.

Lemma clean_ocr_text_no_noise (text : str) (c : char) :
  In c (clean_ocr_text text) -> one_of noise_chars c = false.
Proof.
  unfold clean_ocr_text. intros H. apply in_py_strip in H.
  apply sub_from_chars in H as [H|(m & H)].
  - unfold noise_pattern in H. rewrite re_sub_class_delete in H.
    apply filter_In in H as [_ H]. destruct (one_of noise_chars c);
      [discriminate|reflexivity].
  - destruct H as [<-|[]]. reflexivity.
Qed.

(** C8, as stated, fails on a material code with its length apostrophe: the
    apostrophe after the [m] is removed like any other. *)
Lemma length_apostrophe_is_stripped :
  In (chr "'") (lit "5Rfi12/8cm,L=3.5m'") /\
  clean_ocr_text (lit "5Rfi12/8cm,L=3.5m'") = lit "5Rfi12/8cm,L=3.5m" /\
  ~ In (chr "'") (clean_ocr_text (lit "5Rfi12/8cm,L=3.5m'")) /\
  normalize (lit "5Rfi12/8cm,L=3.5m'") = lit "5Rfi12/8cm,L=3.5m".
Proof.
  split; [|split; [|split]].
  - vm_compute. tauto.
  - vm_compute. reflexivity.
  - apply not_one_of. vm_compute. reflexivity.
  - vm_compute. reflexivity.
Qed.

(** ** Normalisation twice *)

Lemma normalize_map (text : str) :
  normalize text = map unquote (clean_ocr_text text).
Proof.
  unfold normalize. change (lit "'") with [chr "'"].
  unfold quote_pattern, cr_pattern.
  rewrite re_sub_class_map, re_sub_class_delete.
  apply filter_fixed. intros c Hin.
  apply in_map_iff in Hin as (c0 & <- & Hin).
  unfold unquote. destruct (one_of _ c0) eqn:E; [reflexivity|].
  destruct (char_eqb 13%N c0) eqn:E13; [|reflexivity].
  apply char_eqb_eq in E13. subst c0.
  pose proof (spaced_space _ true 13%N (proj1 (clean_ocr_text_tidy text)) Hin
                eq_refl) as H.
  discriminate.
Qed.

Lemma starts_with_app (sep b : str) : starts_with sep (sep ++ b) = true.
Proof.
  induction sep as [|x sep IH]; [reflexivity|].
  simpl. unfold char_eqb. rewrite N.eqb_refl. exact IH.
Qed.

Lemma starts_with_spec (sep : str) :
  forall s, starts_with sep s = true -> s = sep ++ skipn (length sep) s.
Proof.
  induction sep as [|x sep IH]; intros s H; [reflexivity|].
  destruct s as [|c t]; [discriminate|]. simpl in H.
  apply andb_prop in H as [Hx Ht]. apply char_eqb_eq in Hx. subst c.
  simpl. f_equal. apply IH. exact Ht.
Qed.

(** ** Apostrophes through the cleaner *)

Lemma occurrences_cons (x c : char) (s : str) :
  occurrences x (c :: s)
  = (if char_eqb x c then 1 else 0) + occurrences x s.
Proof. unfold occurrences. cbn [filter]. destruct (char_eqb x c); reflexivity. Qed.

Lemma occurrences_other (x c : char) (s : str) :
  c <> x -> occurrences x (c :: s) = occurrences x s.
Proof.
  intros H. rewrite occurrences_cons.
  replace (char_eqb x c) with false; [reflexivity|].
  symmetry. apply N.eqb_neq. congruence.
Qed.

Lemma occurrences_app (x : char) (a b : str) :
  occurrences x (a ++ b) = occurrences x a + occurrences x b.
Proof. unfold occurrences. rewrite filter_app, length_app. reflexivity. Qed.

Lemma occurrences_absent (x : char) (s : str) :
  ~ In x s <-> occurrences x s = 0.
Proof.
  induction s as [|c s IH]; [simpl; tauto|].
  rewrite occurrences_cons. destruct (char_eqb x c) eqn:E.
  - apply char_eqb_eq in E. subst c. split; [|discriminate].
    intros H. exfalso. apply H. left. reflexivity.
  - apply N.eqb_neq in E. cbn [Nat.add]. rewrite <- IH. simpl.
    split; [tauto|]. intros H [->|Hin]; [congruence|tauto].
Qed.

Lemma occurrences_filter (f : char -> bool) (x : char) (s : str) :
  f x = true -> occurrences x (filter f s) = occurrences x s.
Proof.
  intros Hx. induction s as [|c s IH]; [reflexivity|].
  cbn [filter]. destruct (f c) eqn:E.
  - rewrite !occurrences_cons, IH. reflexivity.
  - rewrite IH. symmetry. apply occurrences_other. congruence.
Qed.

Lemma occurrences_lstrip_by (f : char -> bool) (x : char) (s : str) :
  f x = false -> occurrences x (lstrip_by f s) = occurrences x s.
Proof.
  intros Hx. induction s as [|c s IH]; [reflexivity|].
  cbn [lstrip_by]. destruct (f c) eqn:E; [|reflexivity].
  rewrite IH. symmetry. apply occurrences_other. congruence.
Qed.

Lemma occurrences_rstrip_by (f : char -> bool) (x : char) (s : str) :
  f x = false -> occurrences x (rstrip_by f s) = occurrences x s.
Proof.
  intros Hx. induction s as [|c s IH]; [reflexivity|].
  cbn [rstrip_by]. rewrite occurrences_cons, <- IH.
  destruct (rstrip_by f s) as [|c' t'].
  - destruct (f c) eqn:E.
    + replace (char_eqb x c) with false; [reflexivity|].
      symmetry. apply N.eqb_neq. congruence.
    + rewrite occurrences_cons. reflexivity.
  - rewrite (occurrences_cons x c). reflexivity.
Qed.

Lemma occurrences_replace_from (x : char) (old new : str) :
  ~ In x old -> ~ In x new ->
  forall s k,
    ~ In x (firstn k s) ->
    occurrences x (replace_from old new k s) = occurrences x s.
Proof.
  intros Hold Hnew. induction s as [|c t IH]; intros k Hk; [reflexivity|].
  cbn [replace_from]. destruct k as [|k].
  - assert (Keep : occurrences x (c :: replace_from old new 0 t)
                   = occurrences x (c :: t)).
    { rewrite !occurrences_cons, IH; [reflexivity|intros []]. }
    destruct (starts_with old (c :: t)) eqn:E; [|exact Keep].
    destruct (length old) as [|k] eqn:El; [exact Keep|].
    apply starts_with_spec in E. rewrite El in E.
    destruct old as [|o old']; [discriminate|].
    injection El as El. cbn [app skipn] in E. injection E as <- Et.
    rewrite occurrences_app, (proj1 (occurrences_absent x new) Hnew).
    cbn [Nat.add]. rewrite IH.
    + symmetry. apply occurrences_other. intros ->. apply Hold. left.
      reflexivity.
    + rewrite Et, firstn_app, El, Nat.sub_diag, firstn_all2 by lia.
      cbn [firstn]. rewrite app_nil_r. intros H. apply Hold. right. exact H.
  - cbn [firstn] in Hk. rewrite IH.
    + symmetry. apply occurrences_other. intros ->. apply Hk. left.
      reflexivity.
    + intros H. apply Hk. right. exact H.
Qed.

Lemma occurrences_replacements (x : char) (reps : list (str * str)) :
  Forall (fun wr => ~ In x (fst wr) /\ ~ In x (snd wr)) reps ->
  forall text,
    occurrences x
      (fold_left (fun t wr => str_replace (fst wr) (snd wr) t) reps text)
    = occurrences x text.
Proof.
  induction 1 as [|wr reps [Ho Hn] _ IH]; intros text; [reflexivity|].
  cbn [fold_left]. rewrite IH. unfold str_replace.
  apply occurrences_replace_from; [exact Ho|exact Hn|intros []].
Qed.

Lemma occurrences_squeeze (x : char) :
  is_space x = false ->
  forall n s prev, length s <= n ->
    occurrences x (sub_from spaces_pattern (fun _ => lit " ") 0 prev s)
    = occurrences x s.
Proof.
  intros Hx. induction n as [|n IH]; intros s prev Hlen.
  - destruct s; [reflexivity|simpl in Hlen; lia].
  - destruct s as [|c t]; [reflexivity|]. simpl in Hlen.
    destruct (is_space c) eqn:E.
    + destruct (squeeze_space (lit " ") prev c t E) as (prev' & ->).
      rewrite occurrences_app, IH
        by (pose proof (length_lstrip_by is_space t); lia).
      rewrite (occurrences_lstrip_by is_space x t Hx).
      rewrite (occurrences_other x c) by congruence.
      change (lit " ") with [32%N].
      rewrite (occurrences_other x 32%N) by (intros <-; discriminate Hx).
      reflexivity.
    + rewrite (squeeze_other (lit " ") prev c t E), !occurrences_cons, IH
        by lia. reflexivity.
Qed.

(** A character that is neither white space nor noise and stands in no entry
    of the table stands in the cleaned text as often as in the text. *)
Lemma clean_ocr_text_keeps (x : char) (text : str) :
  is_space x = false -> one_of noise_chars x = false ->
  forallb (fun wr => negb (one_of (fst wr) x) && negb (one_of (snd wr) x))
    replacements = true ->
  occurrences x (clean_ocr_text text) = occurrences x text.
Proof.
  intros Hs Hn Ht. unfold clean_ocr_text, py_strip.
  rewrite occurrences_rstrip_by, occurrences_lstrip_by by exact Hs.
  unfold re_sub, re_sub_with.
  rewrite (occurrences_squeeze x Hs _ _ _ (le_n _)).
  fold (re_sub_with noise_pattern (fun _ => []) (apply_replacements text)).
  fold (re_sub noise_pattern [] (apply_replacements text)).
  unfold noise_pattern. rewrite re_sub_class_delete.
  rewrite occurrences_filter by (rewrite Hn; reflexivity).
  apply occurrences_replacements.
  rewrite forallb_forall in Ht. apply Forall_forall. intros wr Hin.
  apply Ht in Hin. apply andb_prop in Hin as [Ho Hw].
  split; apply not_one_of.
  - destruct (one_of (fst wr) x); [discriminate|reflexivity].
  - destruct (one_of (snd wr) x); [discriminate|reflexivity].
Qed.

Lemma occurrences_unquote (s : str) :
  occurrences (chr "'") (map unquote s)
  = occurrences rsquo s + occurrences (chr "'") s.
Proof.
  induction s as [|c s IH]; [reflexivity|].
  cbn [map]. rewrite !occurrences_cons, IH. unfold unquote.
  cbn [one_of existsb]. unfold one_of. cbn [existsb].
  destruct (char_eqb c rsquo) eqn:E1.
  - apply char_eqb_eq in E1. subst c. cbn [orb].
    change (char_eqb (chr "'") (chr "'")) with true.
    change (char_eqb rsquo rsquo) with true.
    change (char_eqb (chr "'") rsquo) with false. cbv iota. lia.
  - destruct (char_eqb c (chr "'")) eqn:E2.
    + apply char_eqb_eq in E2. subst c. cbn [orb].
      change (char_eqb (chr "'") (chr "'")) with true.
      change (char_eqb rsquo (chr "'")) with false. cbv iota. lia.
    + cbn [orb]. unfold char_eqb in *. rewrite N.eqb_sym in E1, E2.
      rewrite E1, E2. cbv iota. lia.
Qed.

(** C8, as the program has it. [clean_ocr_text] leaves no straight
    apostrophe, not even after the [m] of a length, and none of the other
    noise characters; what white space is left is single plain spaces inside
    the text.  The curly apostrophe U+2019 is no noise to it: each one stays.
    On the OCR path the quote substitution of [extract_all_codes] comes
    after the cleaner and turns each of them into a straight apostrophe, so
    the normalised text holds as many apostrophes as the text held U+2019,
    no U+2019 and no other noise character. *)
Theorem clean_ocr_text_strips_straight_apostrophes_only :
  forall text,
    (forall c, In c (clean_ocr_text text) -> ~ In c noise_chars) /\
    ~ In (chr "'") (clean_ocr_text text) /\
    tidy (clean_ocr_text text) /\
    occurrences rsquo (clean_ocr_text text) = occurrences rsquo text /\
    normalize text = map unquote (clean_ocr_text text) /\
    occurrences (chr "'") (normalize text) = occurrences rsquo text /\
    ~ In rsquo (normalize text) /\
    (forall c, In c (normalize text) -> c <> chr "'" -> ~ In c noise_chars).
Proof.
  intros text.
  assert (Hnoise : forall c, In c (clean_ocr_text text) -> ~ In c noise_chars).
  { intros c H. apply not_one_of. eapply clean_ocr_text_no_noise. exact H. }
  assert (Hap : ~ In (chr "'") (clean_ocr_text text)).
  { intros H. apply clean_ocr_text_no_noise in H. discriminate. }
  assert (Hkeep : occurrences rsquo (clean_ocr_text text)
                  = occurrences rsquo text).
  { apply clean_ocr_text_keeps; reflexivity. }
  split; [exact Hnoise|]. split; [exact Hap|].
  split; [apply clean_ocr_text_tidy|]. split; [exact Hkeep|].
  split; [apply normalize_map|]. rewrite normalize_map. split; [|split].
  - rewrite occurrences_unquote, Hkeep.
    rewrite (proj1 (occurrences_absent _ _) Hap). lia.
  - intros H. apply in_map_iff in H as (c & E & _). unfold unquote in E.
    destruct (one_of [rsquo; chr "'"] c) eqn:Ec; [discriminate E|].
    subst c. discriminate Ec.
  - intros c H Hc. apply in_map_iff in H as (c0 & E & Hin).
    unfold unquote in E. destruct (one_of [rsquo; chr "'"] c0);
      [congruence|]. subst c0. apply Hnoise. exact Hin.
Qed.

(** A text that the table leaves alone, without noise and tidy, is a fixed
    point of [clean_ocr_text]. *)
Lemma clean_ocr_text_fixed (text : str) :
  apply_replacements text = text ->
  (forall c, In c text -> one_of noise_chars c = false) ->
  tidy text ->
  clean_ocr_text text = text.
Proof.
  intros Htable Hnoise Htidy. unfold clean_ocr_text.
  rewrite Htable. unfold noise_pattern.
  rewrite re_sub_class_delete, filter_fixed.
  - change (collapse text = text). apply collapse_fixed. exact Htidy.
  - intros c Hin. rewrite (Hnoise c Hin). reflexivity.
Qed.

Lemma replace_from_chars (old new : str) (x : char) :
  forall s k, In x (replace_from old new k s) -> In x s \/ In x new.
Proof.
  induction s as [|c t IH]; intros k; cbn [replace_from]; [tauto|].
  assert (Keep : In x (c :: replace_from old new 0 t) ->
                 In x (c :: t) \/ In x new).
  { intros [->|H]; [left; left; reflexivity|].
    apply IH in H as [H|H]; [left; right; exact H|right; exact H]. }
  destruct k as [|k].
  - destruct (starts_with old (c :: t)); [|exact Keep].
    destruct (length old); [exact Keep|].
    intros H. apply in_app_or in H as [H|H]; [right; exact H|].
    apply IH in H as [H|H]; [left; right; exact H|right; exact H].
  - intros H. apply IH in H as [H|H]; [left; right; exact H|right; exact H].
Qed.

Lemma apply_replacements_chars (x : char) (text : str) :
  In x (apply_replacements text) ->
  In x text \/ exists wr, In wr replacements /\ In x (snd wr).
Proof.
  unfold apply_replacements. generalize replacements. intros reps.
  revert text. induction reps as [|wr reps IH]; intros text; simpl; [tauto|].
  intros H. apply IH in H as [H|(wr' & Hin & H)].
  - apply replace_from_chars in H as [H|H]; [left; exact H|].
    right. exists wr. auto.
  - right. exists wr'. auto.
Qed.

(** [clean_ocr_text] brings in no curly quote. *)
Lemma clean_ocr_text_rsquo (text : str) :
  In rsquo (clean_ocr_text text) -> In rsquo text.
Proof.
  unfold clean_ocr_text. intros H. apply in_py_strip in H.
  apply sub_from_chars in H as [H|(m & H)].
  - unfold noise_pattern in H. rewrite re_sub_class_delete in H.
    apply filter_In in H as [H _].
    apply apply_replacements_chars in H as [H|(wr & Hwr & H)]; [exact H|].
    exfalso. revert H. apply not_one_of.
    unfold replacements in Hwr. simpl in Hwr.
    repeat (destruct Hwr as [<-|Hwr]; [vm_compute; reflexivity|]).
    destruct Hwr.
  - exfalso. revert H. apply not_one_of. vm_compute. reflexivity.
Qed.

Lemma unquote_tidy_fixed (text : str) :
  tidy text -> ~ In rsquo text -> ~ In (chr "'") text ->
  re_sub cr_pattern [] (re_sub quote_pattern (lit "'") text) = text.
Proof.
  intros Htidy Hr Hq. change (lit "'") with [chr "'"].
  unfold quote_pattern, cr_pattern.
  rewrite re_sub_class_map, re_sub_class_delete.
  assert (Hmap : map (fun c => if one_of [rsquo; chr "'"] c then chr "'" else c)
                   text = text).
  { apply map_fixed. intros c Hin.
    destruct (one_of [rsquo; chr "'"] c) eqn:E; [|reflexivity].
    apply one_of_spec in E. destruct E as [<-|[<-|[]]]; contradiction. }
  rewrite Hmap. apply filter_fixed. intros c Hin.
  destruct (char_eqb 13%N c) eqn:E13; [|reflexivity].
  apply char_eqb_eq in E13. subst c.
  pose proof (spaced_space _ true 13%N (proj1 Htidy) Hin eq_refl) as H.
  discriminate.
Qed.

(** C4, as the program has it. Normalising again changes nothing when the
    replacement table leaves the normalised text as it is and, the quotes
    being replaced last as on the OCR path, the text holds no apostrophe;
    with the steps in the order the specification lists them the first
    condition is enough. *)
Theorem normalize_idempotent_on_settled_text :
  (forall text,
      apply_replacements (normalize text) = normalize text ->
      ~ In (chr "'") (normalize text) ->
      normalize (normalize text) = normalize text) /\
  (forall text,
      apply_replacements (normalize_listed text) = normalize_listed text ->
      normalize_listed (normalize_listed text) = normalize_listed text).
Proof.
  split.
  - intros text Htable Hquote.
    assert (Hy : normalize text = clean_ocr_text text).
    { rewrite normalize_map in *. apply map_fixed. intros c Hin.
      unfold unquote. destruct (one_of _ c) eqn:E; [|reflexivity].
      exfalso. apply Hquote. apply in_map_iff. exists c.
      split; [|exact Hin]. unfold unquote. rewrite E. reflexivity. }
    rewrite Hy in Htable |- *.
    assert (Hc : clean_ocr_text (clean_ocr_text text) = clean_ocr_text text).
    { apply clean_ocr_text_fixed;
        [exact Htable|apply clean_ocr_text_no_noise|apply clean_ocr_text_tidy]. }
    unfold normalize at 1. rewrite Hc. exact Hy.
  - intros text Htable. unfold normalize_listed at 1.
    rewrite unquote_tidy_fixed.
    + apply clean_ocr_text_fixed;
        [exact Htable|apply clean_ocr_text_no_noise|apply clean_ocr_text_tidy].
    + apply clean_ocr_text_tidy.
    + intros H. apply clean_ocr_text_rsquo in H.
      change (lit "'") with [chr "'"] in H.
      unfold quote_pattern, cr_pattern in H.
      rewrite re_sub_class_map, re_sub_class_delete in H.
      apply filter_In in H as [H _]. apply in_map_iff in H as (c & E & _).
      destruct (one_of [rsquo; chr "'"] c) eqn:Ec; [discriminate|].
      subst c. vm_compute in Ec. discriminate.
    + intros H. apply clean_ocr_text_no_noise in H. discriminate.
Qed.

Lemma normalize_idempotent_on_settled_text_witness :
  apply_replacements (normalize (lit "5Rfi12/8em , L = 3.5m'  T1;"))
    = normalize (lit "5Rfi12/8em , L = 3.5m'  T1;") /\
  ~ In (chr "'") (normalize (lit "5Rfi12/8em , L = 3.5m'  T1;")) /\
  normalize (normalize (lit "5Rfi12/8em , L = 3.5m'  T1;"))
    = normalize (lit "5Rfi12/8em , L = 3.5m'  T1;") /\
  normalize_listed (normalize_listed (lit "5Rfi12/8em , L = 3.5m'  T1;"))
    = normalize_listed (lit "5Rfi12/8em , L = 3.5m'  T1;").
Proof.
  assert (H1 : apply_replacements (normalize (lit "5Rfi12/8em , L = 3.5m'  T1;"))
               = normalize (lit "5Rfi12/8em , L = 3.5m'  T1;"))
    by (vm_compute; reflexivity).
  assert (H2 : ~ In (chr "'") (normalize (lit "5Rfi12/8em , L = 3.5m'  T1;")))
    by (apply not_one_of; vm_compute; reflexivity).
  split; [exact H1|]. split; [exact H2|]. split.
  - exact (proj1 normalize_idempotent_on_settled_text
             (lit "5Rfi12/8em , L = 3.5m'  T1;") H1 H2).
  - apply (proj2 normalize_idempotent_on_settled_text
             (lit "5Rfi12/8em , L = 3.5m'  T1;")).
    vm_compute. reflexivity.
Defined.

(** C4, as stated, fails: the table is applied once, so three points become
    two, and two become one on the next pass; this is so in either order of
    the steps. *)
Lemma normalize_not_idempotent :
  normalize (lit "...") = lit ".." /\
  normalize (normalize (lit "...")) = lit "." /\
  normalize (normalize (lit "...")) <> normalize (lit "...") /\
  normalize_listed (normalize_listed (lit "..."))
    <> normalize_listed (lit "...").
Proof.
  repeat split; try (vm_compute; reflexivity); vm_compute; discriminate.
Qed.

(** ** The two text sources *)

Lemma ocr_pages_as_native (texts : list str) :
  forall n acc,
    snd (ocr_pages n (map Some texts) acc) =
    snd (native_pages n (map Some (map clean_ocr_text texts)) acc).
Proof.
  induction texts as [|t texts IH]; intros n acc; [reflexivity|].
  cbn [map ocr_pages native_pages]. unfold bind, call.
  specialize (IH (S n) (accumulate acc (ocr_page t n))).
  change (native_page (clean_ocr_text t) n) with (ocr_page t n).
  destruct (ocr_pages _ _ _) as [tr1 r1].
  destruct (native_pages _ _ _) as [tr2 r2]. exact IH.
Qed.

(** C7, as the program has it. Both loops of [extract_all_codes_from_pdf]
    run the same page extractor with the same arguments, but the OCR loop
    cleans the text first: on a text it yields what the native loop yields
    on the cleaned text, so the two agree on a text that [clean_ocr_text]
    leaves unchanged, and a whole OCR pass returns what a native pass over
    the cleaned page texts returns. *)
Theorem ocr_path_is_native_path_after_cleaning :
  (forall text n, ocr_page text n = native_page (clean_ocr_text text) n) /\
  (forall text n,
      clean_ocr_text text = text -> ocr_page text n = native_page text n) /\
  (forall texts n acc,
      snd (ocr_pages n (map Some texts) acc) =
      snd (native_pages n (map Some (map clean_ocr_text texts)) acc)).
Proof.
  split; [reflexivity|]. split.
  - intros text n H. unfold ocr_page, native_page. rewrite H. reflexivity.
  - intros texts n acc. apply ocr_pages_as_native.
Qed.

Lemma ocr_path_is_native_path_after_cleaning_witness :
  clean_ocr_text (lit "5Rfi12/8cm,L=3.5m T1") = lit "5Rfi12/8cm,L=3.5m T1" /\
  ocr_page (lit "5Rfi12/8cm,L=3.5m T1") 1
  = native_page (lit "5Rfi12/8cm,L=3.5m T1") 1.
Proof.
  split; [vm_compute; reflexivity|].
  apply (proj1 (proj2 ocr_path_is_native_path_after_cleaning)).
  vm_compute. reflexivity.
Defined.

(** C7, as stated, fails on two material codes on consecutive lines: the
    native path reports both, without circle codes; the OCR path joins the
    lines, reports the first code only and takes the leading digit of the
    second for its circle code. *)
Lemma ocr_path_differs_from_native_path :
  native_page two_lines 1 =
    ([mkRecord [] (lit "1Rfi2/3cm") (lit "1");
      mkRecord [] (lit "4Rfi5/6cm") (lit "1")], []) /\
  ocr_page two_lines 1 =
    ([mkRecord (lit "4") (lit "1Rfi2/3cm") (lit "1")], [(lit "4", 1)]) /\
  ocr_page two_lines 1 <> native_page two_lines 1.
Proof.
  split; [vm_compute; reflexivity|].
  split; [vm_compute; reflexivity|].
  vm_compute. discriminate.
Qed.

(** ** The choice between the text layer and OCR *)

Lemma ocr_calls_app (a b : list event) :
  ocr_calls (a ++ b) = ocr_calls a + ocr_calls b.
Proof. unfold ocr_calls. rewrite filter_app, length_app. reflexivity. Qed.

Lemma ocr_calls_bind {A B} (m : M A) (f : A -> M B) :
  ocr_calls (fst m) = 0 ->
  (forall a, ocr_calls (fst (f a)) = 0) ->
  ocr_calls (fst (bind m f)) = 0.
Proof.
  destruct m as [tr [a|]]; simpl; intros Hm Hf; [|exact Hm].
  specialize (Hf a). destruct (f a) as [tr' b]. simpl in *.
  rewrite ocr_calls_app. lia.
Qed.

Lemma get_texts_quiet (pages : list (option str)) :
  forall i, ocr_calls (fst (get_texts i pages)) = 0.
Proof.
  induction pages as [|p pages IH]; intros i; [reflexivity|].
  cbn [get_texts]. apply ocr_calls_bind; [reflexivity|]. intros t.
  apply ocr_calls_bind; [apply IH|]. reflexivity.
Qed.

Lemma native_pages_quiet (pages : list (option str)) :
  forall n acc, ocr_calls (fst (native_pages n pages acc)) = 0.
Proof.
  induction pages as [|p pages IH]; intros n acc; [reflexivity|].
  cbn [native_pages]. apply ocr_calls_bind; [reflexivity|]. intros t.
  apply IH.
Qed.

Lemma native_attempt_quiet (d : document) :
  ocr_calls (fst (native_attempt d)) = 0.
Proof.
  unfold native_attempt.
  apply ocr_calls_bind; [reflexivity|]. intros pages.
  apply ocr_calls_bind; [apply get_texts_quiet|]. intros texts.
  destruct (collect_circle_codes _); [reflexivity|].
  apply ocr_calls_bind; [apply native_pages_quiet|]. intros res.
  destruct (fst res); reflexivity.
Qed.

(** When the text layer gives rows, [extract_all_codes_from_pdf] returns them
    and calls neither the renderer nor the OCR engine. *)
Lemma native_rows_exclude_ocr (d : document) (tr : list event) (res : result) :
  native_attempt d = (tr, Some (Some res)) ->
  extract_all_codes_from_pdf d = (tr, Some res) /\ ocr_calls tr = 0.
Proof.
  intros H. pose proof (native_attempt_quiet d) as Hq. rewrite H in Hq.
  unfold extract_all_codes_from_pdf. rewrite H. simpl.
  rewrite app_nil_r. auto.
Qed.

(** When the text layer raises, or is read to its end without a row, the
    result is that of the OCR pass alone, started from an empty state. *)
Lemma no_native_rows_fall_back (d : document) (tr : list event) :
  native_attempt d = (tr, None) \/ native_attempt d = (tr, Some None) ->
  extract_all_codes_from_pdf d =
  (tr ++ fst (ocr_fallback d), snd (ocr_fallback d)).
Proof.
  unfold extract_all_codes_from_pdf.
  intros [H|H]; rewrite H; simpl; rewrite ?app_nil_r;
    destruct (ocr_fallback d); reflexivity.
Qed.

(** The sibling driver [extract_materials] goes to OCR exactly when the
    native loop left no row. *)
Lemma extract_materials_fallback (d : document) (target : list str) :
  let native := materials_native d target in
  ocr_calls (fst native) = 0 /\
  (fst (snd native) <> [] ->
   extract_materials d target = (fst native, Some (snd native))) /\
  (fst (snd native) = [] ->
   exists tr r,
     extract_materials d target = (fst native ++ Render 300 :: tr, r)).
Proof.
  cbv zeta. unfold extract_materials.
  assert (Hq : ocr_calls (fst (materials_native d target)) = 0).
  { unfold materials_native. destruct (native_text d) as [pages|];
      [|reflexivity].
    assert (H : forall n acc,
      ocr_calls (fst (materials_native_pages n pages target acc)) = 0).
    { induction pages as [|[t|] pages IH]; intros n acc; try reflexivity.
      cbn [materials_native_pages].
      specialize (IH (S n) (accumulate acc
        (extract_all_codes t target (str_of_nat (n + 1))))).
      destruct (materials_native_pages _ _ _ _). exact IH. }
    specialize (H 0 empty_result).
    destruct (materials_native_pages _ _ _ _). exact H. }
  destruct (materials_native d target) as [tr0 acc]. simpl fst in *.
  simpl snd. split; [exact Hq|]. split.
  - intros H. destruct (fst acc); [congruence|reflexivity].
  - intros ->. unfold bind, call.
    destruct (ocr_text d) as [pages|].
    + destruct (materials_ocr_pages 1 pages target acc) as [tr' r'].
      exists tr', r'. reflexivity.
    + exists [], None. reflexivity.
Qed.

Lemma get_texts_all (texts : list str) :
  forall i,
    get_texts i (map Some texts)
    = (map GetText (seq i (length texts)), Some texts).
Proof.
  induction texts as [|t texts IH]; intros i; [reflexivity|].
  cbn [map get_texts]. rewrite IH. unfold bind, call, ret. simpl.
  rewrite app_nil_r. reflexivity.
Qed.

(** Whenever the text layer is readable and holds no generic circle code,
    [extract_all_codes_from_pdf] returns the empty result without a call to
    the renderer or the OCR engine. *)
Lemma no_circle_code_skips_ocr (d : document) (texts : list str) :
  native_text d = Some (map Some texts) ->
  collect_circle_codes (join_lines texts) = [] ->
  extract_all_codes_from_pdf d
  = (OpenNative :: map GetText (seq 0 (length texts)), Some empty_result) /\
  ocr_calls (fst (extract_all_codes_from_pdf d)) = 0.
Proof.
  intros Hn Hc.
  assert (E : native_attempt d
              = (OpenNative :: map GetText (seq 0 (length texts)),
                 Some (Some empty_result))).
  { unfold native_attempt. rewrite Hn. unfold call at 1. cbn [bind].
    rewrite get_texts_all. cbn [bind]. rewrite Hc. unfold ret.
    rewrite app_nil_r. reflexivity. }
  destruct (native_rows_exclude_ocr d _ _ E) as [H1 H2].
  rewrite H1. auto.
Qed.

(** C1 at a scanned document. The text layer yields no row, yet
    [extract_all_codes_from_pdf] returns the empty result from inside the
    [try] block, because the text holds no circle code, and neither renders
    nor recognises the page; [extract_materials] falls back to OCR on the
    same document and finds the row. *)
Theorem scanned_document_is_not_sent_to_ocr :
  native_attempt scanned_document
    = ([OpenNative; GetText 0], Some (Some empty_result)) /\
  extract_all_codes_from_pdf scanned_document
    = ([OpenNative; GetText 0], Some ([], [])) /\
  ocr_calls (fst (extract_all_codes_from_pdf scanned_document)) = 0 /\
  extract_materials scanned_document []
    = ([OpenNative; GetText 0; Render 300; Ocr 1],
       Some ([mkRecord (lit "T1") (lit "5Rfi12/8cm,L=3.5m") (lit "1")],
             [(lit "T1", 1)])).
Proof. repeat split; vm_compute; reflexivity. Qed.

(** ** Grammars and patterns *)

Lemma lang_equiv_refl (A : lang) : lang_equiv A A.
Proof. intros s. tauto. Qed.

Lemma cat_equiv (A A' B B' : lang) :
  lang_equiv A A' -> lang_equiv B B' -> lang_equiv (cat A B) (cat A' B').
Proof.
  intros HA HB s. split; intros (x & y & -> & Hx & Hy); exists x, y;
    (split; [reflexivity|split; [apply HA|apply HB]; assumption]).
Qed.

Lemma opt_equiv (A A' : lang) :
  lang_equiv A A' -> lang_equiv (opt A) (opt A').
Proof.
  intros HA s. unfold opt. rewrite (HA s). tauto.
Qed.

Lemma many_equiv (A A' : lang) :
  lang_equiv A A' -> lang_equiv (many A) (many A').
Proof.
  intros HA s. split; induction 1; constructor; auto; apply HA; assumption.
Qed.

Lemma cats_equiv (l l' : list lang) :
  Forall2 lang_equiv l l' -> lang_equiv (cats l) (cats l').
Proof.
  induction 1 as [|A A' l l' HA _ IH]; simpl.
  - apply lang_equiv_refl.
  - apply cat_equiv; assumption.
Qed.

Lemma cat_nothing_r (A : lang) : lang_equiv (cat A nothing) A.
Proof.
  intros s. split.
  - intros (x & y & -> & Hx & ->). rewrite app_nil_r. exact Hx.
  - intros H. exists s, []. rewrite app_nil_r. repeat split. exact H.
Qed.

Lemma cats_app (l1 l2 : list lang) :
  lang_equiv (cats (l1 ++ l2)) (cat (cats l1) (cats l2)).
Proof.
  induction l1 as [|A l1 IH]; simpl; intros s.
  - split.
    + intros H. exists [], s. repeat split. exact H.
    + intros (x & y & -> & -> & Hy). exact Hy.
  - split.
    + intros (x & y & -> & Hx & Hy). apply IH in Hy as (y1 & y2 & -> & H1 & H2).
      exists (x ++ y1), y2. rewrite app_assoc. repeat split; auto.
      exists x, y1. auto.
    + intros (xy & z & -> & (x & y & -> & Hx & Hy) & Hz).
      exists x, (y ++ z). rewrite app_assoc. repeat split; auto.
      apply IH. exists y, z. auto.
Qed.

Lemma den_Seqs (rs : list regex) :
  lang_equiv (den (Seqs rs)) (cats (map den rs)).
Proof.
  induction rs as [|r rs IH]; [apply lang_equiv_refl|].
  destruct rs as [|r' rs].
  - intros s. simpl. symmetry. apply cat_nothing_r.
  - change (den (Seqs (r :: r' :: rs)))
      with (cat (den r) (den (Seqs (r' :: rs)))).
    apply cat_equiv; [apply lang_equiv_refl|exact IH].
Qed.

Lemma many_one (f : char -> bool) (s : str) :
  many (one f) s <-> Forall (fun c => f c = true) s.
Proof.
  split.
  - induction 1 as [|x y (c & -> & Hc) _ IH]; constructor; assumption.
  - induction 1 as [|c t Hc _ IH]; [constructor|].
    apply (many_cons (one f) [c] t); [exists c; auto|exact IH].
Qed.

Lemma den_digits : lang_equiv (den (Star digit)) digits.
Proof. intros s. apply many_one. Qed.

Lemma den_int : lang_equiv (den (Plus digit)) int_.
Proof.
  intros s. unfold Plus, int_. simpl. split.
  - intros (x & y & -> & (c & -> & Hc) & Hy). apply many_one in Hy.
    split; [discriminate|constructor; assumption].
  - intros [Hne H]. destruct s as [|c t]; [congruence|].
    inversion H; subst. exists [c], t. repeat split.
    + exists c. auto.
    + apply many_one. assumption.
Qed.

Lemma den_Lit (ps : list (char -> bool)) (s : str) :
  den (Lit ps) s <-> Forall2 (fun p c => p c = true) ps s.
Proof.
  unfold Lit. rewrite (den_Seqs (map Chr ps) s). revert s.
  induction ps as [|p ps IH]; intros s; simpl.
  - split; [intros ->; constructor|inversion 1; reflexivity].
  - split.
    + intros (x & y & -> & (c & -> & Hc) & Hy). constructor; [exact Hc|].
      apply IH. exact Hy.
    + inversion 1 as [|? c ? t Hc Ht]; subst. exists [c], t.
      repeat split; [exists c; auto|apply IH; exact Ht].
Qed.

Lemma den_word (w : string) : lang_equiv (den (ExactCI w)) (word w).
Proof.
  intros s. unfold ExactCI, word. rewrite den_Lit.
  generalize (lit w). intros l. revert s.
  induction l as [|a l IH]; intros s; simpl.
  - split; inversion 1; constructor.
  - split; inversion 1; subst; constructor; auto; apply IH; assumption.
Qed.

Lemma den_sym (w : string) : lang_equiv (den (Exact w)) (sym w).
Proof.
  intros s. unfold Exact, sym. rewrite den_Lit.
  generalize (lit w). intros l. revert s.
  induction l as [|a l IH]; intros s; simpl.
  - split; [inversion 1; reflexivity|intros ->; constructor].
  - split.
    + inversion 1 as [|? c ? t Hc Ht]; subst.
      apply char_eqb_eq in Hc. apply IH in Ht. congruence.
    + intros ->. constructor; [apply N.eqb_refl|apply IH; reflexivity].
Qed.

Lemma den_apostrophe :
  lang_equiv (den (Chr (one_of (lit "''")))) (sym "'").
Proof.
  intros s. simpl. unfold sym. split.
  - intros (c & -> & Hc). apply one_of_spec in Hc.
    destruct Hc as [<-|[<-|[]]]; reflexivity.
  - intros ->. exists (chr "'"). split; reflexivity.
Qed.

Create HintDb grammar.
#[local] Hint Resolve lang_equiv_refl cat_equiv opt_equiv many_equiv
  den_digits den_int den_word den_sym den_apostrophe : grammar.
#[local] Hint Constructors Forall2 : grammar.

(** ** The strict validator *)

Lemma flat_map_flat_map {A B C} (f : A -> list B) (g : B -> list C)
  (l : list A) :
  flat_map g (flat_map f l) = flat_map (fun x => flat_map g (f x)) l.
Proof.
  induction l as [|a l IH]; simpl; [reflexivity|].
  rewrite flat_map_app, IH. reflexivity.
Qed.

Lemma flat_map_singleton {A} (l : list A) : flat_map (fun x => [x]) l = l.
Proof. induction l as [|a l IH]; simpl; [reflexivity|]. rewrite IH. reflexivity. Qed.

Lemma run_Seqs_cons (r : regex) (rs : list regex) (p : posn) :
  run (Seqs (r :: rs)) p = flat_map (run (Seqs rs)) (run r p).
Proof.
  destruct rs as [|r' rs]; [|reflexivity].
  simpl. symmetry. apply flat_map_singleton.
Qed.

Lemma run_Seqs_app (l1 l2 : list regex) :
  forall p, run (Seqs (l1 ++ l2)) p
            = flat_map (run (Seqs l2)) (run (Seqs l1) p).
Proof.
  induction l1 as [|r l1 IH]; intros p.
  - simpl. rewrite app_nil_r. reflexivity.
  - change ((r :: l1) ++ l2) with (r :: (l1 ++ l2)).
    rewrite !run_Seqs_cons, flat_map_flat_map.
    apply flat_map_ext. intros q. apply IH.
Qed.

Lemma validate_material_code_run (s : str) :
  validate_material_code s = true <->
  exists q, In q (run (Seqs validate_core) (None, s)) /\ at_end q = true.
Proof.
  unfold validate_material_code, re_match.
  change validate_pattern with (Seqs ([Bol] ++ validate_core ++ [Eol])).
  rewrite run_Seqs_app.
  change (run (Seqs [Bol]) (None, s)) with [(@None char, s)].
  cbn [flat_map]. rewrite app_nil_r, run_Seqs_app.
  change (run (Seqs [Eol])) with (fun p : posn => if at_end p then [p] else []).
  split.
  - destruct (flat_map _ _) as [|[pv rest] l] eqn:E; [discriminate|].
    intros _. assert (Hin : In (pv, rest) (flat_map
      (fun p : posn => if at_end p then [p] else [])
      (run (Seqs validate_core) (None, s)))) by (rewrite E; left; reflexivity).
    apply in_flat_map in Hin as (q & Hq & Hin).
    exists q. split; [exact Hq|].
    destruct (at_end q); [reflexivity|destruct Hin].
  - intros (q & Hq & He).
    destruct (flat_map _ _) as [|[pv rest] l] eqn:E; [|reflexivity].
    assert (Hin : In q (flat_map
      (fun p : posn => if at_end p then [p] else [])
      (run (Seqs validate_core) (None, s)))).
    { apply in_flat_map. exists q. split; [exact Hq|].
      rewrite He. left. reflexivity. }
    rewrite E in Hin. destruct Hin.
Qed.

Lemma at_end_spec (q : posn) :
  at_end q = true <-> snd q = [] \/ snd q = [newline].
Proof.
  unfold at_end. destruct (snd q) as [|c [|c' t]].
  - intuition.
  - split.
    + intros H. apply char_eqb_eq in H. subst. auto.
    + intros [H|H]; [discriminate|]. injection H as ->. reflexivity.
  - split; [discriminate|]. intros [H|H]; discriminate.
Qed.

Lemma validate_core_form : lang_equiv (den (Seqs validate_core)) validated_form.
Proof.
  intros s. rewrite (den_Seqs validate_core s).
  apply cats_equiv. unfold validate_core. cbn [map den].
  repeat (constructor; auto with grammar).
Qed.

(** C9, as the program has it. The validator accepts a text exactly when it
    is in [validated_form], possibly followed by one newline: the pattern is
    matched without regard to case, the point of the length needs no digit
    after it, and [$] also matches before a final newline. *)
Theorem validate_material_code_accepts :
  forall s,
    validate_material_code s = true <->
    exists code, validated_form code /\ (s = code \/ s = code ++ [newline]).
Proof.
  intros s. rewrite validate_material_code_run. split.
  - intros (q & Hq & He). apply run_sound in Hq as (m & Hs & Hm).
    simpl in Hs. exists m. split; [apply validate_core_form; exact Hm|].
    apply at_end_spec in He as [E|E]; rewrite E in Hs;
      [left; rewrite app_nil_r in Hs|right]; exact Hs.
  - intros (code & Hc & Hs). apply validate_core_form in Hc.
    assert (Hrest : exists rest, s = code ++ rest /\
                                 (rest = [] \/ rest = [newline])).
    { destruct Hs as [->| ->]; [exists []; rewrite app_nil_r|exists [newline]];
        auto. }
    destruct Hrest as (rest & -> & Hrest).
    destruct (run_complete (Seqs validate_core) eq_refl code Hc None rest)
      as (pv & Hin).
    exists (pv, rest). split; [exact Hin|]. apply at_end_spec. exact Hrest.
Qed.

(** C9, as stated, fails on a length with a point and no fraction: the
    validator accepts it (and [clean_material_code] returns it unchanged),
    the specified pattern does not, in either reading. *)
Lemma validator_accepts_point_without_fraction :
  validate_material_code (lit "1Rfi2/3cm,L=4.m") = true /\
  clean_material_code (lit "1Rfi2/3cm,L=4.m") = Some (lit "1Rfi2/3cm,L=4.m") /\
  re_match specified_pattern (lit "1Rfi2/3cm,L=4.m") = None /\
  re_match specified_pattern_ci (lit "1Rfi2/3cm,L=4.m") = None.
Proof. repeat split; vm_compute; reflexivity. Qed.

(** ** The material code grammar *)

Lemma format1_FormA : lang_equiv (den format1) FormA.
Proof.
  intros s. unfold format1. rewrite (den_Seqs _ s).
  apply cats_equiv. cbn [map den app FormA_head].
  repeat (constructor; auto 6 with grammar).
Qed.

Lemma format2_FormB : lang_equiv (den format2) FormB.
Proof.
  intros s. unfold format2. rewrite (den_Seqs _ s).
  apply cats_equiv. cbn [map den app FormB_head].
  repeat (constructor; auto with grammar).
Qed.

Lemma material_pattern_forms (s : str) :
  den material_pattern s <-> FormA s \/ FormB s.
Proof.
  unfold material_pattern. simpl den. unfold alt.
  rewrite (format1_FormA s), (format2_FormB s). tauto.
Qed.

(** ** The characters a pattern can match *)

Lemma den_classes (P : char -> Prop) (r : regex) :
  classes P r -> forall m, den r m -> Forall P m.
Proof.
  induction r as [f| |a IHa b IHb|a IHa b IHb|a IHa|a IHa| | |];
    simpl; intros Hc m Hm; try (rewrite Hm; constructor).
  - destruct Hm as (c & -> & Hf). constructor; [auto|constructor].
  - destruct Hc as [Ha Hb]. destruct Hm as (x & y & -> & Hx & Hy).
    apply Forall_app. auto.
  - destruct Hc as [Ha Hb]. destruct Hm as [Hm|Hm]; auto.
  - destruct Hm as [->|Hm]; [constructor|auto].
  - induction Hm as [|x y Hx _ IH]; [constructor|].
    apply Forall_app. auto.
Qed.

Lemma in_ranges_points (tbl : list (N * N)) (c : char) :
  in_ranges tbl c = true -> In c (points tbl).
Proof.
  unfold in_ranges, points. intros H.
  apply existsb_exists in H as ([lo hi] & Hin & H).
  apply andb_prop in H as [Hlo Hhi]. simpl in Hlo, Hhi.
  apply N.leb_le in Hlo, Hhi.
  apply in_flat_map. exists (lo, hi). split; [exact Hin|]. cbn [fst snd].
  apply in_map_iff. exists (N.to_nat c). split; [apply N2Nat.id|].
  apply in_seq. lia.
Qed.

Lemma not_space_by_points (f : char -> bool) :
  forallb (fun c => negb (f c)) (points space_ranges) = true ->
  forall c, f c = true -> not_space c.
Proof.
  intros H c Hf. unfold not_space. destruct (is_space c) eqn:E; [|reflexivity].
  apply in_ranges_points in E.
  rewrite forallb_forall in H. apply H in E. rewrite Hf in E. discriminate.
Qed.

Ltac no_space_classes :=
  simpl; repeat split; apply not_space_by_points; vm_compute; reflexivity.

Lemma material_pattern_no_space : classes not_space material_pattern.
Proof. no_space_classes. Qed.

Lemma spaces_only (w rest : str) :
  den spaces0 w -> Forall not_space (w ++ rest) -> w = [].
Proof.
  intros Hw Hn. apply many_one in Hw.
  destruct w as [|c w]; [reflexivity|].
  inversion Hw; subst. inversion Hn; subst.
  unfold not_space in *. congruence.
Qed.

(** ** Substitutions that change nothing *)

Section FixedSubstitution.

Variable r : regex.
Variable rep : str.
Variable P : char -> Prop.

(** Whenever the pattern matches a text of [P]-characters, the text is the
    replacement itself. *)
Hypothesis match_is_rep :
  forall m, den r m -> Forall P m -> m = rep.

Lemma sub_from_fixed :
  forall n s prev, length s <= n -> Forall P s ->
    sub_from r (fun _ => rep) 0 prev s = s.
Proof.
  induction n as [|n IH]; intros s prev Hlen HP.
  - destruct s; [reflexivity|simpl in Hlen; lia].
  - destruct s as [|c t]; [reflexivity|]. simpl in Hlen.
    assert (Keep : sub_from r (fun _ => rep) 0 (Some c) t = t).
    { apply IH; [lia|]. inversion HP; assumption. }
    destruct (run r (prev, c :: t)) as [|[q rest] l] eqn:E.
    + rewrite sub_from_no_match by exact E. rewrite Keep. reflexivity.
    + destruct (run_head r _ _ _ _ E) as (m & Hs & Hm & _). simpl snd in Hs.
      assert (HPm : Forall P m).
      { rewrite Hs in HP. apply Forall_app in HP. tauto. }
      pose proof (match_is_rep m Hm HPm) as Hrep.
      destruct m as [|c' m'].
      * simpl in Hs. subst rest. cbn [sub_from]. rewrite E, Nat.sub_diag.
        rewrite Keep. reflexivity.
      * rewrite Hs in E |- *.
        rewrite (sub_from_match r (fun _ => rep) prev (c' :: m') rest q l E)
          by discriminate.
        rewrite Hrep. f_equal. apply IH.
        -- assert (Hl : length (c :: t) = length ((c' :: m') ++ rest))
             by (rewrite Hs; reflexivity).
           simpl in Hl. rewrite length_app in Hl. lia.
        -- rewrite Hs in HP. apply Forall_app in HP. tauto.
Qed.

Lemma re_sub_fixed (s : str) : Forall P s -> re_sub r rep s = s.
Proof. intros H. apply (sub_from_fixed (length s)); auto. Qed.

End FixedSubstitution.

(** Between spaces the canonicalising patterns match exactly what they put
    back. *)
Lemma padded_symbol (w : string) (m : str) :
  den (Seqs [ spaces0; Exact w; spaces0 ]) m -> Forall not_space m ->
  m = lit w.
Proof.
  intros H Hn. apply (den_Seqs [spaces0; Exact w; spaces0]) in H.
  cbn [map cats] in H.
  destruct H as (x1 & y1 & -> & H1 & x2 & y2 & -> & H2 & x3 & y3 & -> & H3 & ->).
  apply den_sym in H2. unfold sym in H2. subst x2.
  assert (x1 = []) as -> by (eapply spaces_only; eassumption).
  simpl in Hn |- *. apply Forall_app in Hn as [_ Hn].
  assert (x3 = []) as -> by (eapply spaces_only; eassumption).
  rewrite !app_nil_r. reflexivity.
Qed.

Lemma padded_comma_L (m : str) :
  den comma_L_pattern m -> Forall not_space m -> m = lit ",L=".
Proof.
  intros H Hn. unfold comma_L_pattern in H.
  apply (den_Seqs [spaces0; Exact ","; spaces0; Exact "L"; spaces0;
                   Exact "="; spaces0]) in H.
  cbn [map cats] in H.
  destruct H as (x1 & y1 & -> & H1 & x2 & y2 & -> & H2 & x3 & y3 & -> & H3 &
                 x4 & y4 & -> & H4 & x5 & y5 & -> & H5 & x6 & y6 & -> & H6 &
                 x7 & y7 & -> & H7 & ->).
  apply den_sym in H2, H4, H6. unfold sym in *. subst x2 x4 x6.
  assert (x1 = []) as -> by (eapply spaces_only; eassumption).
  simpl in Hn. inversion Hn as [|? ? _ Hn3]; subst.
  assert (x3 = []) as -> by (eapply spaces_only; eassumption).
  simpl in Hn3. inversion Hn3 as [|? ? _ Hn5]; subst.
  assert (x5 = []) as -> by (eapply spaces_only; eassumption).
  simpl in Hn5. inversion Hn5 as [|? ? _ Hn7]; subst.
  assert (x7 = []) as -> by (eapply spaces_only; eassumption).
  reflexivity.
Qed.

(** On a text without white space the four substitutions of [canonical]
    change nothing: only the trailing apostrophes go. *)
Lemma canonical_no_space (m : str) :
  Forall not_space m -> canonical m = rstrip_by (char_eqb (chr "'")) m.
Proof.
  intros Hn. unfold canonical.
  rewrite (re_sub_fixed comma_L_pattern (lit ",L=") not_space
             padded_comma_L m Hn).
  rewrite (re_sub_fixed slash_pattern (lit "/") not_space
             (padded_symbol "/") m Hn).
  rewrite (re_sub_fixed cm_pattern (lit "cm") not_space
             (padded_symbol "cm") m Hn).
  rewrite (re_sub_fixed rfi_pattern (lit "Rfi") not_space
             (padded_symbol "Rfi") m Hn).
  reflexivity.
Qed.

(** ** Emitted material codes *)

Lemma rstrip_by_app (f : char -> bool) (s t : str) :
  rstrip_by f t <> [] -> rstrip_by f (s ++ t) = s ++ rstrip_by f t.
Proof.
  intros Ht. induction s as [|c s IH]; simpl; [reflexivity|].
  rewrite IH. destruct (s ++ rstrip_by f t) eqn:E; [|reflexivity].
  apply app_eq_nil in E. tauto.
Qed.

Lemma letter_m (x : str) :
  word "m" x -> exists c, x = [c] /\ apostrophe c = false.
Proof.
  unfold word. intros H.
  inversion H as [|l c ls t Hc Ht]; subst. inversion Ht; subst.
  exists c. split; [reflexivity|].
  destruct (apostrophe c) eqn:E; [|reflexivity].
  apply char_eqb_eq in E. subst c. vm_compute in Hc. discriminate.
Qed.

Lemma letters_cm (x : str) :
  word "cm" x -> exists c1 c2, x = [c1; c2] /\ apostrophe c2 = false.
Proof.
  unfold word. intros H.
  inversion H as [|l c1 ls t Hc1 Ht]; subst.
  inversion Ht as [|l' c2 ls' t' Hc2 Ht']; subst. inversion Ht'; subst.
  exists c1, c2. split; [reflexivity|].
  destruct (apostrophe c2) eqn:E; [|reflexivity].
  apply char_eqb_eq in E. subst c2. vm_compute in Hc2. discriminate.
Qed.

(** Stripping the trailing apostrophe of a Form A text leaves a Form A
    text. *)
Lemma FormA_rstrip (s : str) : FormA s -> FormA (rstrip_by apostrophe s).
Proof.
  unfold FormA. intros H. apply cats_app in H as (a & b & -> & Ha & Hb).
  cbn [cats] in Hb.
  destruct Hb as (x & y & -> & Hx & t & z & -> & Ht & ->).
  destruct (letter_m x Hx) as (c & -> & Hc). rewrite app_nil_r.
  assert (E : rstrip_by apostrophe ([c] ++ t) = [c]).
  { destruct Ht as [->|Ht]; [simpl; rewrite Hc; reflexivity|].
    unfold sym in Ht. subst t. simpl. rewrite Hc. reflexivity. }
  rewrite rstrip_by_app by (rewrite E; discriminate). rewrite E.
  apply cats_app. exists a, [c]. repeat split; [exact Ha|].
  exists [c], []. repeat split; [exact Hx|].
  exists [], []. repeat split. left. reflexivity.
Qed.

Lemma FormB_rstrip (s : str) : FormB s -> rstrip_by apostrophe s = s.
Proof.
  unfold FormB. intros H. apply cats_app in H as (a & b & -> & Ha & Hb).
  cbn [cats] in Hb. destruct Hb as (x & y & -> & Hx & ->).
  destruct (letters_cm x Hx) as (c1 & c2 & -> & Hc). rewrite app_nil_r.
  assert (E : rstrip_by apostrophe [c1; c2] = [c1; c2])
    by (simpl; rewrite Hc; reflexivity).
  rewrite rstrip_by_app by (rewrite E; discriminate). rewrite E. reflexivity.
Qed.

(** The canonical form of a matched text is a text of the grammar, without
    white space and without a trailing apostrophe. *)
Lemma canonical_grammatical (raw : str) :
  den material_pattern raw ->
  (FormA (canonical raw) \/ FormB (canonical raw)) /\
  Forall not_space (canonical raw) /\
  rstrip_by apostrophe (canonical raw) = canonical raw.
Proof.
  intros H.
  pose proof (den_classes not_space material_pattern
                material_pattern_no_space raw H) as Hn.
  rewrite (canonical_no_space raw Hn).
  change (char_eqb (chr "'")) with apostrophe.
  split; [|split].
  - apply material_pattern_forms in H as [H|H].
    + left. apply FormA_rstrip. exact H.
    + right. rewrite (FormB_rstrip raw H). exact H.
  - apply Forall_forall. intros c Hc. apply in_rstrip_by in Hc.
    rewrite Forall_forall in Hn. auto.
  - apply rstrip_by_idem.
Qed.

Lemma step_line_rows (pg l : str) (following : list str) (acc : result) :
  fst (step_line pg l following acc) = fst acc \/
  exists pre raw post circle,
    py_strip l = pre ++ raw ++ post /\ den material_pattern raw /\
    fst (step_line pg l following acc)
    = fst acc ++ [mkRecord circle (canonical raw) pg].
Proof.
  unfold step_line. destruct (is_empty (py_strip l)); [left; reflexivity|].
  destruct (re_search material_pattern (py_strip l))
    as [[[pre raw] post]|] eqn:E; [|left; reflexivity].
  apply re_search_some in E as (Hl & Hraw & _).
  right. exists pre, raw, post.
  destruct (re_search strict_circle_pattern post) as [[[sk circle] post']|].
  - exists circle. auto.
  - destruct (lookahead following) as [[|c found]|].
    + exists []. auto.
    + exists (c :: found). auto.
    + exists []. auto.
Qed.

Lemma scan_lines_rows (pg : str) (all : list str) :
  forall lines acc,
    incl lines all -> Forall (from_line all) (fst acc) ->
    Forall (from_line all) (fst (scan_lines pg lines acc)).
Proof.
  induction lines as [|l following IH]; intros acc Hincl Hacc; [exact Hacc|].
  cbn [scan_lines]. apply IH.
  - intros x Hx. apply Hincl. right. exact Hx.
  - destruct (step_line_rows pg l following acc)
      as [->|(pre & raw & post & circle & Hl & Hraw & ->)]; [exact Hacc|].
    apply Forall_app. split; [exact Hacc|].
    constructor; [|constructor].
    exists l, pre, raw, post. repeat split; auto.
    apply Hincl. left. reflexivity.
Qed.

Lemma grammatical_extract_all_codes (text : str) (target : list str) (pg : str) :
  Forall grammatical (fst (extract_all_codes text target pg)).
Proof.
  assert (H : Forall (from_line (page_lines text))
                (fst (extract_all_codes text target pg))).
  { apply scan_lines_rows; [apply incl_refl|constructor]. }
  eapply Forall_impl; [|exact H].
  intros r (l & pre & raw & post & _ & _ & Hraw & Hm).
  unfold grammatical. rewrite Hm. apply canonical_grammatical. exact Hraw.
Qed.

(** The rows a driver returns are rows of page extractions. *)
Section DriverRows.

Variable Q : record -> Prop.
Hypothesis page_rows :
  forall text target pg, Forall Q (fst (extract_all_codes text target pg)).

Lemma accumulate_rows (acc pg : result) :
  Forall Q (fst acc) -> Forall Q (fst pg) -> Forall Q (fst (accumulate acc pg)).
Proof. intros Ha Hp. apply Forall_app. auto. Qed.

Lemma native_pages_rows (pages : list (option str)) :
  forall n acc tr res,
    native_pages n pages acc = (tr, Some res) ->
    Forall Q (fst acc) -> Forall Q (fst res).
Proof.
  induction pages as [|p pages IH]; intros n acc tr res H Hacc;
    cbn [native_pages] in H.
  - injection H as _ <-. assumption.
  - apply bind_some in H as (tr1 & text & tr2 & _ & H & _).
    eapply IH; [exact H|]. apply accumulate_rows; [assumption|apply page_rows].
Qed.

Lemma ocr_pages_rows (images : list (option str)) :
  forall n acc tr res,
    ocr_pages n images acc = (tr, Some res) ->
    Forall Q (fst acc) -> Forall Q (fst res).
Proof.
  induction images as [|p images IH]; intros n acc tr res H Hacc;
    cbn [ocr_pages] in H.
  - injection H as _ <-. assumption.
  - apply bind_some in H as (tr1 & text & tr2 & _ & H & _).
    eapply IH; [exact H|]. apply accumulate_rows; [assumption|apply page_rows].
Qed.

Lemma extract_all_codes_from_pdf_rows (d : document) (tr : list event)
  (res : result) :
  extract_all_codes_from_pdf d = (tr, Some res) -> Forall Q (fst res).
Proof.
  unfold extract_all_codes_from_pdf. intros H.
  apply bind_some in H as (tr1 & r & tr2 & Hnat & H & _).
  destruct r as [res0|].
  - injection H as _ ->.
    unfold try_except in Hnat.
    destruct (native_attempt d) as [tr0 [o|]] eqn:E;
      [|simpl in Hnat; discriminate].
    injection Hnat as _ ->. unfold native_attempt in E.
    apply bind_some in E as (? & pages & ? & _ & E & _).
    apply bind_some in E as (? & texts & ? & _ & E & _).
    destruct (collect_circle_codes _).
    + injection E as _ <-. constructor.
    + apply bind_some in E as (? & res1 & ? & Hn & E & _).
      apply native_pages_rows in Hn; [|constructor].
      destruct (fst res1) eqn:E1; unfold ret in E; [discriminate|].
      injection E as _ <-. rewrite E1. exact Hn.
  - unfold ocr_fallback in H.
    apply bind_some in H as (? & pages & ? & _ & H & _).
    eapply ocr_pages_rows; [exact H|constructor].
Qed.

End DriverRows.

(** C6. Every row the page extractor emits carries the canonical form of a
    part of a scanned line that the material pattern matches; that form is a
    Form A or Form B text, has no white space and no trailing apostrophe; a
    line no part of which is of either form adds no row; and the rows
    [extract_all_codes_from_pdf] returns are all grammatical. *)
Theorem material_codes_follow_the_grammar :
  (forall text target pg r,
      In r (fst (extract_all_codes text target pg)) ->
      grammatical r /\
      exists l pre raw post,
        In l (page_lines text) /\ py_strip l = pre ++ raw ++ post /\
        (FormA raw \/ FormB raw) /\ material_code r = canonical raw) /\
  (forall pg l following acc,
      (forall pre raw post,
          py_strip l = pre ++ raw ++ post -> ~ (FormA raw \/ FormB raw)) ->
      step_line pg l following acc = acc) /\
  (forall d tr res r,
      extract_all_codes_from_pdf d = (tr, Some res) -> In r (fst res) ->
      grammatical r).
Proof.
  split; [|split].
  - intros text target pg r Hin.
    assert (H : Forall (from_line (page_lines text))
                  (fst (extract_all_codes text target pg))).
    { apply scan_lines_rows; [apply incl_refl|constructor]. }
    rewrite Forall_forall in H.
    destruct (H r Hin) as (l & pre & raw & post & Hl & Hs & Hraw & Hm).
    split.
    + unfold grammatical. rewrite Hm. apply canonical_grammatical. exact Hraw.
    + exists l, pre, raw, post. repeat split; auto.
      apply material_pattern_forms. exact Hraw.
  - intros pg l following acc Hnone. unfold step_line.
    destruct (is_empty (py_strip l)); [reflexivity|].
    destruct (re_search material_pattern (py_strip l))
      as [[[pre raw] post]|] eqn:E; [|reflexivity].
    apply re_search_some in E as (Hl & Hraw & _).
    apply material_pattern_forms in Hraw.
    destruct (Hnone pre raw post Hl Hraw).
  - intros d tr res r H Hin.
    pose proof (extract_all_codes_from_pdf_rows grammatical
                  grammatical_extract_all_codes d tr res H) as Hall.
    rewrite Forall_forall in Hall. auto.
Qed.

(** ** The theorems at sample inputs *)

Lemma same_line_circle_code_witness :
  re_search material_pattern (py_strip (lit " 5Rfi12/8cm,L=3.5m' T1 x"))
    = Some ([], lit "5Rfi12/8cm,L=3.5m'", lit " T1 x") /\
  re_search strict_circle_pattern (lit " T1 x")
    = Some (lit " ", lit "T1", lit " x") /\
  step_line (lit "7") (lit " 5Rfi12/8cm,L=3.5m' T1 x") [lit "T2"] empty_result
    = emit (lit "T1") (canonical (lit "5Rfi12/8cm,L=3.5m'")) (lit "7")
        empty_result.
Proof.
  split; [vm_compute; reflexivity|]. split; [vm_compute; reflexivity|].
  apply (proj1 same_line_circle_code (lit "7")
           (lit " 5Rfi12/8cm,L=3.5m' T1 x") [lit "T2"] empty_result
           [] (lit "5Rfi12/8cm,L=3.5m'") (lit " T1 x")
           (lit " ") (lit "T1") (lit " x"));
    vm_compute; reflexivity.
Defined.

Lemma next_line_circle_code_witness :
  re_search material_pattern (py_strip (lit "5Rfi12/8cm,L=3.5m'"))
    = Some ([], lit "5Rfi12/8cm,L=3.5m'", []) /\
  re_search strict_circle_pattern [] = None /\
  Forall blank [lit "  "; []] /\
  step_line (lit "7") (lit "5Rfi12/8cm,L=3.5m'") [lit "  "; []] empty_result
    = emit_blank (canonical (lit "5Rfi12/8cm,L=3.5m'")) (lit "7")
        empty_result.
Proof.
  assert (Hb : Forall blank [lit "  "; []])
    by (repeat constructor; vm_compute; reflexivity).
  split; [vm_compute; reflexivity|]. split; [vm_compute; reflexivity|].
  split; [exact Hb|].
  apply (proj1 next_line_circle_code (lit "7") (lit "5Rfi12/8cm,L=3.5m'")
           [lit "  "; []] empty_result [] (lit "5Rfi12/8cm,L=3.5m'") []);
    [vm_compute; reflexivity|vm_compute; reflexivity|exact Hb].
Defined.

Lemma count_table_consistency_witness :
  extract_all_codes_from_pdf text_document
    = ([OpenNative; GetText 0; GetText 1; GetText 0; GetText 1],
       Some ([mkRecord (lit "UT7a") (lit "5Rfi12/8cm,L=3.5m") (lit "2")],
             [(lit "UT7a", 1)])) /\
  consistent ([mkRecord (lit "UT7a") (lit "5Rfi12/8cm,L=3.5m") (lit "2")],
              [(lit "UT7a", 1)]).
Proof.
  split; [vm_compute; reflexivity|].
  apply (proj1 (proj2 count_table_consistency) text_document
           [OpenNative; GetText 0; GetText 1; GetText 0; GetText 1]).
  vm_compute. reflexivity.
Defined.

Lemma material_codes_follow_the_grammar_witness :
  In (mkRecord (lit "T1") (lit "5Rfi12/8cm,L=3.5m") (lit "1"))
     (fst (extract_all_codes (lit "5Rfi12/8cm,L=3.5m' T1") [] (lit "1"))) /\
  grammatical (mkRecord (lit "T1") (lit "5Rfi12/8cm,L=3.5m") (lit "1")).
Proof.
  assert (Hin : In (mkRecord (lit "T1") (lit "5Rfi12/8cm,L=3.5m") (lit "1"))
     (fst (extract_all_codes (lit "5Rfi12/8cm,L=3.5m' T1") [] (lit "1"))))
    by (vm_compute; left; reflexivity).
  split; [exact Hin|].
  exact (proj1 (proj1 material_codes_follow_the_grammar _ _ _ _ Hin)).
Defined.

Lemma digit_in_remainder_is_a_circle_code_witness :
  re_search material_pattern (py_strip (lit "1Rfi2/3cm 4Rfi5/6cm"))
    = Some ([], lit "1Rfi2/3cm", lit " 4Rfi5/6cm") /\
  (exists c, In c (lit " 4Rfi5/6cm") /\ is_digit c = true) /\
  exists circle,
    circle <> [] /\
    step_line (lit "1") (lit "1Rfi2/3cm 4Rfi5/6cm") [] empty_result
    = emit circle (canonical (lit "1Rfi2/3cm")) (lit "1") empty_result.
Proof.
  assert (Hd : exists c, In c (lit " 4Rfi5/6cm") /\ is_digit c = true).
  { exists (chr "4"). split; [vm_compute; tauto|vm_compute; reflexivity]. }
  split; [vm_compute; reflexivity|]. split; [exact Hd|].
  apply (proj1 digit_in_remainder_is_a_circle_code (lit "1")
           (lit "1Rfi2/3cm 4Rfi5/6cm") [] empty_result
           [] (lit "1Rfi2/3cm") (lit " 4Rfi5/6cm"));
    [vm_compute; reflexivity|exact Hd].
Defined.

Lemma clean_ocr_text_strips_straight_apostrophes_only_witness :
  (In (chr "m") (clean_ocr_text (lit "3.5m' T1")) /\
   ~ In (chr "m") noise_chars) /\
  clean_ocr_text (lit "5Rfi12/8cm,L=3.5m" ++ [rsquo] ++ lit " T1")
  = lit "5Rfi12/8cm,L=3.5m" ++ [rsquo] ++ lit " T1" /\
  normalize (lit "5Rfi12/8cm,L=3.5m" ++ [rsquo] ++ lit " T1")
  = lit "5Rfi12/8cm,L=3.5m' T1" /\
  occurrences (chr "'")
    (normalize (lit "5Rfi12/8cm,L=3.5m" ++ [rsquo] ++ lit " T1"))
  = occurrences rsquo (lit "5Rfi12/8cm,L=3.5m" ++ [rsquo] ++ lit " T1").
Proof.
  assert (Hin : In (chr "m") (clean_ocr_text (lit "3.5m' T1")))
    by (vm_compute; tauto).
  split.
  - split; [exact Hin|].
    exact (proj1 (clean_ocr_text_strips_straight_apostrophes_only
                    (lit "3.5m' T1")) (chr "m") Hin).
  - split; [vm_compute; reflexivity|]. split; [vm_compute; reflexivity|].
    destruct (clean_ocr_text_strips_straight_apostrophes_only
                (lit "5Rfi12/8cm,L=3.5m" ++ [rsquo] ++ lit " T1"))
      as (_ & _ & _ & _ & _ & H & _).
    exact H.
Defined.

Lemma validate_material_code_accepts_witness :
  validate_material_code (lit "1Rfi2/3cm,L=4.m") = true /\
  exists code,
    validated_form code /\
    (lit "1Rfi2/3cm,L=4.m" = code \/
     lit "1Rfi2/3cm,L=4.m" = code ++ [newline]).
Proof.
  split; [vm_compute; reflexivity|].
  apply (proj1 (validate_material_code_accepts (lit "1Rfi2/3cm,L=4.m"))).
  vm_compute. reflexivity.
Defined.

(** * Further properties of the program *)

(** ** The count table as a recount of the rows *)

Lemma add_count_twice (k : str) (m n : nat) (c : counts) :
  add_count k n (add_count k m c) = add_count k (m + n) c.
Proof.
  induction c as [|[k' v] c IH]; simpl.
  - rewrite str_eqb_refl. reflexivity.
  - destruct (str_eqb k' k) eqn:E; simpl; rewrite E.
    + f_equal. f_equal. lia.
    + rewrite IH. reflexivity.
Qed.

(** Counting for a key that the table already has commutes with any other
    counting. *)
Lemma add_count_comm (k k2 : str) (n n2 : nat) (c : counts) :
  In k (keys c) ->
  add_count k2 n2 (add_count k n c) = add_count k n (add_count k2 n2 c).
Proof.
  induction c as [|[k' v] c IH]; simpl; intros Hin; [destruct Hin|].
  destruct (str_eqb k' k) eqn:E; destruct (str_eqb k' k2) eqn:E2; simpl;
    rewrite ?E, ?E2.
  - f_equal. f_equal. lia.
  - reflexivity.
  - reflexivity.
  - f_equal. apply IH. destruct Hin as [H|H]; [|exact H].
    apply str_eqb_neq in E. congruence.
Qed.

Lemma merge_counts_add_present (k : str) (n : nat) (pc : counts) :
  forall c, In k (keys c) ->
    merge_counts (add_count k n c) pc = add_count k n (merge_counts c pc).
Proof.
  unfold merge_counts.
  induction pc as [|[k2 n2] pc IH]; intros c Hin; simpl; [reflexivity|].
  rewrite add_count_comm by exact Hin.
  apply IH. apply keys_add_count. right. exact Hin.
Qed.

Lemma merge_counts_add (k : str) (n : nat) (pc : counts) :
  forall c,
    merge_counts c (add_count k n pc) = add_count k n (merge_counts c pc).
Proof.
  induction pc as [|[k' m] pc IH]; intros c; [reflexivity|].
  cbn [add_count]. destruct (str_eqb k' k) eqn:E.
  - apply str_eqb_eq in E. subst k'.
    change (merge_counts c ((k, m + n) :: pc))
      with (merge_counts (add_count k (m + n) c) pc).
    change (merge_counts c ((k, m) :: pc))
      with (merge_counts (add_count k m c) pc).
    rewrite <- add_count_twice.
    apply merge_counts_add_present. apply keys_add_count. left. reflexivity.
  - change (merge_counts c ((k', m) :: add_count k n pc))
      with (merge_counts (add_count k' m c) (add_count k n pc)).
    apply IH.
Qed.

Lemma count_rows_app (rows : list record) (r : record) :
  count_rows (rows ++ [r]) = add_count (circle_code r) 1 (count_rows rows).
Proof. unfold count_rows. rewrite fold_left_app. reflexivity. Qed.

(** Merging the recount of further rows into a recount is the recount of all
    the rows. *)
Lemma merge_count_rows (a b : list record) :
  merge_counts (count_rows a) (count_rows b) = count_rows (a ++ b).
Proof.
  induction b as [|r b IH] using rev_ind.
  - rewrite app_nil_r. reflexivity.
  - rewrite app_assoc, !count_rows_app, merge_counts_add, IH. reflexivity.
Qed.

Lemma with_circle_code_app (a b : list record) :
  with_circle_code (a ++ b) = with_circle_code a ++ with_circle_code b.
Proof. apply filter_app. Qed.

Lemma recounted_empty : recounted empty_result.
Proof. reflexivity. Qed.

Lemma recounted_step_line (pg l : str) (following : list str) (acc : result) :
  recounted acc -> recounted (step_line pg l following acc).
Proof.
  unfold recounted. intros Hacc.
  assert (Emit : forall circle material,
             circle <> [] ->
             snd (emit circle material pg acc)
             = count_rows (with_circle_code (fst (emit circle material pg acc)))).
  { intros circle material Hne. unfold emit. cbn [fst snd].
    rewrite with_circle_code_app. cbn [with_circle_code filter circle_code].
    destruct circle; [congruence|]. cbn [is_empty negb].
    rewrite count_rows_app, Hacc. reflexivity. }
  assert (Blank : forall material,
             snd (emit_blank material pg acc)
             = count_rows
                 (with_circle_code (fst (emit_blank material pg acc)))).
  { intros material. unfold emit_blank. cbn [fst snd].
    rewrite with_circle_code_app. cbn. rewrite app_nil_r. exact Hacc. }
  unfold step_line.
  destruct (is_empty (py_strip l)); [exact Hacc|].
  destruct (re_search material_pattern _) as [[[pre m] right_text]|];
    [|exact Hacc].
  destruct (re_search strict_circle_pattern _) as [[[sk c] post]|] eqn:E.
  - apply Emit. eapply circle_nonempty; eassumption.
  - destruct (lookahead following) as [[|c found]|];
      [apply Blank|apply Emit; discriminate|apply Blank].
Qed.

Lemma recounted_scan_lines (pg : str) (lines : list str) :
  forall acc, recounted acc -> recounted (scan_lines pg lines acc).
Proof.
  induction lines as [|l following IH]; simpl; intros acc Hacc; [assumption|].
  apply IH. apply recounted_step_line. assumption.
Qed.

Lemma recounted_extract_all_codes (text : str) (target : list str) (pg : str) :
  recounted (extract_all_codes text target pg).
Proof. apply recounted_scan_lines. apply recounted_empty. Qed.

Lemma recounted_accumulate (acc pg : result) :
  recounted acc -> recounted pg -> recounted (accumulate acc pg).
Proof.
  unfold recounted, accumulate. cbn [fst snd]. intros -> ->.
  rewrite with_circle_code_app. apply merge_count_rows.
Qed.

(** ** What the drivers return *)

(** An invariant of results that the page extractor establishes and
    accumulation keeps holds of whatever a driver returns. *)
Section DriverInvariant.

Variable Inv : result -> Prop.
Hypothesis Inv_empty : Inv empty_result.
Hypothesis Inv_page :
  forall text target pg, Inv (extract_all_codes text target pg).
Hypothesis Inv_accumulate :
  forall acc pg, Inv acc -> Inv pg -> Inv (accumulate acc pg).

Lemma native_pages_inv (pages : list (option str)) :
  forall n acc tr res,
    native_pages n pages acc = (tr, Some res) -> Inv acc -> Inv res.
Proof.
  induction pages as [|p pages IH]; intros n acc tr res H Hacc;
    cbn [native_pages] in H.
  - injection H as _ <-. assumption.
  - apply bind_some in H as (tr1 & text & tr2 & _ & H & _).
    eapply IH; [exact H|]. apply Inv_accumulate; [assumption|apply Inv_page].
Qed.

Lemma ocr_pages_inv (images : list (option str)) :
  forall n acc tr res,
    ocr_pages n images acc = (tr, Some res) -> Inv acc -> Inv res.
Proof.
  induction images as [|p images IH]; intros n acc tr res H Hacc;
    cbn [ocr_pages] in H.
  - injection H as _ <-. assumption.
  - apply bind_some in H as (tr1 & text & tr2 & _ & H & _).
    eapply IH; [exact H|]. apply Inv_accumulate; [assumption|apply Inv_page].
Qed.

Lemma materials_ocr_pages_inv (images : list (option str)) (target : list str) :
  forall n acc tr res,
    materials_ocr_pages n images target acc = (tr, Some res) ->
    Inv acc -> Inv res.
Proof.
  induction images as [|p images IH]; intros n acc tr res H Hacc;
    cbn [materials_ocr_pages] in H.
  - injection H as _ <-. assumption.
  - apply bind_some in H as (tr1 & text & tr2 & _ & H & _).
    eapply IH; [exact H|]. apply Inv_accumulate; [assumption|apply Inv_page].
Qed.

Lemma materials_native_pages_inv (pages : list (option str)) (target : list str) :
  forall n acc,
    Inv acc -> Inv (snd (materials_native_pages n pages target acc)).
Proof.
  induction pages as [|[text|] pages IH]; simpl; intros n acc Hacc;
    try assumption.
  specialize (IH (S n) (accumulate acc
    (extract_all_codes text target (str_of_nat (n + 1))))).
  destruct (materials_native_pages _ _ _ _) as [tr res]. simpl in *.
  apply IH. apply Inv_accumulate; [assumption|apply Inv_page].
Qed.

Lemma extract_all_codes_from_pdf_inv (d : document) (tr : list event)
  (res : result) :
  extract_all_codes_from_pdf d = (tr, Some res) -> Inv res.
Proof.
  unfold extract_all_codes_from_pdf. intros H.
  apply bind_some in H as (tr1 & r & tr2 & Hnat & H & _).
  destruct r as [res0|].
  - injection H as _ ->.
    unfold try_except in Hnat.
    destruct (native_attempt d) as [tr0 [o|]] eqn:E;
      [|simpl in Hnat; discriminate].
    injection Hnat as _ ->. unfold native_attempt in E.
    apply bind_some in E as (? & pages & ? & _ & E & _).
    apply bind_some in E as (? & texts & ? & _ & E & _).
    destruct (collect_circle_codes _).
    + injection E as _ <-. apply Inv_empty.
    + apply bind_some in E as (? & res1 & ? & Hn & E & _).
      apply native_pages_inv in Hn; [|apply Inv_empty].
      destruct (fst res1); unfold ret in E; [discriminate|].
      injection E as _ <-. exact Hn.
  - unfold ocr_fallback in H.
    apply bind_some in H as (? & pages & ? & _ & H & _).
    eapply ocr_pages_inv; [exact H|apply Inv_empty].
Qed.

Lemma extract_materials_inv (d : document) (target : list str)
  (tr : list event) (res : result) :
  extract_materials d target = (tr, Some res) -> Inv res.
Proof.
  unfold extract_materials.
  assert (Hnat : Inv (snd (materials_native d target))).
  { unfold materials_native. destruct (native_text d) as [pages|];
      [|apply Inv_empty].
    pose proof (materials_native_pages_inv pages target 0
                  empty_result Inv_empty) as H.
    destruct (materials_native_pages _ _ _ _). exact H. }
  destruct (materials_native d target) as [tr0 acc]. simpl in Hnat.
  destruct (fst acc).
  - destruct (bind _ _) as [tr' r] eqn:E. intros H. injection H as _ ->.
    apply bind_some in E as (? & pages & ? & _ & E & _).
    eapply materials_ocr_pages_inv; eassumption.
  - intros H. injection H as _ <-. assumption.
Qed.

End DriverInvariant.

(** X1. The count table that the page extractor and the two drivers return
    is the recount of the rows returned: the circle codes in the order of
    their first row, each with the number of its rows.  So the table that
    [process_all_codes] rebuilds from the rows with a circle code is the table
    it was given. *)
Theorem counts_are_the_recount_of_the_rows :
  (forall text target pg,
      recounted (extract_all_codes text target pg)) /\
  (forall d tr res,
      extract_all_codes_from_pdf d = (tr, Some res) ->
      recounted res /\
      process_all_codes_view (fst res) = (with_circle_code (fst res), snd res)) /\
  (forall d target tr res,
      extract_materials d target = (tr, Some res) -> recounted res).
Proof.
  split; [exact recounted_extract_all_codes|]. split.
  - intros d tr res H.
    assert (Hr : recounted res).
    { revert H. apply extract_all_codes_from_pdf_inv;
        [exact recounted_empty|exact recounted_extract_all_codes
        |exact recounted_accumulate]. }
    split; [exact Hr|]. unfold process_all_codes_view. rewrite <- Hr.
    reflexivity.
  - intros d target tr res. apply extract_materials_inv;
      [exact recounted_empty|exact recounted_extract_all_codes
      |exact recounted_accumulate].
Qed.

Lemma counts_are_the_recount_of_the_rows_witness :
  extract_all_codes_from_pdf text_document
    = ([OpenNative; GetText 0; GetText 1; GetText 0; GetText 1],
       Some ([mkRecord (lit "UT7a") (lit "5Rfi12/8cm,L=3.5m") (lit "2")],
             [(lit "UT7a", 1)])) /\
  recounted ([mkRecord (lit "UT7a") (lit "5Rfi12/8cm,L=3.5m") (lit "2")],
             [(lit "UT7a", 1)]).
Proof.
  split; [vm_compute; reflexivity|].
  apply (proj1 (proj2 counts_are_the_recount_of_the_rows) text_document
           [OpenNative; GetText 0; GetText 1; GetText 0; GetText 1]).
  vm_compute. reflexivity.
Defined.

(** ** The OCR path scans one line per page *)

Lemma tidy_no_newline (s : str) : tidy s -> ~ In newline s.
Proof.
  intros [Hs _] Hin.
  pose proof (spaced_space s true newline Hs Hin eq_refl) as H.
  discriminate.
Qed.

Lemma split_lines_single (s : str) :
  ~ In newline s -> split_lines s = [s].
Proof.
  induction s as [|c t IH]; intros Hn; [reflexivity|].
  cbn [split_lines]. destruct (char_eqb c newline) eqn:E.
  - apply char_eqb_eq in E. subst c. exfalso. apply Hn. left. reflexivity.
  - rewrite IH; [reflexivity|]. intros H. apply Hn. right. exact H.
Qed.

Lemma normalize_no_newline (text : str) : ~ In newline (normalize text).
Proof.
  rewrite normalize_map. intros H. apply in_map_iff in H as (c & E & Hin).
  unfold unquote in E. destruct (one_of [rsquo; chr "'"] c); [discriminate|].
  subst c. revert Hin. apply tidy_no_newline. apply clean_ocr_text_tidy.
Qed.

Lemma ocr_page_single_line (text : str) (n : nat) :
  ocr_page text n
  = step_line (str_of_nat n) (normalize text) [] empty_result.
Proof.
  change (ocr_page text n)
    with (scan_lines (str_of_nat n) (split_lines (normalize text))
            empty_result).
  rewrite (split_lines_single _ (normalize_no_newline text)). reflexivity.
Qed.

Lemma step_line_length (pg l : str) (following : list str) (acc : result) :
  length (fst (step_line pg l following acc)) <= S (length (fst acc)).
Proof.
  destruct (step_line_rows pg l following acc)
    as [->|(pre & raw & post & circle & _ & _ & ->)]; [lia|].
  rewrite length_app. simpl. lia.
Qed.

Lemma accumulate_length (acc pg : result) :
  length (fst (accumulate acc pg)) = length (fst acc) + length (fst pg).
Proof. unfold accumulate. cbn [fst]. apply length_app. Qed.

Lemma ocr_pages_length (images : list (option str)) :
  forall n acc tr res,
    ocr_pages n images acc = (tr, Some res) ->
    length (fst res) <= length (fst acc) + length images.
Proof.
  induction images as [|p images IH]; intros n acc tr res H;
    cbn [ocr_pages] in H.
  - injection H as _ <-. simpl. lia.
  - apply bind_some in H as (tr1 & text & tr2 & _ & H & _).
    apply IH in H. rewrite accumulate_length in H.
    pose proof (step_line_length (str_of_nat n) (normalize text) []
                  empty_result) as Hl.
    rewrite <- ocr_page_single_line in Hl. simpl in Hl |- *. lia.
Qed.

(** X2. On the OCR path a page is scanned as one line, the cleaned text
    having no line break left: the page gives at most one row, the row of the
    first material code of the page, a code on a following line is never
    looked at, and a whole OCR pass returns at most as many rows as there are
    pages. *)
Theorem ocr_path_gives_one_row_per_page :
  (forall text n,
      ocr_page text n
      = step_line (str_of_nat n) (normalize text) [] empty_result) /\
  (forall text n, length (fst (ocr_page text n)) <= 1) /\
  (forall d tr res,
      native_text d = None ->
      extract_all_codes_from_pdf d = (tr, Some res) ->
      exists images,
        ocr_text d = Some images /\ length (fst res) <= length images).
Proof.
  split; [exact ocr_page_single_line|]. split.
  - intros text n. rewrite ocr_page_single_line.
    apply (step_line_length (str_of_nat n) (normalize text) [] empty_result).
  - intros d tr res Hn H. unfold extract_all_codes_from_pdf in H.
    unfold native_attempt in H. rewrite Hn in H.
    cbn [call bind try_except ret app] in H.
    unfold ocr_fallback in H.
    destruct (bind _ _) as [tr' b] eqn:E. injection H as _ ->.
    apply bind_some in E as (tr1 & images & tr2 & Hc & E & _).
    apply call_some in Hc as [Ho _]. exists images. split; [exact Ho|].
    apply ocr_pages_length in E. simpl in E. exact E.
Qed.

Lemma ocr_path_gives_one_row_per_page_witness :
  native_text (mkDocument None (Some [Some two_lines])) = None /\
  extract_all_codes_from_pdf (mkDocument None (Some [Some two_lines]))
    = ([OpenNative; Render 500; Ocr 1],
       Some ([mkRecord (lit "4") (lit "1Rfi2/3cm") (lit "1")],
             [(lit "4", 1)])) /\
  exists images,
    ocr_text (mkDocument None (Some [Some two_lines])) = Some images /\
    length [mkRecord (lit "4") (lit "1Rfi2/3cm") (lit "1")] <= length images.
Proof.
  split; [reflexivity|]. split; [vm_compute; reflexivity|].
  apply (proj2 (proj2 ocr_path_gives_one_row_per_page)
           (mkDocument None (Some [Some two_lines]))
           [OpenNative; Render 500; Ocr 1]
           ([mkRecord (lit "4") (lit "1Rfi2/3cm") (lit "1")],
            [(lit "4", 1)]));
    [reflexivity|vm_compute; reflexivity].
Defined.

(** ** The rows of a document *)

Lemma get_texts_some (pages : list (option str)) :
  forall i tr texts,
    get_texts i pages = (tr, Some texts) -> pages = map Some texts.
Proof.
  induction pages as [|p pages IH]; intros i tr texts H; cbn [get_texts] in H.
  - injection H as _ <-. reflexivity.
  - apply bind_some in H as (tr1 & t & tr2 & Hc & H & _).
    apply call_some in Hc as [-> _].
    apply bind_some in H as (tr3 & ts & tr4 & Hg & H & _).
    injection H as _ <-. rewrite (IH _ _ _ Hg). reflexivity.
Qed.

Lemma get_texts_none (pages : list (option str)) :
  In None pages -> forall i, snd (get_texts i pages) = None.
Proof.
  induction pages as [|p pages IH]; intros Hin i; [destruct Hin|].
  cbn [get_texts]. destruct p as [t|]; [|reflexivity].
  destruct Hin as [H|Hin]; [discriminate|].
  specialize (IH Hin (S i)). unfold bind, call.
  destruct (get_texts (S i) pages) as [tr [ts|]]; [discriminate|reflexivity].
Qed.

Lemma native_pages_some (pages : list (option str)) :
  forall n acc tr res,
    native_pages n pages acc = (tr, Some res) ->
    exists texts,
      pages = map Some texts /\
      fst res = fst acc ++ pages_rows native_page n texts.
Proof.
  induction pages as [|p pages IH]; intros n acc tr res H;
    cbn [native_pages] in H.
  - injection H as _ <-. exists []. simpl. rewrite app_nil_r. auto.
  - apply bind_some in H as (tr1 & text & tr2 & Hc & H & _).
    apply call_some in Hc as [-> _].
    apply IH in H as (texts & -> & ->). exists (text :: texts).
    split; [reflexivity|]. unfold accumulate. cbn [fst pages_rows].
    rewrite app_assoc. reflexivity.
Qed.

Lemma ocr_pages_some (images : list (option str)) :
  forall n acc tr res,
    ocr_pages n images acc = (tr, Some res) ->
    exists texts,
      images = map Some texts /\
      fst res = fst acc ++ pages_rows ocr_page n texts.
Proof.
  induction images as [|p images IH]; intros n acc tr res H;
    cbn [ocr_pages] in H.
  - injection H as _ <-. exists []. simpl. rewrite app_nil_r. auto.
  - apply bind_some in H as (tr1 & text & tr2 & Hc & H & _).
    apply call_some in Hc as [-> _].
    apply IH in H as (texts & -> & ->). exists (text :: texts).
    split; [reflexivity|]. unfold accumulate. cbn [fst pages_rows].
    rewrite app_assoc. reflexivity.
Qed.

Lemma ocr_pages_all (texts : list str) :
  forall n acc, exists tr res,
    ocr_pages n (map Some texts) acc = (tr, Some res).
Proof.
  induction texts as [|t texts IH]; intros n acc; cbn [map ocr_pages].
  - eexists _, _. reflexivity.
  - destruct (IH (S n) (accumulate acc (ocr_page t n))) as (tr & res & E).
    unfold bind, call. rewrite E. eexists _, _. reflexivity.
Qed.

Lemma ocr_pages_none (images : list (option str)) :
  In None images -> forall n acc, snd (ocr_pages n images acc) = None.
Proof.
  induction images as [|p images IH]; intros Hin n acc; [destruct Hin|].
  cbn [ocr_pages]. destruct p as [t|]; [|reflexivity].
  destruct Hin as [H|Hin]; [discriminate|].
  specialize (IH Hin (S n) (accumulate acc (ocr_page t n))).
  unfold bind, call. destruct (ocr_pages _ _ _) as [tr [r|]];
    [discriminate|reflexivity].
Qed.

Lemma driver_rows_cases :
  forall d tr res,
    extract_all_codes_from_pdf d = (tr, Some res) ->
    (exists texts,
        native_text d = Some (map Some texts) /\ ocr_calls tr = 0 /\
        ((collect_circle_codes (join_lines texts) = [] /\ fst res = []) \/
         (fst res = pages_rows native_page 1 texts /\ fst res <> []))) \/
    (exists images,
        ocr_text d = Some (map Some images) /\
        fst res = pages_rows ocr_page 1 images).
Proof.
  intros d tr res H.
  destruct (native_attempt d) as [tr0 [[res0|]|]] eqn:E.
  - left. destruct (native_rows_exclude_ocr d tr0 res0 E) as [H' Hq].
    rewrite H' in H. injection H as <- <-.
    unfold native_attempt in E.
    apply bind_some in E as (? & pages & ? & Hc & E & _).
    apply call_some in Hc as [Hn _].
    apply bind_some in E as (? & texts & ? & Hg & E & _).
    apply get_texts_some in Hg. subst pages.
    exists texts. split; [exact Hn|]. split; [exact Hq|].
    destruct (collect_circle_codes (join_lines texts)) eqn:Ec.
    + left. injection E as _ <-. auto.
    + right. apply bind_some in E as (? & res1 & ? & Hp & E & _).
      apply native_pages_some in Hp as (texts' & Ht & Hrows).
      apply (f_equal (map (fun o => match o with Some t => t | None => [] end)))
        in Ht. rewrite !map_map, !map_id in Ht. subst texts'.
      destruct (fst res1) eqn:E1; unfold ret in E; [discriminate|].
      injection E as _ <-. rewrite E1 in *. split; [exact Hrows|discriminate].
  - right. rewrite (no_native_rows_fall_back d tr0 (or_intror E)) in H.
    injection H as _ H.
    destruct (ocr_fallback d) as [tr' r] eqn:Eo. simpl in H. subst r.
    unfold ocr_fallback in Eo.
    apply bind_some in Eo as (? & images & ? & Hc & Eo & _).
    apply call_some in Hc as [Ho _].
    apply ocr_pages_some in Eo as (texts & -> & Hrows).
    exists texts. auto.
  - right. rewrite (no_native_rows_fall_back d tr0 (or_introl E)) in H.
    injection H as _ H.
    destruct (ocr_fallback d) as [tr' r] eqn:Eo. simpl in H. subst r.
    unfold ocr_fallback in Eo.
    apply bind_some in Eo as (? & images & ? & Hc & Eo & _).
    apply call_some in Hc as [Ho _].
    apply ocr_pages_some in Eo as (texts & -> & Hrows).
    exists texts. auto.
Qed.

(** X3. Whatever [extract_all_codes_from_pdf] returns comes from one source
    only.  Either the text layer was read in full, no OCR call was made, and
    the rows are those of the page extractor on the page texts, in page
    order (or there are none, the text holding no circle code); or the rows
    are those of the page extractor on the cleaned OCR texts of all the
    pages, in page order. *)
Theorem rows_come_from_one_source :
  forall d tr res,
    extract_all_codes_from_pdf d = (tr, Some res) ->
    (exists texts,
        native_text d = Some (map Some texts) /\ ocr_calls tr = 0 /\
        ((collect_circle_codes (join_lines texts) = [] /\ fst res = []) \/
         (fst res = pages_rows native_page 1 texts /\ fst res <> []))) \/
    (exists images,
        ocr_text d = Some (map Some images) /\
        fst res = pages_rows ocr_page 1 images).
Proof. exact driver_rows_cases. Qed.

Lemma rows_come_from_one_source_witness :
  extract_all_codes_from_pdf text_document
    = ([OpenNative; GetText 0; GetText 1; GetText 0; GetText 1],
       Some ([mkRecord (lit "UT7a") (lit "5Rfi12/8cm,L=3.5m") (lit "2")],
             [(lit "UT7a", 1)])) /\
  ((exists texts,
       native_text text_document = Some (map Some texts) /\
       ocr_calls [OpenNative; GetText 0; GetText 1; GetText 0; GetText 1] = 0 /\
       ((collect_circle_codes (join_lines texts) = [] /\
         [mkRecord (lit "UT7a") (lit "5Rfi12/8cm,L=3.5m") (lit "2")] = []) \/
        ([mkRecord (lit "UT7a") (lit "5Rfi12/8cm,L=3.5m") (lit "2")]
         = pages_rows native_page 1 texts /\
         [mkRecord (lit "UT7a") (lit "5Rfi12/8cm,L=3.5m") (lit "2")] <> []))) \/
   (exists images,
       ocr_text text_document = Some (map Some images) /\
       [mkRecord (lit "UT7a") (lit "5Rfi12/8cm,L=3.5m") (lit "2")]
       = pages_rows ocr_page 1 images)).
Proof.
  split; [vm_compute; reflexivity|].
  apply (rows_come_from_one_source text_document
           [OpenNative; GetText 0; GetText 1; GetText 0; GetText 1]
           ([mkRecord (lit "UT7a") (lit "5Rfi12/8cm,L=3.5m") (lit "2")],
            [(lit "UT7a", 1)])).
  vm_compute. reflexivity.
Defined.

(** X4. A failure of the text layer is never reported: when opening the
    document or reading one of its pages raises, the result is that of the
    OCR pass alone.  A failure of the OCR pass is: with no readable text
    layer, the driver returns exactly when the pages are rendered and every
    page is recognised, and raises otherwise. *)
Theorem text_layer_failures_are_absorbed :
  (forall d,
      native_text d = None \/
      (exists pages, native_text d = Some pages /\ In None pages) ->
      exists tr,
        ocr_calls tr = 0 /\
        extract_all_codes_from_pdf d
        = (tr ++ fst (ocr_fallback d), snd (ocr_fallback d))) /\
  (forall d,
      native_text d = None ->
      (snd (extract_all_codes_from_pdf d) <> None <->
       exists texts, ocr_text d = Some (map Some texts))).
Proof.
  assert (Absorb : forall d,
      native_text d = None \/
      (exists pages, native_text d = Some pages /\ In None pages) ->
      exists tr,
        ocr_calls tr = 0 /\
        extract_all_codes_from_pdf d
        = (tr ++ fst (ocr_fallback d), snd (ocr_fallback d))).
  { intros d Hfail.
    assert (E : snd (native_attempt d) = None).
    { unfold native_attempt.
      destruct Hfail as [Hn|(pages & Hn & Hin)]; rewrite Hn; [reflexivity|].
      unfold call at 1. cbn [bind].
      pose proof (get_texts_none pages Hin 0) as Hg.
      destruct (get_texts 0 pages) as [tr [ts|]]; [discriminate|reflexivity]. }
    pose proof (native_attempt_quiet d) as Hq.
    destruct (native_attempt d) as [tr0 o] eqn:Ea. simpl in E, Hq. subst o.
    exists tr0. split; [exact Hq|].
    apply no_native_rows_fall_back. left. exact Ea. }
  split; [exact Absorb|].
  intros d Hn. destruct (Absorb d (or_introl Hn)) as (tr & _ & ->).
  cbn [snd]. unfold ocr_fallback, bind, call.
  destruct (ocr_text d) as [images|]; cbn [snd].
  - split.
    + intros H.
      destruct (ocr_pages 1 images empty_result) as [tr' [res|]] eqn:E;
        [|simpl in H; congruence].
      apply ocr_pages_some in E as (texts & -> & _). exists texts. reflexivity.
    + intros (texts & E). injection E as ->.
      destruct (ocr_pages_all texts 1 empty_result) as (tr' & res & ->).
      discriminate.
  - split; [congruence|]. intros (texts & E). discriminate.
Qed.

Lemma text_layer_failures_are_absorbed_witness :
  (native_text (mkDocument (Some [Some (lit "T1"); None])
                  (Some [Some (lit "1Rfi2/3cm T1")])) = None \/
   exists pages,
     native_text (mkDocument (Some [Some (lit "T1"); None])
                    (Some [Some (lit "1Rfi2/3cm T1")])) = Some pages /\
     In None pages) /\
  (exists tr,
    ocr_calls tr = 0 /\
    extract_all_codes_from_pdf
      (mkDocument (Some [Some (lit "T1"); None])
         (Some [Some (lit "1Rfi2/3cm T1")]))
    = (tr ++ fst (ocr_fallback
                    (mkDocument (Some [Some (lit "T1"); None])
                       (Some [Some (lit "1Rfi2/3cm T1")]))),
       snd (ocr_fallback
              (mkDocument (Some [Some (lit "T1"); None])
                 (Some [Some (lit "1Rfi2/3cm T1")]))))) /\
  (native_text (mkDocument None (Some [Some two_lines; None])) = None /\
   (snd (extract_all_codes_from_pdf
           (mkDocument None (Some [Some two_lines; None]))) <> None <->
    exists texts,
      ocr_text (mkDocument None (Some [Some two_lines; None]))
      = Some (map Some texts))).
Proof.
  assert (H : native_text (mkDocument (Some [Some (lit "T1"); None])
                  (Some [Some (lit "1Rfi2/3cm T1")])) = None \/
   exists pages,
     native_text (mkDocument (Some [Some (lit "T1"); None])
                    (Some [Some (lit "1Rfi2/3cm T1")])) = Some pages /\
     In None pages).
  { right. exists [Some (lit "T1"); None]. split; [reflexivity|].
    right. left. reflexivity. }
  split; [exact H|].
  split; [exact (proj1 text_layer_failures_are_absorbed _ H)|].
  split; [reflexivity|].
  exact (proj2 text_layer_failures_are_absorbed
           (mkDocument None (Some [Some two_lines; None])) eq_refl).
Defined.

(** ** [extract_materials] and a text layer that fails part way *)

Lemma materials_native_pages_rows (texts : list str) :
  forall n tail target acc,
    tail = [] \/ (exists rest, tail = None :: rest) ->
    fst (snd (materials_native_pages n (map Some texts ++ tail) target acc))
    = fst acc ++ pages_rows native_page (n + 1) texts.
Proof.
  induction texts as [|t texts IH]; intros n tail target acc Htail.
  - cbn [map app pages_rows]. rewrite app_nil_r.
    destruct Htail as [->|(rest & ->)]; reflexivity.
  - cbn [map app materials_native_pages pages_rows].
    specialize (IH (S n) tail target
                  (accumulate acc
                     (extract_all_codes t target (str_of_nat (n + 1)))) Htail).
    destruct (materials_native_pages _ _ _ _) as [tr res].
    cbn [snd] in *. rewrite IH. unfold accumulate. cbn [fst].
    rewrite <- app_assoc. reflexivity.
Qed.

(** X5. [extract_materials] keeps what it read before a failure: when a page
    of the text layer cannot be read but the pages before it gave rows, the
    result is those rows, whatever the target circle codes, no OCR call is
    made and nothing is raised; the pages after the failing one are not
    read. *)
Theorem extract_materials_keeps_rows_read_before_a_failure :
  forall d target texts rest,
    native_text d = Some (map Some texts ++ None :: rest) ->
    pages_rows native_page 1 texts <> [] ->
    exists tr res,
      extract_materials d target = (tr, Some res) /\
      fst res = pages_rows native_page 1 texts /\
      ocr_calls tr = 0 /\
      length tr = length texts + 2.
Proof.
  intros d target texts rest Hn Hrows.
  destruct (extract_materials_fallback d target) as (Hq & Hkeep & _).
  assert (Hl : forall n tail acc,
             length (fst (materials_native_pages n
                            (map Some texts ++ None :: tail) target acc))
             = length texts + 1).
  { clear. induction texts as [|t ts IH]; intros n tail acc; [reflexivity|].
    cbn [map app materials_native_pages].
    specialize (IH (S n) tail
      (accumulate acc (extract_all_codes t target (str_of_nat (n + 1))))).
    destruct (materials_native_pages _ _ _ _) as [tr res].
    cbn [fst length] in *. rewrite IH. reflexivity. }
  pose proof (materials_native_pages_rows texts 0 (None :: rest) target
                empty_result (or_intror (ex_intro _ rest eq_refl))) as Hr.
  specialize (Hl 0 rest empty_result).
  unfold materials_native in *. rewrite Hn in *.
  destruct (materials_native_pages 0 _ target empty_result) as [tr res].
  cbn [fst snd] in *. exists (OpenNative :: tr), res.
  rewrite Hr in Hkeep. rewrite (Hkeep Hrows).
  repeat split; [exact Hr|exact Hq|]. cbn [length]. rewrite Hl. lia.
Qed.

Lemma extract_materials_keeps_rows_read_before_a_failure_witness :
  native_text (mkDocument (Some [Some (lit "1Rfi2/3cm T1"); None; Some []])
                 None)
  = Some (map Some [lit "1Rfi2/3cm T1"] ++ None :: [Some []]) /\
  pages_rows native_page 1 [lit "1Rfi2/3cm T1"] <> [] /\
  exists tr res,
    extract_materials
      (mkDocument (Some [Some (lit "1Rfi2/3cm T1"); None; Some []]) None)
      [lit "T9"] = (tr, Some res) /\
    fst res = pages_rows native_page 1 [lit "1Rfi2/3cm T1"] /\
    ocr_calls tr = 0 /\
    length tr = length [lit "1Rfi2/3cm T1"] + 2.
Proof.
  split; [reflexivity|]. split; [vm_compute; discriminate|].
  apply (extract_materials_keeps_rows_read_before_a_failure
           (mkDocument (Some [Some (lit "1Rfi2/3cm T1"); None; Some []]) None)
           [lit "T9"] [lit "1Rfi2/3cm T1"] [Some []]);
    [reflexivity|vm_compute; discriminate].
Defined.

(** ** Page numbers *)

Lemma step_line_page (pg l : str) (following : list str) (acc : result) :
  Forall (fun r => page r = pg) (fst acc) ->
  Forall (fun r => page r = pg) (fst (step_line pg l following acc)).
Proof.
  intros H.
  destruct (step_line_rows pg l following acc)
    as [->|(pre & raw & post & circle & _ & _ & ->)]; [exact H|].
  apply Forall_app. split; [exact H|]. constructor; [reflexivity|constructor].
Qed.

Lemma scan_lines_page (pg : str) (lines : list str) :
  forall acc,
    Forall (fun r => page r = pg) (fst acc) ->
    Forall (fun r => page r = pg) (fst (scan_lines pg lines acc)).
Proof.
  induction lines as [|l following IH]; intros acc H; [exact H|].
  cbn [scan_lines]. apply IH, step_line_page, H.
Qed.

Lemma extract_all_codes_page (text : str) (target : list str) (pg : str) :
  Forall (fun r => page r = pg) (fst (extract_all_codes text target pg)).
Proof. apply scan_lines_page. constructor. Qed.

Lemma in_pages_rows (extract : str -> nat -> result) (r : record)
  (texts : list str) :
  forall n,
    In r (pages_rows extract n texts) ->
    exists i text,
      nth_error texts i = Some text /\ In r (fst (extract text (n + i))).
Proof.
  induction texts as [|t texts IH]; intros n H; [destruct H|].
  cbn [pages_rows] in H. apply in_app_or in H as [H|H].
  - exists 0, t. rewrite Nat.add_0_r. auto.
  - apply IH in H as (i & text & Hi & Hr). exists (S i), text.
    rewrite Nat.add_succ_r. auto.
Qed.

(** X6. The [Page] of a row is the page it was read from: a row of
    [extract_all_codes] carries the page label it was given, and each row of
    [extract_all_codes_from_pdf] is a row of the extraction of one page of
    the text layer, or of the cleaned OCR text of one page, labelled with the
    decimal numeral of that page's number, counted from one. *)
Theorem rows_carry_their_page_number :
  (forall text target pg r,
      In r (fst (extract_all_codes text target pg)) -> page r = pg) /\
  (forall d tr res r,
      extract_all_codes_from_pdf d = (tr, Some res) ->
      In r (fst res) ->
      exists i text,
        page r = str_of_nat (i + 1) /\
        ((exists pages, native_text d = Some pages /\
                        nth_error pages i = Some (Some text) /\
                        In r (fst (native_page text (i + 1)))) \/
         (exists images, ocr_text d = Some images /\
                         nth_error images i = Some (Some text) /\
                         In r (fst (ocr_page text (i + 1)))))).
Proof.
  assert (Hpage : forall text target pg r,
             In r (fst (extract_all_codes text target pg)) -> page r = pg).
  { intros text target pg r Hr.
    pose proof (extract_all_codes_page text target pg) as H.
    rewrite Forall_forall in H. apply H, Hr. }
  split; [exact Hpage|].
  intros d tr res r H Hr.
  destruct (driver_rows_cases d tr res H)
    as [(texts & Hn & _ & [[_ E]|[E _]])|(images & Ho & E)];
    rewrite E in Hr; [destruct Hr| |];
    apply in_pages_rows in Hr as (i & text & Hi & Hr);
    rewrite Nat.add_comm in Hr; exists i, text.
  - split; [exact (Hpage text [] _ r Hr)|]. left. exists (map Some texts).
    split; [exact Hn|]. split; [|exact Hr].
    rewrite nth_error_map, Hi. reflexivity.
  - split; [exact (Hpage (clean_ocr_text text) [] _ r Hr)|]. right.
    exists (map Some images).
    split; [exact Ho|]. split; [|exact Hr].
    rewrite nth_error_map, Hi. reflexivity.
Qed.

Lemma rows_carry_their_page_number_witness :
  (In (mkRecord (lit "UT7a") (lit "5Rfi12/8cm,L=3.5m") (lit "2"))
      (fst (extract_all_codes
              (lit "5Rfi12/8cm,L=3.5m' UT7a") [] (lit "2"))) /\
   page (mkRecord (lit "UT7a") (lit "5Rfi12/8cm,L=3.5m") (lit "2")) = lit "2") /\
  (extract_all_codes_from_pdf text_document
   = ([OpenNative; GetText 0; GetText 1; GetText 0; GetText 1],
      Some ([mkRecord (lit "UT7a") (lit "5Rfi12/8cm,L=3.5m") (lit "2")],
            [(lit "UT7a", 1)])) /\
   exists i text,
     page (mkRecord (lit "UT7a") (lit "5Rfi12/8cm,L=3.5m") (lit "2"))
     = str_of_nat (i + 1) /\
     ((exists pages,
          native_text text_document = Some pages /\
          nth_error pages i = Some (Some text) /\
          In (mkRecord (lit "UT7a") (lit "5Rfi12/8cm,L=3.5m") (lit "2"))
             (fst (native_page text (i + 1)))) \/
      (exists images,
          ocr_text text_document = Some images /\
          nth_error images i = Some (Some text) /\
          In (mkRecord (lit "UT7a") (lit "5Rfi12/8cm,L=3.5m") (lit "2"))
             (fst (ocr_page text (i + 1)))))).
Proof.
  assert (H : In (mkRecord (lit "UT7a") (lit "5Rfi12/8cm,L=3.5m") (lit "2"))
     (fst (extract_all_codes
             (lit "5Rfi12/8cm,L=3.5m' UT7a") [] (lit "2")))).
  { vm_compute. left. reflexivity. }
  split; [split; [exact H|exact (proj1 rows_carry_their_page_number _ _ _ _ H)]|].
  assert (E : extract_all_codes_from_pdf text_document
   = ([OpenNative; GetText 0; GetText 1; GetText 0; GetText 1],
      Some ([mkRecord (lit "UT7a") (lit "5Rfi12/8cm,L=3.5m") (lit "2")],
            [(lit "UT7a", 1)]))).
  { vm_compute. reflexivity. }
  split; [exact E|].
  apply (proj2 rows_carry_their_page_number text_document _ _ _ E).
  left. reflexivity.
Defined.

(** ** Every match of a pattern *)

Lemma findall_from_sound (r : regex) (m : str) :
  forall s skip prev,
    In m (findall_from r skip prev s) ->
    m <> [] /\ den r m /\ part_of m s.
Proof.
  induction s as [|c t IH]; intros skip prev H; [destruct H|].
  assert (Later : forall k p, In m (findall_from r k p t) ->
                     m <> [] /\ den r m /\ part_of m (c :: t)).
  { intros k p Hin. apply IH in Hin as (Hne & Hm & pre & post & ->).
    repeat split; auto. exists (c :: pre), post. reflexivity. }
  cbn [findall_from] in H. destruct skip as [|k]; [|eapply Later; exact H].
  destruct (run r (prev, c :: t)) as [|[q rest] l] eqn:E;
    [eapply Later; exact H|].
  destruct (length (c :: t) - length rest) as [|k] eqn:El;
    [eapply Later; exact H|].
  destruct H as [<-|H]; [|eapply Later; exact H].
  destruct (run_head r _ _ _ _ E) as (m & Hs & Hm & Hc). cbn [snd] in *.
  rewrite Hc. split; [|split; [exact Hm|]].
  - intros ->. simpl in Hs. subst rest. rewrite Nat.sub_diag in El.
    discriminate.
  - exists [], rest. exact Hs.
Qed.

Lemma in_dedup (x : str) (l : list str) : In x (dedup l) <-> In x l.
Proof.
  induction l as [|y l IH]; simpl; [tauto|].
  destruct (existsb (str_eqb y) l) eqn:E.
  - rewrite IH. split; [tauto|]. intros [<-|H]; [|exact H].
    apply existsb_exists in E as (z & Hz & E). apply str_eqb_eq in E.
    subst z. exact Hz.
  - simpl. rewrite IH. tauto.
Qed.

Lemma NoDup_dedup (l : list str) : NoDup (dedup l).
Proof.
  induction l as [|y l IH]; simpl; [constructor|].
  destruct (existsb (str_eqb y) l) eqn:E; [exact IH|].
  constructor; [|exact IH]. rewrite in_dedup. intros Hin.
  assert (existsb (str_eqb y) l = true); [|congruence].
  apply existsb_exists. exists y. split; [exact Hin|apply str_eqb_refl].
Qed.

Lemma rstrip_by_prefix (f : char -> bool) (s : str) :
  exists dropped, s = rstrip_by f s ++ dropped.
Proof.
  induction s as [|c t [dropped IH]]; [exists []; reflexivity|].
  simpl. destruct (rstrip_by f t) as [|c' t'] eqn:E.
  - destruct (f c).
    + exists (c :: t). reflexivity.
    + exists dropped. simpl. rewrite IH at 1. reflexivity.
  - exists dropped. simpl. rewrite IH at 1. reflexivity.
Qed.

(** X7. [extract_all_materials] lists each material code once, and each code
    it lists is the canonical form of a part of the text that the material
    pattern matches: a text of the grammar without white space or trailing
    apostrophe, which itself stands in the text. *)
Theorem all_materials_are_codes_of_the_text :
  forall text,
    NoDup (extract_all_materials text) /\
    forall m,
      In m (extract_all_materials text) ->
      grammatical_code m /\ part_of m text /\
      exists raw,
        den material_pattern raw /\ part_of raw text /\ m = canonical raw.
Proof.
  intros text. unfold extract_all_materials.
  split; [apply NoDup_dedup|].
  intros m H. apply in_dedup, in_map_iff in H as (raw & <- & H).
  apply findall_from_sound in H as (_ & Hraw & pre & post & Htext).
  split; [exact (canonical_grammatical raw Hraw)|].
  split; [|exists raw; repeat split; [exact Hraw|exists pre, post; exact Htext]].
  pose proof (den_classes not_space material_pattern
                material_pattern_no_space raw Hraw) as Hn.
  rewrite (canonical_no_space raw Hn).
  destruct (rstrip_by_prefix (char_eqb (chr "'")) raw) as [dropped E].
  exists pre, (dropped ++ post). rewrite Htext, E at 1.
  rewrite <- !app_assoc. reflexivity.
Qed.

Lemma all_materials_are_codes_of_the_text_witness :
  In (lit "4Rfi5/6cm,L=2m")
     (extract_all_materials
        (lit "1Rfi2/3cm 4Rfi5/6cm,L=2m' 1Rfi2/3cm")) /\
  grammatical_code (lit "4Rfi5/6cm,L=2m") /\
  part_of (lit "4Rfi5/6cm,L=2m") (lit "1Rfi2/3cm 4Rfi5/6cm,L=2m' 1Rfi2/3cm").
Proof.
  assert (H : In (lit "4Rfi5/6cm,L=2m")
     (extract_all_materials
        (lit "1Rfi2/3cm 4Rfi5/6cm,L=2m' 1Rfi2/3cm"))).
  { vm_compute. left. reflexivity. }
  split; [exact H|].
  destruct (proj2 (all_materials_are_codes_of_the_text _) _ H)
    as (Hg & Hp & _).
  exact (conj Hg Hp).
Defined.

(** ** Texts without digits *)

Lemma material_starts_with_digit (m : str) :
  den material_pattern m -> exists c t, m = c :: t /\ is_digit c = true.
Proof.
  intros H. apply material_pattern_forms in H.
  assert (Hd : exists x y, m = x ++ y /\ int_ x).
  { destruct H as [H|H]; cbn in H;
      destruct H as (x & y & -> & Hx & _); exists x, y; auto. }
  destruct Hd as (x & y & -> & Hne & Hx).
  destruct x as [|c x]; [congruence|]. inversion Hx; subst.
  exists c, (x ++ y). auto.
Qed.

Lemma digit_free_no_material (m s : str) :
  den material_pattern m -> part_of m s -> ~ digit_free s.
Proof.
  intros Hm (pre & post & ->) Hs.
  apply material_starts_with_digit in Hm as (c & t & -> & Hc).
  apply Forall_app in Hs as [_ Hs]. inversion Hs; subst. congruence.
Qed.

Lemma step_line_digit_free (pg l : str) (following : list str)
  (acc : result) :
  digit_free l -> step_line pg l following acc = acc.
Proof.
  intros Hl. unfold step_line.
  destruct (is_empty (py_strip l)); [reflexivity|].
  destruct (re_search material_pattern (py_strip l))
    as [[[pre m] post]|] eqn:E; [|reflexivity].
  apply re_search_some in E as (Hs & Hm & _). exfalso.
  apply (digit_free_no_material m (py_strip l) Hm).
  - exists pre, post. exact Hs.
  - apply Forall_forall. intros x Hx. apply in_py_strip in Hx.
    unfold digit_free in Hl. rewrite Forall_forall in Hl. auto.
Qed.

Lemma in_split_lines (x : char) (s : str) :
  forall l, In l (split_lines s) -> In x l -> In x s.
Proof.
  induction s as [|c t IH]; intros l Hl Hx; simpl in Hl.
  - destruct Hl as [<-|[]]. exact Hx.
  - destruct (char_eqb c newline).
    + destruct Hl as [<-|Hl]; [destruct Hx|]. right. eapply IH; eauto.
    + destruct (split_lines t) as [|l0 ls].
      * destruct Hl as [<-|[]]. destruct Hx as [->|[]]. left. reflexivity.
      * destruct Hl as [<-|Hl].
        -- destruct Hx as [->|Hx]; [left; reflexivity|].
           right. apply (IH l0); [left; reflexivity|exact Hx].
        -- right. apply (IH l); [right; exact Hl|exact Hx].
Qed.

Lemma scan_lines_digit_free (pg : str) (lines : list str) :
  forall acc, Forall digit_free lines -> scan_lines pg lines acc = acc.
Proof.
  induction lines as [|l following IH]; intros acc H; [reflexivity|].
  inversion H; subst. cbn [scan_lines].
  rewrite step_line_digit_free by assumption. apply IH. assumption.
Qed.

Lemma extract_all_codes_digit_free (text : str) (target : list str)
  (pg : str) :
  digit_free text -> extract_all_codes text target pg = ([], []).
Proof.
  intros H. unfold extract_all_codes. apply scan_lines_digit_free.
  apply Forall_forall. intros l Hl. apply Forall_forall. intros x Hx.
  pose proof (in_split_lines x _ l Hl Hx) as Hin.
  unfold digit_free in H. rewrite Forall_forall in H.
  unfold re_sub, re_sub_with in Hin.
  apply sub_from_chars in Hin as [Hin|(m & [])].
  apply sub_from_chars in Hin as [Hin|(m & [<-|[]])]; [auto|reflexivity].
Qed.

Lemma clean_ocr_text_chars (x : char) (text : str) :
  In x (clean_ocr_text text) -> In x text \/ In x (lit "filcm.L=,' ").
Proof.
  unfold clean_ocr_text. intros H. apply in_py_strip in H.
  apply sub_from_chars in H as [H|(m & H)].
  - unfold noise_pattern in H. rewrite re_sub_class_delete in H.
    apply filter_In in H as [H _].
    apply apply_replacements_chars in H as [H|(wr & Hwr & H)];
      [left; exact H|].
    right. unfold replacements in Hwr. simpl in Hwr.
    repeat (destruct Hwr as [<-|Hwr];
            [simpl in H; simpl; tauto|]).
    destruct Hwr.
  - right. destruct H as [<-|[]]. simpl. tauto.
Qed.

Lemma clean_ocr_text_digit_free (text : str) :
  digit_free text -> digit_free (clean_ocr_text text).
Proof.
  unfold digit_free. rewrite !Forall_forall. intros H x Hx.
  apply clean_ocr_text_chars in Hx as [Hx|Hx]; [auto|].
  simpl in Hx.
  repeat (destruct Hx as [<-|Hx]; [vm_compute; reflexivity|]).
  destruct Hx.
Qed.

Lemma pages_rows_nil (extract : str -> nat -> result) (texts : list str) :
  forall n,
    (forall t k, In t texts -> fst (extract t k) = []) ->
    pages_rows extract n texts = [].
Proof.
  induction texts as [|t texts IH]; intros n H; [reflexivity|].
  cbn [pages_rows]. rewrite (H t n (or_introl eq_refl)).
  apply IH. intros t' k Hin. apply H. right. exact Hin.
Qed.

(** X8. Without a decimal digit there is no material: a text that holds no
    decimal digit gives no row and no count, by the page extractor directly
    or after the OCR cleaning, and no material code to
    [extract_all_materials]; and a document none of whose page texts, of the
    text layer or of the OCR, holds a decimal digit gives
    [extract_all_codes_from_pdf] an empty result. *)
Theorem no_digit_no_material :
  (forall text,
      digit_free text ->
      (forall target pg, extract_all_codes text target pg = ([], [])) /\
      (forall n, ocr_page text n = ([], [])) /\
      extract_all_materials text = []) /\
  (forall d tr res,
      extract_all_codes_from_pdf d = (tr, Some res) ->
      (forall pages t,
          native_text d = Some pages -> In (Some t) pages -> digit_free t) ->
      (forall images t,
          ocr_text d = Some images -> In (Some t) images -> digit_free t) ->
      res = ([], [])).
Proof.
  split.
  - intros text H. split; [|split].
    + intros target pg. apply extract_all_codes_digit_free, H.
    + intros n. apply extract_all_codes_digit_free,
        clean_ocr_text_digit_free, H.
    + unfold extract_all_materials.
      destruct (re_findall material_pattern text) as [|m l] eqn:E;
        [reflexivity|].
      assert (Hin : In m (re_findall material_pattern text))
        by (rewrite E; left; reflexivity).
      apply findall_from_sound in Hin as (_ & Hm & Hp).
      destruct (digit_free_no_material m text Hm Hp H).
  - intros d tr res H Hnat Hocr.
    assert (Hrows : fst res = []).
    { destruct (driver_rows_cases d tr res H)
        as [(texts & Hn & _ & [[_ E]|[E _]])|(images & Ho & E)];
        [exact E| |]; rewrite E; apply pages_rows_nil; intros t k Hin.
      - unfold native_page. rewrite extract_all_codes_digit_free;
          [reflexivity|].
        apply (Hnat _ t Hn). apply in_map. exact Hin.
      - unfold ocr_page. rewrite extract_all_codes_digit_free;
          [reflexivity|].
        apply clean_ocr_text_digit_free, (Hocr _ t Ho). apply in_map.
        exact Hin. }
    assert (Hr : recounted res).
    { revert H. apply extract_all_codes_from_pdf_inv;
        [exact recounted_empty|exact recounted_extract_all_codes
        |exact recounted_accumulate]. }
    unfold recounted in Hr. rewrite Hrows in Hr.
    destruct res as [rows cnt]. simpl in *. subst. reflexivity.
Qed.

Lemma no_digit_no_material_witness :
  (digit_free (lit "Rfi/cm,L=.m' T") /\
   extract_all_codes (lit "Rfi/cm,L=.m' T") [] (lit "1") = ([], []) /\
   extract_all_materials (lit "Rfi/cm,L=.m' T") = []) /\
  (extract_all_codes_from_pdf
     (mkDocument (Some [Some (lit "T")]) (Some [Some (lit "Rfi T")]))
   = ([OpenNative; GetText 0; GetText 0; Render 500; Ocr 1], Some ([], [])) /\
   @pair (list record) counts [] [] = ([], [])).
Proof.
  assert (H : digit_free (lit "Rfi/cm,L=.m' T")).
  { unfold digit_free. apply Forall_forall. intros x Hx. simpl in Hx.
    repeat (destruct Hx as [<-|Hx]; [vm_compute; reflexivity|]).
    destruct Hx. }
  split.
  - split; [exact H|].
    destruct (proj1 no_digit_no_material _ H) as (Hc & _ & Hm).
    split; [apply Hc|exact Hm].
  - assert (E : extract_all_codes_from_pdf
        (mkDocument (Some [Some (lit "T")]) (Some [Some (lit "Rfi T")]))
      = ([OpenNative; GetText 0; GetText 0; Render 500; Ocr 1],
         Some ([], []))) by (vm_compute; reflexivity).
    split; [exact E|].
    apply (proj2 no_digit_no_material _ _ _ E).
    + intros pages t Hp Hin. injection Hp as <-.
      destruct Hin as [Hin|[]]. injection Hin as <-.
      repeat constructor.
    + intros images t Hp Hin. injection Hp as <-.
      destruct Hin as [Hin|[]]. injection Hin as <-.
      repeat constructor.
Defined.

(** ** Splitting at a separator *)

Lemma find_sub_eq (sep s : str) :
  find_sub sep s =
  if starts_with sep s then Some ([], skipn (length sep) s)
  else match s with
       | [] => None
       | c :: t =>
           match find_sub sep t with
           | Some (a, b) => Some (c :: a, b)
           | None => None
           end
       end.
Proof. destruct s; reflexivity. Qed.

Lemma find_sub_some (sep : str) :
  forall s a b, find_sub sep s = Some (a, b) -> s = a ++ sep ++ b.
Proof.
  induction s as [|c t IH]; intros a b H; rewrite find_sub_eq in H;
    destruct (starts_with sep _) eqn:E.
  - injection H as <- <-. apply starts_with_spec. exact E.
  - discriminate.
  - injection H as <- <-. apply starts_with_spec. exact E.
  - destruct (find_sub sep t) as [[a' b']|]; [|discriminate].
    injection H as <- <-. simpl. f_equal. apply IH. reflexivity.
Qed.

(** The first occurrence of a separator is found after a text that does not
    hold the separator's first character. *)
Lemma find_sub_first (x : char) (sep : str) (b : str) :
  forall a, ~ In x a ->
    find_sub (x :: sep) (a ++ (x :: sep) ++ b) = Some (a, b).
Proof.
  induction a as [|c a IH]; intros Ha; rewrite find_sub_eq.
  - cbn [app]. change (x :: sep ++ b) with ((x :: sep) ++ b).
    rewrite starts_with_app. rewrite skipn_app, skipn_all, Nat.sub_diag.
    reflexivity.
  - change ((c :: a) ++ (x :: sep) ++ b) with (c :: (a ++ (x :: sep) ++ b)).
    cbn [starts_with].
    replace (char_eqb x c) with false.
    + cbn [andb]. rewrite IH; [reflexivity|].
      intros H. apply Ha. right. exact H.
    + symmetry. apply N.eqb_neq. intros ->. apply Ha. left. reflexivity.
Qed.

Lemma find_sub_absent (x : char) (sep : str) :
  forall s, ~ In x s -> find_sub (x :: sep) s = None.
Proof.
  induction s as [|c t IH]; intros Hs; [reflexivity|].
  rewrite find_sub_eq. cbn [starts_with].
  replace (char_eqb x c) with false.
  - cbn [andb]. rewrite IH; [reflexivity|].
    intros H. apply Hs. right. exact H.
  - symmetry. apply N.eqb_neq. intros ->. apply Hs. left. reflexivity.
Qed.

Lemma find_sub_char_some (x : char) :
  forall s a b, find_sub [x] s = Some (a, b) -> ~ In x a.
Proof.
  induction s as [|c t IH]; intros a b H; [discriminate|].
  rewrite find_sub_eq in H. cbn [starts_with] in H.
  destruct (char_eqb x c) eqn:E; cbn [andb] in H.
  - injection H as <- _. intros [].
  - destruct (find_sub [x] t) as [[a' b']|] eqn:Et; [|discriminate].
    injection H as <- _. intros [->|Hin].
    + unfold char_eqb in E. rewrite N.eqb_refl in E. discriminate.
    + exact (IH a' b' eq_refl Hin).
Qed.

Lemma find_sub_char_none (x : char) :
  forall s, find_sub [x] s = None -> ~ In x s.
Proof.
  induction s as [|c t IH]; intros H; [intros []|].
  rewrite find_sub_eq in H. cbn [starts_with] in H.
  destruct (char_eqb x c) eqn:E; cbn [andb] in H; [discriminate|].
  destruct (find_sub [x] t) as [[a' b']|]; [discriminate|].
  intros [->|Hin].
  - unfold char_eqb in E. rewrite N.eqb_refl in E. discriminate.
  - exact (IH eq_refl Hin).
Qed.

Lemma split_upto_pieces (x : char) :
  forall n s p, length s <= n -> In p (split_upto n [x] s) -> ~ In x p.
Proof.
  induction n as [|n IH]; intros s p Hlen Hp.
  - destruct s; [|simpl in Hlen; lia]. destruct Hp as [<-|[]]. intros [].
  - cbn [split_upto] in Hp.
    destruct (find_sub [x] s) as [[a b]|] eqn:E.
    + destruct Hp as [<-|Hp]; [exact (find_sub_char_some x s _ b E)|].
      apply (IH b); [|exact Hp].
      apply find_sub_some in E. rewrite E in Hlen.
      rewrite !length_app in Hlen. simpl in Hlen. lia.
    + destruct Hp as [<-|[]]. apply find_sub_char_none. exact E.
Qed.

Lemma join_commas_cons (c c' : str) (cs : list str) :
  join_commas (c :: c' :: cs) = c ++ chr "," :: join_commas (c' :: cs).
Proof. reflexivity. Qed.

Lemma split_join_commas :
  forall cs c n,
    length cs <= n -> Forall (fun c => ~ In (chr ",") c) (c :: cs) ->
    split_upto n (lit ",") (join_commas (c :: cs)) = c :: cs.
Proof.
  induction cs as [|c' cs IH]; intros c n Hlen Hc.
  - inversion Hc; subst. simpl. rewrite app_nil_r.
    destruct n; [reflexivity|]. cbn [split_upto].
    change (lit ",") with [chr ","].
    rewrite find_sub_absent by assumption. reflexivity.
  - inversion Hc; subst. destruct n as [|n]; [simpl in Hlen; lia|].
    rewrite join_commas_cons. cbn [split_upto].
    change (lit ",") with [chr ","].
    change (c ++ chr "," :: join_commas (c' :: cs))
      with (c ++ [chr ","] ++ join_commas (c' :: cs)).
    rewrite find_sub_first by assumption.
    change [chr ","] with (lit ",").
    rewrite IH; [reflexivity|simpl in Hlen; lia|assumption].
Qed.

Lemma length_join_commas (cs : list str) (c : str) :
  length cs <= length (join_commas (c :: cs)).
Proof.
  revert c. induction cs as [|c' cs IH]; intros c; [simpl; lia|].
  rewrite join_commas_cons, length_app. cbn [length].
  specialize (IH c'). lia.
Qed.

(** ** Trimming *)

Lemma rstrip_by_keep (f : char -> bool) (c : char) (t : str) :
  f c = false -> rstrip_by f (c :: t) = c :: rstrip_by f t.
Proof. intros E. simpl. rewrite E. destruct (rstrip_by f t); reflexivity. Qed.

Lemma starts_clean_rstrip (s : str) :
  starts_clean s -> starts_clean (rstrip_by is_space s).
Proof.
  destruct s as [|c t]; [trivial|]. intros E. simpl in E.
  rewrite rstrip_by_keep by exact E. exact E.
Qed.

Lemma py_strip_idem (s : str) : py_strip (py_strip s) = py_strip s.
Proof.
  unfold py_strip.
  rewrite (lstrip_starts_clean _
             (starts_clean_rstrip _ (starts_clean_lstrip s))).
  apply rstrip_by_idem.
Qed.

Lemma length_rstrip_by (f : char -> bool) (s : str) :
  length (rstrip_by f s) <= length s.
Proof.
  induction s as [|c t IH]; simpl; [lia|].
  destruct (rstrip_by f t); [destruct (f c)|]; simpl in *; lia.
Qed.

(** A non-empty text that trimming leaves unchanged starts and ends with a
    character that is not white space. *)
Lemma stripped_starts_clean (s : str) : py_strip s = s -> starts_clean s.
Proof.
  intros H. destruct s as [|c t]; [exact I|]. simpl.
  destruct (is_space c) eqn:E; [|reflexivity].
  assert (Hl : length (py_strip (c :: t)) <= length t).
  { unfold py_strip. cbn [lstrip_by]. rewrite E.
    pose proof (length_rstrip_by is_space (lstrip_by is_space t)).
    pose proof (length_lstrip_by is_space t). lia. }
  rewrite H in Hl. simpl in Hl. lia.
Qed.

Lemma stripped_rstrip (s : str) :
  py_strip s = s -> rstrip_by is_space s = s.
Proof.
  intros H. pose proof (stripped_starts_clean s H) as Hc.
  unfold py_strip in H. rewrite (lstrip_starts_clean s Hc) in H. exact H.
Qed.

Lemma clean_ends_py_strip (s : str) :
  starts_clean s -> rstrip_by is_space s = s -> py_strip s = s.
Proof.
  intros Hc Hr. unfold py_strip. rewrite (lstrip_starts_clean s Hc). exact Hr.
Qed.

Lemma py_strip_join_commas (codes : list str) :
  Forall entered_code codes -> py_strip (join_commas codes) = join_commas codes.
Proof.
  intros H. destruct codes as [|c cs]; [reflexivity|].
  apply clean_ends_py_strip.
  - inversion H as [|? ? (Hne & Hs & _) _]; subst.
    apply stripped_starts_clean in Hs.
    destruct c as [|x c]; [congruence|]. exact Hs.
  - revert c H. induction cs as [|c' cs IH]; intros c H.
    + inversion H as [|? ? (_ & Hs & _) _]; subst. simpl.
      rewrite app_nil_r. apply stripped_rstrip. exact Hs.
    + inversion H as [|? ? _ H']; subst.
      rewrite join_commas_cons.
      assert (E : rstrip_by is_space (chr "," :: join_commas (c' :: cs))
                  = chr "," :: join_commas (c' :: cs)).
      { rewrite rstrip_by_keep by reflexivity. rewrite (IH c' H').
        reflexivity. }
      rewrite rstrip_by_app; rewrite E; [reflexivity|discriminate].
Qed.

(** X9. The circle codes [process_pdf] reads from the entry are well formed:
    each is non-empty, trimmed and free of commas.  Conversely, a list of
    such codes, joined with commas, is read back as it was. *)
Theorem entered_circle_codes_round_trip :
  (forall entry c, In c (parse_circle_codes entry) -> entered_code c) /\
  (forall codes,
      Forall entered_code codes ->
      parse_circle_codes (join_commas codes) = codes).
Proof.
  split.
  - intros entry c H. unfold parse_circle_codes in H.
    apply in_map_iff in H as (code & <- & H).
    apply filter_In in H as [Hin Hne].
    split; [|split].
    + intros E. rewrite E in Hne. discriminate.
    + apply py_strip_idem.
    + intros Hc. apply in_py_strip in Hc.
      revert Hc. apply (split_upto_pieces (chr ",") _ _ code (le_n _) Hin).
  - intros codes H. unfold parse_circle_codes.
    rewrite (py_strip_join_commas codes H).
    destruct codes as [|c cs]; [reflexivity|].
    unfold py_split. rewrite split_join_commas.
    + rewrite filter_fixed.
      * apply map_fixed. intros x Hx. rewrite Forall_forall in H.
        apply (H x Hx).
      * intros x Hx. rewrite Forall_forall in H.
        destruct (H x Hx) as (Hne & -> & _).
        destruct x; [congruence|reflexivity].
    + apply length_join_commas.
    + eapply Forall_impl; [|exact H]. intros x (_ & _ & Hx). exact Hx.
Qed.

Lemma entered_circle_codes_round_trip_witness :
  Forall entered_code [lit "T1"; lit "ut 7a"; lit "14"] /\
  parse_circle_codes (join_commas [lit "T1"; lit "ut 7a"; lit "14"])
  = [lit "T1"; lit "ut 7a"; lit "14"].
Proof.
  assert (H : Forall entered_code [lit "T1"; lit "ut 7a"; lit "14"]).
  { repeat constructor; try discriminate;
      intros Hin; simpl in Hin;
      repeat (destruct Hin as [Hin|Hin]; [discriminate|]); exact Hin. }
  split; [exact H|].
  exact (proj2 entered_circle_codes_round_trip _ H).
Defined.

(** ** The counts shown by [process_pdf] *)

Lemma hits_listed (codes_upper : list str) (x : str) :
  existsb (str_eqb x) codes_upper = true ->
  1 <= length (filter (str_eqb x) codes_upper).
Proof.
  induction codes_upper as [|u us IH]; simpl; [discriminate|].
  destruct (str_eqb x u); simpl; [lia|exact IH].
Qed.

Lemma hits_NoDup (codes_upper : list str) (x : str) :
  NoDup codes_upper -> length (filter (str_eqb x) codes_upper) <= 1.
Proof.
  induction 1 as [|u us Hu _ IH]; simpl; [lia|].
  destruct (str_eqb x u) eqn:E; [|exact IH].
  apply str_eqb_eq in E. subst u. simpl.
  destruct (filter (str_eqb x) us) as [|y l] eqn:F; [simpl; lia|].
  assert (Hy : In y (filter (str_eqb x) us)) by (rewrite F; left; reflexivity).
  apply filter_In in Hy as [Hin Hy]. apply str_eqb_eq in Hy. subst y.
  contradiction.
Qed.

Section FilteredCounts.

Variable py_upper : str -> str.
Variable codes_upper : list str.

Let hits (item : record) : nat :=
  length (filter (str_eqb (py_upper (circle_code item))) codes_upper).

Lemma list_sum_cons (a : nat) (l : list nat) :
  list_sum (a :: l) = a + list_sum l.
Proof. reflexivity. Qed.

Lemma list_sum_map_add {A} (f g : A -> nat) (l : list A) :
  list_sum (map (fun x => f x + g x) l)
  = list_sum (map f l) + list_sum (map g l).
Proof. induction l as [|a l IH]; simpl; [reflexivity|]. rewrite IH. lia. Qed.

Lemma list_sum_indicator (x : str) (l : list str) :
  list_sum (map (fun u => if str_eqb x u then 1 else 0) l)
  = length (filter (str_eqb x) l).
Proof.
  induction l as [|u l IH]; simpl; [reflexivity|].
  rewrite IH. destruct (str_eqb x u); reflexivity.
Qed.

Lemma count_for_sum (rows : list record) :
  list_sum (map (count_for py_upper rows) codes_upper)
  = list_sum (map hits rows).
Proof.
  induction rows as [|r rows IH].
  - simpl. induction codes_upper as [|u us IHu]; simpl; auto.
  - cbn [map]. rewrite list_sum_cons, <- IH. unfold hits.
    rewrite <- list_sum_indicator, <- list_sum_map_add.
    f_equal. apply map_ext. intros u. unfold count_for. cbn [filter].
    destruct (str_eqb (py_upper (circle_code r)) u); reflexivity.
Qed.

End FilteredCounts.

(** X10. In [process_pdf] every row kept has a circle code whose upper case
    is the upper case of an entered code, and the counts shown per entered
    code add up to at least the total shown; they add up to exactly the
    total when no two entered codes have the same upper case.  This holds
    whatever [str.upper] does. *)
Theorem per_code_counts_cover_the_total :
  forall (py_upper : str -> str) (all_results : list record)
         (circle_codes : list str),
    let codes_upper := upper_codes py_upper circle_codes in
    let filtered := filter_results py_upper all_results codes_upper in
    Forall (fun item => circle_code item <> [] /\
                        In (py_upper (circle_code item)) codes_upper)
           filtered /\
    length filtered
    <= list_sum (map (count_for py_upper filtered) codes_upper) /\
    (NoDup codes_upper ->
     list_sum (map (count_for py_upper filtered) codes_upper)
     = length filtered).
Proof.
  intros py_upper all_results circle_codes codes_upper filtered.
  assert (Hrows : forall item, In item filtered ->
            circle_code item <> [] /\
            existsb (str_eqb (py_upper (circle_code item))) codes_upper = true).
  { intros item H. apply filter_In in H as [_ H].
    apply andb_prop in H as [Hne Hin]. split; [|exact Hin].
    intros E. rewrite E in Hne. discriminate. }
  split; [|split].
  - apply Forall_forall. intros item H. destruct (Hrows item H) as [Hne Hin].
    split; [exact Hne|].
    apply existsb_exists in Hin as (u & Hu & E). apply str_eqb_eq in E.
    rewrite E. exact Hu.
  - rewrite count_for_sum. clearbody filtered.
    induction filtered as [|r rows IH]; [simpl; lia|].
    cbn [map length]. rewrite list_sum_cons.
    pose proof (hits_listed codes_upper _
                  (proj2 (Hrows r (or_introl eq_refl)))).
    assert (length rows <=
            list_sum (map (fun item => length (filter
              (str_eqb (py_upper (circle_code item))) codes_upper)) rows)).
    { apply IH. intros item Hin. apply Hrows. right. exact Hin. }
    lia.
  - intros Hnd. rewrite count_for_sum. clearbody filtered.
    induction filtered as [|r rows IH]; [reflexivity|].
    cbn [map length]. rewrite list_sum_cons.
    pose proof (hits_listed codes_upper _
                  (proj2 (Hrows r (or_introl eq_refl)))).
    pose proof (hits_NoDup codes_upper (py_upper (circle_code r)) Hnd).
    assert (list_sum (map (fun item => length (filter
              (str_eqb (py_upper (circle_code item))) codes_upper)) rows)
            = length rows).
    { apply IH. intros item Hin. apply Hrows. right. exact Hin. }
    lia.
Qed.

Lemma per_code_counts_cover_the_total_witness :
  NoDup (upper_codes (map upper_char) [lit "t1"; lit "B2"]) /\
  list_sum
    (map (count_for (map upper_char)
            (filter_results (map upper_char)
               [mkRecord (lit "T1") (lit "1Rfi2/3cm") (lit "1");
                mkRecord [] (lit "4Rfi5/6cm") (lit "1");
                mkRecord (lit "R9") (lit "4Rfi5/6cm") (lit "2");
                mkRecord (lit "T1") (lit "7Rfi8/9cm") (lit "2")]
               (upper_codes (map upper_char) [lit "t1"; lit "B2"])))
         (upper_codes (map upper_char) [lit "t1"; lit "B2"]))
  = length
      (filter_results (map upper_char)
         [mkRecord (lit "T1") (lit "1Rfi2/3cm") (lit "1");
          mkRecord [] (lit "4Rfi5/6cm") (lit "1");
          mkRecord (lit "R9") (lit "4Rfi5/6cm") (lit "2");
          mkRecord (lit "T1") (lit "7Rfi8/9cm") (lit "2")]
         (upper_codes (map upper_char) [lit "t1"; lit "B2"])).
Proof.
  assert (H : NoDup (upper_codes (map upper_char) [lit "t1"; lit "B2"])).
  { vm_compute. repeat constructor; simpl; intros Hin;
      repeat (destruct Hin as [Hin|Hin]; [discriminate|]); exact Hin. }
  split; [exact H|].
  exact (proj2 (proj2 (per_code_counts_cover_the_total (map upper_char)
           [mkRecord (lit "T1") (lit "1Rfi2/3cm") (lit "1");
            mkRecord [] (lit "4Rfi5/6cm") (lit "1");
            mkRecord (lit "R9") (lit "4Rfi5/6cm") (lit "2");
            mkRecord (lit "T1") (lit "7Rfi8/9cm") (lit "2")]
           [lit "t1"; lit "B2"])) H).
Defined.

(** ** Reading the results box back *)

Lemma contains_app (sub b : str) :
  forall a, contains sub (a ++ sub ++ b) = true.
Proof.
  induction a as [|c a IH].
  - cbn [app]. destruct (sub ++ b) eqn:E; simpl; rewrite <- E;
      rewrite starts_with_app; reflexivity.
  - simpl. rewrite IH. apply orb_true_r.
Qed.

Lemma contains_absent (x : char) (sub : str) :
  forall s, ~ In x s -> contains (x :: sub) s = false.
Proof.
  induction s as [|c t IH]; intros Hs; [reflexivity|].
  simpl. replace (char_eqb x c) with false.
  - cbn [andb orb]. apply IH. intros H. apply Hs. right. exact H.
  - symmetry. apply N.eqb_neq. intros ->. apply Hs. left. reflexivity.
Qed.

Lemma split_upto_absent (x : char) (sep s : str) (n : nat) :
  ~ In x s -> split_upto n (x :: sep) s = [s].
Proof.
  intros H. destruct n; [reflexivity|]. cbn [split_upto].
  rewrite find_sub_absent by exact H. reflexivity.
Qed.

Lemma split_upto_first (x : char) (sep a b : str) (n : nat) :
  ~ In x a ->
  split_upto (S n) (x :: sep) (a ++ (x :: sep) ++ b)
  = a :: split_upto n (x :: sep) b.
Proof.
  intros Ha. cbn [split_upto]. rewrite find_sub_first by exact Ha.
  reflexivity.
Qed.

Lemma py_split_once (x : char) (sep a b : str) :
  ~ In x a -> ~ In x b ->
  py_split (x :: sep) (a ++ (x :: sep) ++ b) = [a; b].
Proof.
  intros Ha Hb. unfold py_split.
  destruct (length (a ++ (x :: sep) ++ b)) as [|n] eqn:E.
  - rewrite !length_app in E. simpl in E. lia.
  - rewrite split_upto_first by exact Ha.
    rewrite split_upto_absent by exact Hb. reflexivity.
Qed.

Lemma str_replace_delete (x : char) (s : str) :
  str_replace [x] [] s = filter (fun c => negb (char_eqb x c)) s.
Proof.
  unfold str_replace. induction s as [|c t IH]; [reflexivity|].
  cbn [replace_from starts_with length filter].
  destruct (char_eqb x c); cbn [andb negb app]; rewrite IH; reflexivity.
Qed.

Lemma lstrip_by_all (f : char -> bool) (w s : str) :
  Forall (fun c => f c = true) w -> lstrip_by f (w ++ s) = lstrip_by f s.
Proof.
  induction 1 as [|c w Hc _ IH]; [reflexivity|].
  simpl. rewrite Hc. exact IH.
Qed.

Lemma rstrip_by_all (f : char -> bool) (m w : str) :
  Forall (fun c => f c = false) m -> Forall (fun c => f c = true) w ->
  rstrip_by f (m ++ w) = m.
Proof.
  intros Hm Hw. induction Hm as [|c m Hc _ IH].
  - simpl. induction Hw as [|c w Hc _ IH]; [reflexivity|].
    simpl. rewrite IH, Hc. reflexivity.
  - cbn [app]. rewrite rstrip_by_keep by exact Hc. rewrite IH. reflexivity.
Qed.

(** Trimming a text without white space that stands between white space
    gives the text. *)
Lemma py_strip_padded (w1 m w2 : str) :
  Forall (fun c => is_space c = true) w1 -> Forall not_space m ->
  Forall (fun c => is_space c = true) w2 ->
  py_strip (w1 ++ m ++ w2) = m.
Proof.
  intros H1 Hm H2. unfold py_strip. rewrite lstrip_by_all by exact H1.
  destruct m as [|c m].
  - cbn [app]. rewrite <- (app_nil_r w2) at 1.
    rewrite lstrip_by_all by exact H2. reflexivity.
  - inversion Hm as [|? ? Hc Hm']; subst. cbn [app lstrip_by].
    unfold not_space in Hc. rewrite Hc.
    change (c :: m ++ w2) with ((c :: m) ++ w2).
    apply rstrip_by_all; [exact Hm|exact H2].
Qed.

Lemma field_not_space (s : str) : Forall field_char s -> Forall not_space s.
Proof. apply Forall_impl. intros c [H _]. exact H. Qed.

Lemma field_excludes (x : char) (s : str) :
  In x (lit ":()") -> Forall field_char s -> ~ In x s.
Proof.
  intros Hx Hs Hin. rewrite Forall_forall in Hs.
  destruct (Hs x Hin) as [_ H]. exact (H Hx).
Qed.

Lemma field_excludes_space (x : char) (s : str) :
  is_space x = true -> Forall field_char s -> ~ In x s.
Proof.
  intros Hx Hs Hin. rewrite Forall_forall in Hs.
  destruct (Hs x Hin) as [H _]. congruence.
Qed.

Lemma not_in_app (x : char) (a b : str) :
  ~ In x a -> ~ In x b -> ~ In x (a ++ b).
Proof. intros Ha Hb H. apply in_app_or in H. tauto. Qed.

Ltac absent :=
  repeat first
    [ assumption
    | apply not_in_app
    | apply not_one_of; reflexivity
    | apply field_excludes; [vm_compute; tauto|assumption]
    | apply field_excludes_space; [reflexivity|assumption] ].

Lemma filter_delete (x : char) (s : str) :
  ~ In x s -> filter (fun c => negb (char_eqb x c)) s = s.
Proof.
  intros H. apply filter_fixed. intros c Hc.
  apply negb_true_iff, N.eqb_neq. intros ->. exact (H Hc).
Qed.

Lemma py_strip_field (s : str) : Forall field_char s -> py_strip s = s.
Proof.
  intros H. rewrite <- (app_nil_r s) at 1.
  apply (py_strip_padded [] s []); auto using field_not_space.
Qed.

Lemma py_strip_field_space (s : str) :
  Forall field_char s -> py_strip (s ++ lit " ") = s.
Proof.
  intros H. apply (py_strip_padded [] s (lit " "));
    auto using field_not_space. repeat constructor.
Qed.

Lemma py_strip_space_field (s : str) :
  Forall field_char s -> py_strip (lit " " ++ s) = s.
Proof.
  intros H. rewrite <- (app_nil_r s) at 1.
  apply (py_strip_padded (lit " ") s []); auto using field_not_space.
  repeat constructor.
Qed.

Lemma parse_line_with_code (c m p : str) :
  Forall field_char c -> Forall field_char m -> Forall field_char p ->
  c <> [] -> c <> lit "-" ->
  parse_line (c ++ lit ": " ++ m ++ lit " (Page " ++ p ++ lit ")")
  = Some (mkRecord c m p).
Proof.
  intros Hc Hm Hp Hne Hdash. unfold parse_line.
  rewrite contains_app.
  replace (contains (lit "Page")
             (c ++ lit ": " ++ m ++ lit " (Page " ++ p ++ lit ")"))
    with true.
  2:{ symmetry.
      replace (c ++ lit ": " ++ m ++ lit " (Page " ++ p ++ lit ")")
        with ((c ++ lit ": " ++ m ++ lit " (") ++ lit "Page"
              ++ (lit " " ++ p ++ lit ")"))
        by (rewrite <- !app_assoc; reflexivity).
      apply contains_app. }
  cbn [andb]. unfold py_split1.
  change (lit ": ") with (chr ":" :: lit " ").
  rewrite split_upto_first by absent.
  cbn [split_upto nth].
  rewrite (py_strip_field c Hc).
  replace (m ++ lit " (Page " ++ p ++ lit ")")
    with ((m ++ lit " ") ++ (chr "(" :: lit "Page ") ++ (p ++ lit ")"))
    by (rewrite <- !app_assoc; reflexivity).
  change (lit "(Page ") with (chr "(" :: lit "Page ").
  rewrite py_split_once by absent.
  cbn [nth length Nat.ltb Nat.leb].
  rewrite (py_strip_field_space m Hm).
  change (lit ")") with [chr ")"].
  rewrite str_replace_delete, filter_app, filter_delete by absent.
  cbn [filter]. change (negb (char_eqb (chr ")") (chr ")"))) with false.
  cbv iota. rewrite app_nil_r, (py_strip_field p Hp).
  replace (is_empty c || str_eqb c (lit "-")) with false; [reflexivity|].
  symmetry. apply orb_false_iff. split.
  - destruct c; [congruence|reflexivity].
  - apply str_eqb_neq. exact Hdash.
Qed.

Lemma parse_line_without_code (m p : str) :
  Forall field_char m -> Forall field_char p ->
  parse_line (m ++ lit " (Page " ++ p ++ lit ")")
  = Some (mkRecord [] m p).
Proof.
  intros Hm Hp. unfold parse_line.
  change (lit ": ") with (chr ":" :: lit " ").
  rewrite contains_absent by absent. cbn [andb].
  replace (m ++ lit " (Page " ++ p ++ lit ")")
    with ((m ++ lit " ") ++ (chr "(" :: lit "Page") ++ (lit " " ++ p ++ lit ")"))
    by (rewrite <- !app_assoc; reflexivity).
  change (lit "(Page") with (chr "(" :: lit "Page").
  rewrite contains_app.
  change (lit ":") with (chr ":" :: []).
  rewrite contains_absent by absent. cbn [andb negb].
  rewrite py_split_once by absent.
  cbn [nth]. rewrite (py_strip_field_space m Hm).
  change (lit ")") with [chr ")"].
  rewrite str_replace_delete, !filter_app, (filter_delete _ p) by absent.
  change (filter (fun c => negb (char_eqb (chr ")") c)) (lit " "))
    with (lit " ").
  change (filter (fun c => negb (char_eqb (chr ")") c)) [chr ")"])
    with (@nil char).
  rewrite app_nil_r, (py_strip_space_field p Hp). reflexivity.
Qed.

Lemma parse_format_row (r : record) :
  printable r -> parse_line (format_row r) = Some r.
Proof.
  intros (Hc & Hdash & Hm & Hp). destruct r as [c m p]. simpl in *.
  unfold format_row. cbn [circle_code material_code page].
  destruct c as [|x c].
  - cbn [is_empty app]. apply parse_line_without_code; assumption.
  - cbn [is_empty]. rewrite <- app_assoc.
    apply parse_line_with_code; try assumption. discriminate.
Qed.

Lemma split_lines_line (l rest : str) :
  ~ In newline l ->
  split_lines (l ++ newline :: rest) = l :: split_lines rest.
Proof.
  induction l as [|c l IH]; intros Hn; [reflexivity|].
  cbn [app split_lines]. destruct (char_eqb c newline) eqn:E.
  - apply char_eqb_eq in E. subst c. exfalso. apply Hn. left. reflexivity.
  - rewrite IH; [reflexivity|]. intros H. apply Hn. right. exact H.
Qed.

Lemma split_lines_blank (rest : str) :
  split_lines (newline :: rest) = [] :: split_lines rest.
Proof. reflexivity. Qed.

Lemma split_lines_rows (rows : list record) (rest : str) :
  Forall (fun r => ~ In newline (format_row r)) rows ->
  split_lines (flat_map (fun item => format_row item ++ [newline]) rows ++ rest)
  = map format_row rows ++ split_lines rest.
Proof.
  induction 1 as [|r rows Hr _ IH]; [reflexivity|].
  cbn [flat_map map]. rewrite <- !app_assoc. cbn [app].
  rewrite split_lines_line by exact Hr. rewrite IH. reflexivity.
Qed.

Lemma str_of_nat_digits (n : nat) (x : char) :
  In x (str_of_nat n) -> In x (lit "0123456789").
Proof.
  unfold str_of_nat. generalize (Nat.to_uint n). intros u.
  induction u; simpl; intros H; try tauto;
    destruct H as [<-|H]; simpl; tauto.
Qed.

Lemma format_row_no_newline (r : record) :
  printable r -> ~ In newline (format_row r).
Proof.
  intros (Hc & _ & Hm & Hp). unfold format_row.
  destruct (is_empty (circle_code r)); absent.
Qed.

Lemma total_line_skipped (n : nat) :
  parse_line (lit "TOTAL MATERIALS FOUND: " ++ str_of_nat n) = None.
Proof.
  assert (Hn : forall x, In x (lit "P(") -> ~ In x (str_of_nat n)).
  { intros x Hx Hin. apply str_of_nat_digits in Hin. simpl in Hx, Hin.
    destruct Hx as [<-|[<-|[]]];
      repeat (destruct Hin as [Hin|Hin]; [discriminate|]); exact Hin. }
  unfold parse_line.
  change (lit "Page") with (chr "P" :: lit "age").
  rewrite (contains_absent (chr "P")).
  2:{ apply not_in_app; [apply not_one_of; reflexivity|].
      apply Hn. simpl. tauto. }
  rewrite andb_false_r.
  change (lit "(Page") with (chr "(" :: lit "Page").
  rewrite (contains_absent (chr "(")); [reflexivity|].
  apply not_in_app; [apply not_one_of; reflexivity|].
  apply Hn. simpl. tauto.
Qed.

Lemma saved_rows_lines (rows : list record) :
  Forall printable rows ->
  flat_map
    (fun line => match parse_line line with Some r => [r] | None => [] end)
    (map format_row rows) = rows.
Proof.
  induction 1 as [|r rows Hr _ IH]; [reflexivity|].
  cbn [map flat_map]. rewrite (parse_format_row r Hr), IH. reflexivity.
Qed.

Lemma saved_rows_display (rows : list record) :
  Forall printable rows ->
  saved_rows (display_all_materials rows ++ [newline]) = rows.
Proof.
  intros H. unfold saved_rows, display_all_materials.
  rewrite <- !app_assoc. cbn [app].
  rewrite split_lines_line by (apply not_one_of; reflexivity).
  rewrite split_lines_blank.
  rewrite split_lines_line by (apply not_one_of; reflexivity).
  rewrite split_lines_rows.
  2:{ eapply Forall_impl; [|exact H]. apply format_row_no_newline. }
  rewrite split_lines_blank.
  rewrite split_lines_line by (apply not_one_of; reflexivity).
  rewrite (app_assoc (lit "TOTAL MATERIALS FOUND: ")).
  rewrite split_lines_line.
  2:{ apply not_in_app; [apply not_one_of; reflexivity|].
      intros Hin. apply str_of_nat_digits in Hin. simpl in Hin.
      repeat (destruct Hin as [Hin|Hin]; [discriminate|]). exact Hin. }
  change (split_lines [newline]) with [@nil char; @nil char].
  cbn [flat_map]. rewrite flat_map_app. rewrite (saved_rows_lines rows H).
  cbn [flat_map]. rewrite total_line_skipped.
  rewrite <- (app_nil_r rows) at 2.
  reflexivity.
Qed.

(** X11. The results box is read back as it was written.  A row whose fields
    hold no white space, colon or parenthesis, and whose circle code is not a
    lone hyphen, is read from the line [process_all_materials] shows for it;
    and from the whole text of the box, as [process_all_materials] fills it
    for a non-empty list of such rows and the widget returns it with a final
    newline, the loop of [save_results] reads exactly these rows, in order:
    the title, the rules and the total give no row. *)
Theorem shown_rows_are_read_back :
  (forall r, printable r -> parse_line (format_row r) = Some r) /\
  (forall rows,
      rows <> [] -> Forall printable rows ->
      saved_rows (display_all_materials rows ++ [newline]) = rows).
Proof.
  split; [exact parse_format_row|].
  intros rows _. apply saved_rows_display.
Qed.

Ltac field_chars :=
  repeat (constructor; [split; [reflexivity|apply not_one_of; reflexivity]|]);
  constructor.

Lemma shown_rows_are_read_back_witness :
  ([mkRecord (lit "UT7a") (lit "5Rfi12/8cm,L=3.5m") (lit "2");
    mkRecord [] (lit "4Rfi5/6cm") (lit "10")] <> [] /\
   Forall printable
     [mkRecord (lit "UT7a") (lit "5Rfi12/8cm,L=3.5m") (lit "2");
      mkRecord [] (lit "4Rfi5/6cm") (lit "10")]) /\
  saved_rows
    (display_all_materials
       [mkRecord (lit "UT7a") (lit "5Rfi12/8cm,L=3.5m") (lit "2");
        mkRecord [] (lit "4Rfi5/6cm") (lit "10")] ++ [newline])
  = [mkRecord (lit "UT7a") (lit "5Rfi12/8cm,L=3.5m") (lit "2");
     mkRecord [] (lit "4Rfi5/6cm") (lit "10")].
Proof.
  assert (H : Forall printable
     [mkRecord (lit "UT7a") (lit "5Rfi12/8cm,L=3.5m") (lit "2");
      mkRecord [] (lit "4Rfi5/6cm") (lit "10")]).
  { constructor; [|constructor; [|constructor]];
      (split; [field_chars|split; [discriminate|split; field_chars]]). }
  split; [split; [discriminate|exact H]|].
  apply (proj2 shown_rows_are_read_back); [discriminate|exact H].
Defined.


Lemma class_code_char (f : char -> bool) :
  forallb (fun c => negb (f c)) (points space_ranges ++ lit ":()-") = true ->
  forall c, f c = true -> code_char c.
Proof.
  intros H c Hf. rewrite forallb_app in H. apply andb_prop in H as [Hs Hx].
  rewrite forallb_forall in Hx.
  assert (Hno : ~ In c (lit ":()-")).
  { intros Hin. apply Hx in Hin. rewrite Hf in Hin. discriminate. }
  split; [split|].
  - exact (not_space_by_points f Hs c Hf).
  - intros Hin. apply Hno. simpl in Hin |- *. tauto.
  - intros ->. apply Hno. simpl. tauto.
Qed.

Ltac code_classes :=
  simpl;
  repeat match goal with
         | |- _ /\ _ => split
         | |- True => exact I
         end;
  apply class_code_char; vm_compute; reflexivity.

Lemma strict_circle_pattern_classes : classes code_char strict_circle_pattern.
Proof. code_classes. Qed.

Lemma material_pattern_classes : classes code_char material_pattern.
Proof. code_classes. Qed.

Lemma code_chars_field (s : str) : Forall code_char s -> Forall field_char s.
Proof. apply Forall_impl. intros c [H _]. exact H. Qed.

Lemma circle_printable (circle : str) :
  den strict_circle_pattern circle ->
  Forall field_char circle /\ circle <> lit "-".
Proof.
  intros H.
  pose proof (den_classes code_char _ strict_circle_pattern_classes _ H) as Hc.
  split; [apply code_chars_field; exact Hc|].
  intros ->. inversion Hc as [|? ? [_ Hh] _]; subst. apply Hh. reflexivity.
Qed.

Lemma canonical_field (raw : str) :
  den material_pattern raw -> Forall field_char (canonical raw).
Proof.
  intros H.
  pose proof (den_classes code_char _ material_pattern_classes _ H) as Hc.
  pose proof (den_classes not_space material_pattern
                material_pattern_no_space raw H) as Hn.
  rewrite (canonical_no_space raw Hn).
  apply Forall_forall. intros c Hin. apply in_rstrip_by in Hin.
  apply code_chars_field in Hc. rewrite Forall_forall in Hc. auto.
Qed.

Lemma lookahead_circle (following : list str) (x : str) :
  lookahead following = Some x -> den strict_circle_pattern x.
Proof.
  induction following as [|l following IH]; [discriminate|].
  cbn [lookahead]. destruct (is_empty (py_strip l)); [exact IH|].
  intros H. apply re_fullmatch_some in H as [-> H]. exact H.
Qed.

Lemma step_line_printable (pg l : str) (following : list str) (acc : result) :
  Forall field_char pg -> Forall printable (fst acc) ->
  Forall printable (fst (step_line pg l following acc)).
Proof.
  intros Hpg Hacc. unfold step_line.
  destruct (is_empty (py_strip l)); [exact Hacc|].
  destruct (re_search material_pattern (py_strip l))
    as [[[pre raw] post]|] eqn:E; [|exact Hacc].
  apply re_search_some in E as (_ & Hraw & _).
  pose proof (canonical_field raw Hraw) as Hm.
  assert (Blank : Forall printable
                    (fst (emit_blank (canonical raw) pg acc))).
  { unfold emit_blank. cbn [fst]. apply Forall_app. split; [exact Hacc|].
    repeat constructor; try assumption. discriminate. }
  assert (Emit : forall circle, den strict_circle_pattern circle ->
            Forall printable (fst (emit circle (canonical raw) pg acc))).
  { intros circle Hc. apply circle_printable in Hc as [Hc Hd].
    unfold emit. cbn [fst]. apply Forall_app. split; [exact Hacc|].
    repeat constructor; assumption. }
  destruct (re_search strict_circle_pattern post)
    as [[[sk circle] post']|] eqn:Ec.
  - apply re_search_some in Ec as (_ & Hc & _). apply Emit, Hc.
  - destruct (lookahead following) as [[|c found]|] eqn:El;
      [exact Blank| |exact Blank].
    apply Emit. eapply lookahead_circle. exact El.
Qed.

Lemma scan_lines_printable (pg : str) (lines : list str) :
  forall acc,
    Forall field_char pg -> Forall printable (fst acc) ->
    Forall printable (fst (scan_lines pg lines acc)).
Proof.
  induction lines as [|l following IH]; intros acc Hpg H; [exact H|].
  cbn [scan_lines]. apply IH; [exact Hpg|].
  apply step_line_printable; assumption.
Qed.

Lemma str_of_nat_field (n : nat) : Forall field_char (str_of_nat n).
Proof.
  apply Forall_forall. intros x Hx. apply str_of_nat_digits in Hx.
  simpl in Hx.
  repeat (destruct Hx as [<-|Hx];
          [split; [reflexivity|];
           apply not_one_of; reflexivity|]).
  destruct Hx.
Qed.

Lemma extract_all_codes_printable (text : str) (target : list str) (n : nat) :
  Forall printable (fst (extract_all_codes text target (str_of_nat n))).
Proof.
  apply scan_lines_printable; [apply str_of_nat_field|constructor].
Qed.

(** X12. What [process_all_materials] shows for a document is what
    [save_results] saves: the rows [extract_all_codes_from_pdf] returns have
    fields without white space, colon or parenthesis (a circle code of the
    strict pattern, a canonical material code, a decimal page number), so
    when there are rows the loop of [save_results] reads from the box
    exactly the rows returned, in order. *)
Theorem document_rows_are_saved_as_shown :
  forall d tr res,
    extract_all_codes_from_pdf d = (tr, Some res) ->
    fst res <> [] ->
    Forall printable (fst res) /\
    saved_rows (display_all_materials (fst res) ++ [newline]) = fst res.
Proof.
  intros d tr res H _.
  assert (Hp : Forall printable (fst res)).
  { apply Forall_forall. intros r Hr.
    destruct (driver_rows_cases d tr res H)
      as [(texts & _ & _ & [[_ E]|[E _]])|(images & _ & E)];
      rewrite E in Hr; [destruct Hr| |];
      apply in_pages_rows in Hr as (i & text & _ & Hr);
      revert r Hr; apply Forall_forall; apply extract_all_codes_printable. }
  split; [exact Hp|]. apply saved_rows_display. exact Hp.
Qed.

Lemma document_rows_are_saved_as_shown_witness :
  extract_all_codes_from_pdf text_document
    = ([OpenNative; GetText 0; GetText 1; GetText 0; GetText 1],
       Some ([mkRecord (lit "UT7a") (lit "5Rfi12/8cm,L=3.5m") (lit "2")],
             [(lit "UT7a", 1)])) /\
  [mkRecord (lit "UT7a") (lit "5Rfi12/8cm,L=3.5m") (lit "2")] <> [] /\
  saved_rows
    (display_all_materials
       [mkRecord (lit "UT7a") (lit "5Rfi12/8cm,L=3.5m") (lit "2")]
     ++ [newline])
  = [mkRecord (lit "UT7a") (lit "5Rfi12/8cm,L=3.5m") (lit "2")].
Proof.
  assert (E : extract_all_codes_from_pdf text_document
    = ([OpenNative; GetText 0; GetText 1; GetText 0; GetText 1],
       Some ([mkRecord (lit "UT7a") (lit "5Rfi12/8cm,L=3.5m") (lit "2")],
             [(lit "UT7a", 1)]))) by (vm_compute; reflexivity).
  split; [exact E|]. split; [discriminate|].
  apply (document_rows_are_saved_as_shown text_document _ _ E). discriminate.
Defined.

(** ** Substitutions that keep a class of characters *)

Section KeptSubstitution.

Variable r : regex.
Variable repl : str -> str.
Variable P : char -> Prop.

Hypothesis repl_keeps :
  forall m, den r m -> Forall P m -> Forall P (repl m).

Lemma sub_from_Forall :
  forall n s prev, length s <= n -> Forall P s ->
    Forall P (sub_from r repl 0 prev s).
Proof.
  induction n as [|n IH]; intros s prev Hlen HP.
  - destruct s; [constructor|simpl in Hlen; lia].
  - destruct s as [|c t]; [constructor|]. simpl in Hlen.
    assert (Keep : Forall P (c :: sub_from r repl 0 (Some c) t)).
    { inversion HP; subst. constructor; [assumption|].
      apply IH; [lia|assumption]. }
    destruct (run r (prev, c :: t)) as [|[q rest] l] eqn:E.
    + rewrite sub_from_no_match by exact E. exact Keep.
    + destruct (run_head r _ _ _ _ E) as (m & Hs & Hm & _). simpl snd in Hs.
      destruct m as [|c' m'].
      * simpl in Hs. subst rest. cbn [sub_from]. rewrite E, Nat.sub_diag.
        exact Keep.
      * rewrite Hs in E, HP |- *.
        rewrite (sub_from_match r repl prev (c' :: m') rest q l E)
          by discriminate.
        apply Forall_app in HP as [HPm HPr].
        apply Forall_app. split; [apply repl_keeps; assumption|].
        apply IH; [|exact HPr].
        assert (Hl : length (c :: t) = length ((c' :: m') ++ rest))
          by (rewrite Hs; reflexivity).
        simpl in Hl. rewrite length_app in Hl. lia.
Qed.

Lemma re_sub_with_Forall (s : str) :
  Forall P s -> Forall P (re_sub_with r repl s).
Proof. intros H. apply (sub_from_Forall (length s)); auto. Qed.

End KeptSubstitution.

Section SameSubstitution.

Variable r : regex.
Variable repl : str -> str.
Variable P : char -> Prop.

(** A replacement that gives back what was matched changes nothing. *)
Hypothesis repl_same :
  forall m, den r m -> Forall P m -> repl m = m.

Lemma sub_from_unchanged :
  forall n s prev, length s <= n -> Forall P s ->
    sub_from r repl 0 prev s = s.
Proof.
  induction n as [|n IH]; intros s prev Hlen HP.
  - destruct s; [reflexivity|simpl in Hlen; lia].
  - destruct s as [|c t]; [reflexivity|]. simpl in Hlen.
    assert (Keep : sub_from r repl 0 (Some c) t = t).
    { apply IH; [lia|]. inversion HP; assumption. }
    destruct (run r (prev, c :: t)) as [|[q rest] l] eqn:E.
    + rewrite sub_from_no_match by exact E. rewrite Keep. reflexivity.
    + destruct (run_head r _ _ _ _ E) as (m & Hs & Hm & _). simpl snd in Hs.
      destruct m as [|c' m'].
      * simpl in Hs. subst rest. cbn [sub_from]. rewrite E, Nat.sub_diag.
        rewrite Keep. reflexivity.
      * rewrite Hs in E, HP |- *.
        rewrite (sub_from_match r repl prev (c' :: m') rest q l E)
          by discriminate.
        apply Forall_app in HP as [HPm HPr].
        rewrite (repl_same _ Hm HPm). f_equal.
        apply IH; [|exact HPr].
        assert (Hl : length (c :: t) = length ((c' :: m') ++ rest))
          by (rewrite Hs; reflexivity).
        simpl in Hl. rewrite length_app in Hl. lia.
Qed.

End SameSubstitution.

Lemma delete_spaces_no_space :
  forall n s prev, length s <= n ->
    Forall not_space (sub_from spaces_pattern (fun _ => []) 0 prev s).
Proof.
  induction n as [|n IH]; intros s prev Hlen.
  - destruct s; [constructor|simpl in Hlen; lia].
  - destruct s as [|c t]; [constructor|]. simpl in Hlen.
    destruct (is_space c) eqn:E.
    + destruct (squeeze_space [] prev c t E) as (prev' & ->).
      apply IH. pose proof (length_lstrip_by is_space t). lia.
    + rewrite (squeeze_other [] prev c t E).
      constructor; [exact E|]. apply IH. lia.
Qed.

Lemma Forall_removelast {A} (P : A -> Prop) (l : list A) :
  Forall P l -> Forall P (removelast l).
Proof.
  induction 1 as [|a l Ha Hl IH]; [constructor|].
  simpl. destruct l; [constructor|]. constructor; assumption.
Qed.

Lemma Forall_tl {A} (P : A -> Prop) (l : list A) :
  Forall P l -> Forall P (tl l).
Proof. destruct 1; [constructor|assumption]. Qed.

Lemma no_space_lit (w : string) :
  forallb (fun c => negb (is_space c)) (lit w) = true ->
  Forall not_space (lit w).
Proof.
  intros H. apply Forall_forall. intros c Hc.
  rewrite forallb_forall in H. apply H in Hc.
  unfold not_space. destruct (is_space c); [discriminate|reflexivity].
Qed.

(** X13. A code that [clean_material_code] returns is of the validated form
    itself: integer, [Rfi], integer, slash, integer, [cm], comma, [L=],
    number, [m], with no white space anywhere.  The final newline that
    [validate_material_code] lets pass never reaches the result, the white
    space being deleted first and no later substitution bringing any back. *)
Theorem cleaned_codes_are_validated :
  forall s c,
    clean_material_code s = Some c ->
    validated_form c /\ Forall not_space c /\ validate_material_code c = true.
Proof.
  intros s c. unfold clean_material_code.
  set (c1 := re_sub spaces_pattern [] s).
  set (c2 := re_sub rfi_loose_pattern (lit "Rfi") c1).
  set (c3 := re_sub comma_L_eq_pattern (lit ",L=") c2).
  set (c4 := re_sub_with point_length_pattern (fun m => lit "." ++ tl m) c3).
  set (c5 := if has_cm c4 then c4
             else re_sub_with missing_cm_pattern
                    (fun m => removelast m ++ lit "cm,") c4).
  assert (H1 : Forall not_space c1)
    by (apply (delete_spaces_no_space (length s)); constructor).
  assert (H2 : Forall not_space c2).
  { apply re_sub_with_Forall; [|exact H1]. intros m _ _.
    apply no_space_lit. reflexivity. }
  assert (H3 : Forall not_space c3).
  { apply re_sub_with_Forall; [|exact H2]. intros m _ _.
    apply no_space_lit. reflexivity. }
  assert (H4 : Forall not_space c4).
  { apply re_sub_with_Forall; [|exact H3]. intros m _ Hm.
    apply Forall_app. split; [apply no_space_lit; reflexivity|].
    apply Forall_tl. exact Hm. }
  assert (H5 : Forall not_space c5).
  { unfold c5. destruct (has_cm c4); [exact H4|].
    apply re_sub_with_Forall; [|exact H4]. intros m _ Hm.
    apply Forall_app. split; [|apply no_space_lit; reflexivity].
    apply Forall_removelast. exact Hm. }
  destruct (validate_material_code c5) eqn:V; [|discriminate].
  intros E. injection E as <-. split; [|split; [exact H5|exact V]].
  apply validate_material_code_run in V as (q & Hq & He).
  apply run_sound in Hq as (m & Hs & Hm). simpl in Hs.
  apply validate_core_form in Hm.
  apply at_end_spec in He as [E|E]; rewrite E in Hs.
  - rewrite app_nil_r in Hs. rewrite Hs. exact Hm.
  - exfalso. rewrite Hs in H5. apply Forall_app in H5 as [_ H5].
    inversion H5 as [|? ? Hn _]; subst. discriminate Hn.
Qed.

Lemma cleaned_codes_are_validated_witness :
  clean_material_code (lit "5 rf 12/8, L =3,5m")
  = Some (lit "5Rfi12/8cm,L=3.5m") /\
  validated_form (lit "5Rfi12/8cm,L=3.5m") /\
  Forall not_space (lit "5Rfi12/8cm,L=3.5m") /\
  validate_material_code (lit "5Rfi12/8cm,L=3.5m") = true.
Proof.
  assert (E : clean_material_code (lit "5 rf 12/8, L =3,5m")
              = Some (lit "5Rfi12/8cm,L=3.5m")) by (vm_compute; reflexivity).
  split; [exact E|].
  exact (cleaned_codes_are_validated _ _ E).
Defined.

(** ** [preprocess_text] *)

Lemma hyphen_break_has_newline (m : str) :
  den hyphen_break_pattern m -> In newline m.
Proof.
  intros H. unfold hyphen_break_pattern in H.
  apply (den_Seqs [Plus digit; Exact "Rfi"; Star (Chr not_newline);
                   Exact "-"; spaces0; Chr (char_eqb newline); spaces0;
                   digit]) in H.
  cbn [map cats] in H.
  destruct H as (x1 & y1 & -> & _ & x2 & y2 & -> & _ & x3 & y3 & -> & _ &
                 x4 & y4 & -> & _ & x5 & y5 & -> & _ & x6 & y6 & -> & H6 & _).
  destruct H6 as (c & -> & Hc). apply char_eqb_eq in Hc. subst c.
  do 5 (apply in_or_app; right). left. reflexivity.
Qed.

(** X14. [preprocess_text] changes nothing in a text without white space:
    a hyphenated break needs a newline, and the three standardising
    substitutions only remove white space around the comma and [L=], the
    slash and [cm]. *)
Theorem preprocess_text_keeps_text_without_space :
  forall text, Forall not_space text -> preprocess_text text = text.
Proof.
  intros text Hn. unfold preprocess_text.
  assert (E : re_sub_with hyphen_break_pattern join_hyphen_break text = text).
  { apply (sub_from_unchanged hyphen_break_pattern join_hyphen_break
             not_space) with (n := length text); [|apply le_n|exact Hn].
    intros m Hm Hs. exfalso. apply hyphen_break_has_newline in Hm.
    rewrite Forall_forall in Hs. apply Hs in Hm. discriminate Hm. }
  rewrite E.
  rewrite (re_sub_fixed comma_L_pattern (lit ",L=") not_space
             padded_comma_L text Hn).
  rewrite (re_sub_fixed slash_pattern (lit "/") not_space
             (padded_symbol "/") text Hn).
  apply (re_sub_fixed cm_pattern (lit "cm") not_space
           (padded_symbol "cm") text Hn).
Qed.

Lemma preprocess_text_keeps_text_without_space_witness :
  Forall not_space (lit "5Rfi12/8cm,L=3.5m'") /\
  preprocess_text (lit "5Rfi12/8cm,L=3.5m'") = lit "5Rfi12/8cm,L=3.5m'".
Proof.
  assert (H : Forall not_space (lit "5Rfi12/8cm,L=3.5m'"))
    by (apply no_space_lit; reflexivity).
  split; [exact H|].
  exact (preprocess_text_keeps_text_without_space _ H).
Defined.

(** ** The material column *)





(** ** Circle codes *)










(** ** The calls of the document driver *)

Lemma pages_result_rows (extract : str -> nat -> result) (texts : list str) :
  forall n acc,
    fst (pages_result extract n texts acc)
    = fst acc ++ pages_rows extract n texts.
Proof.
  induction texts as [|t texts IH]; intros n acc; cbn [pages_result pages_rows].
  - rewrite app_nil_r. reflexivity.
  - rewrite IH. unfold accumulate. cbn [fst]. rewrite app_assoc. reflexivity.
Qed.




